(** * Rumble Recognition: the session sequencer of the gastric interoception task

    A shallow embedding of [task_main/rumble_recognition.py] and
    [task_main/rumble_recognition_functions.py].

    The program is a sequential walk through display, audio and logging
    steps.  It is embedded as a computation that
    - reads the outside world through an oracle: a list of [tick]s, one per
      iteration of a polling loop (keys seen, pointer state, clock reading),
      and a stream of raw random draws;
    - produces a chronological list of [event]s: what was shown, played,
      recorded, sent over the serial line, and appended to the session log;
    - ends with an [outcome]: a normal return, or a stop (the cancel key,
      an oracle that ran dry, an uncaught exception).

    Left out: diagnostics ([print], [logger.info]), what a polling loop
    redraws at each of its iterations, the creation of the window and
    the opening of the serial port.  The participant identifier and the
    directories, which the program reads from its configuration document
    or takes from its defaults, are parameters.  Input and output
    succeed.

    Numbers.  The pointer position, the one number the program does
    floating-point arithmetic on, is a binary64 float and the arithmetic
    is IEEE 754.  Clock readings and ratings, which the program only
    compares and passes on, are the rationals they stand for, and so is
    what [random.uniform] returns.

    Strings are made of the characters below U+0100. *)

From Stdlib Require Import ZArith NArith QArith List String Ascii Bool Lia.
From Stdlib Require Import DecimalString Permutation Lqa Qround SpecFloat.
Import ListNotations.
Close Scope Q_scope.
Open Scope string_scope.
Open Scope list_scope.

Infix "+++" := String.append (right associativity, at level 60) : string_scope.

(** ** Python built-ins and library calls the program relies on *)

Module Py.

(** [str(n)] for an integer. *)
Definition str (z : Z) : string := NilZero.string_of_int (Z.to_int z).

(** [range(a, a + n)] *)
Fixpoint range_from (a : Z) (n : nat) : list Z :=
  match n with
  | O => []
  | S n' => a :: range_from (a + 1) n'
  end.

Definition range (a b : Z) : list Z := range_from a (Z.to_nat (b - a)).

(** [x[i] = v] on a list; Python raises out of range, the callers below
    only assign at positions they have just read. *)
Fixpoint set_item {A} (x : list A) (i : nat) (v : A) : list A :=
  match x, i with
  | [], _ => []
  | _ :: r, O => v :: r
  | a :: r, S i' => a :: set_item r i' v
  end.

(** [x[i], x[j] = x[j], x[i]] *)
Definition swap {A} (x : list A) (i j : nat) : list A :=
  match nth_error x i, nth_error x j with
  | Some a, Some b => set_item (set_item x i b) j a
  | _, _ => x
  end.

(** [s in keys] for a list of key names. *)
Definition key_in (k : string) (keys : list string) : bool :=
  existsb (String.eqb k) keys.

(** [s.startswith(p)] and [s.endswith(p)] *)
Definition startswith (p s : string) : bool := String.prefix p s.

Definition endswith (p s : string) : bool :=
  (String.length p <=? String.length s)%nat
  && String.eqb (substring (String.length s - String.length p) (String.length p) s) p.

(** [s[a:-b]]: from position [a] up to [b] characters before the end;
    empty when the two bounds cross. *)
Definition slice_to_neg (a b : nat) (s : string) : string :=
  substring a (String.length s - b - a) s.

(** [ord] and [chr] on the 8-bit characters of the model. *)
Definition ord (c : ascii) : Z := Z.of_nat (nat_of_ascii c).
Definition chr (z : Z) : ascii := ascii_of_nat (Z.to_nat z).

(** [c.isalpha()] for a character below U+0100: the letters of ASCII,
    the two ordinal indicators, the micro sign, and the letters of
    Latin-1, which leave out the multiplication and the division sign. *)
Definition isalpha (c : ascii) : bool :=
  let n := ord c in
  ((65 <=? n) && (n <=? 90) || (97 <=? n) && (n <=? 122)
   || (n =? 170) || (n =? 181) || (n =? 186)
   || (192 <=? n) && (n <=? 214) || (216 <=? n) && (n <=? 246)
   || (248 <=? n) && (n <=? 255))%Z.

(** [c.lower()] for a character below U+0100: one character, 32 places
    up for the capital letters of ASCII and of Latin-1. *)
Definition lower (c : ascii) : ascii :=
  let n := ord c in
  if ((65 <=? n) && (n <=? 90) || (192 <=? n) && (n <=? 214)
      || (216 <=? n) && (n <=? 222))%Z
  then chr (n + 32) else c.

(** [max] of a non-empty list of integers. *)
Definition max_list (d : Z) (l : list Z) : Z := fold_left Z.max l d.

(** [os.path.join] of a directory and one component (POSIX flavour). *)
Definition os_path_join (a b : string) : string :=
  if startswith "/" b then b
  else if String.eqb a "" || endswith "/" a then a +++ b
  else a +++ "/" +++ b.

(** [sub in s] for strings. *)
Fixpoint contains (sub s : string) : bool :=
  String.prefix sub s
  || match s with
     | EmptyString => false
     | String _ r => contains sub r
     end.

(** *** [float]: IEEE 754 binary64 *)

Definition float : Type := spec_float.

Definition float_of_int (z : Z) : float := binary_normalize 53 1024 z 0 false.

(** [x + y] and [x / y] on floats. *)
Definition float_add (x y : float) : float := SFadd 53 1024 x y.
Definition float_div (x y : float) : float := SFdiv 53 1024 x y.

(** The number a float stands for; an infinity and a NaN stand for none. *)
Definition float_number (x : float) : option Q :=
  match x with
  | S754_zero _ => Some 0%Q
  | S754_finite s m e =>
      Some ((if s then - inject_Z (Z.pos m) else inject_Z (Z.pos m)) * 2 ^ e)%Q
  | S754_infinity _ | S754_nan => None
  end.

Definition number (x : float) : Q :=
  match float_number x with
  | Some q => q
  | None => 0%Q
  end.

(** [z <= x] and [x <= z] for an integer and a float: the comparison of
    the two numbers, false of a NaN. *)
Definition int_le_float (z : Z) (x : float) : bool :=
  match x with
  | S754_nan => false
  | S754_infinity s => negb s
  | _ => Qle_bool (inject_Z z) (number x)
  end.

Definition float_le_int (x : float) (z : Z) : bool :=
  match x with
  | S754_nan => false
  | S754_infinity s => s
  | _ => Qle_bool (number x) (inject_Z z)
  end.

(** [round(x)] with one argument: the nearest integer, the even one of
    the two when [x] lies half-way. *)
Definition round (x : Q) : Z :=
  let f := Qfloor x in
  match (x - inject_Z f ?= 1 # 2)%Q with
  | Lt => f
  | Gt => (f + 1)%Z
  | Eq => if Z.even f then f else (f + 1)%Z
  end.

End Py.
Import Py.

(** ** The outside world *)

(** What one iteration of a polling loop observes. *)
Record tick := Tick {
  keys : list string;       (* [event.getKeys()] *)
  keys_again : list string; (* a second [event.getKeys()] in the same iteration *)
  clock : Q;                (* [countdown_clock.getTime()] *)
  mouse_x : float;          (* first component of [mouse.getPos()] *)
  over_1 : bool;            (* [contains(pos)] of the first button rectangle *)
  over_2 : bool;            (* [contains(pos)] of the second button rectangle *)
  left_button : bool;       (* [mouse.getPressed()[0]] *)
  pressed_in : bool;        (* [mouse.isPressedIn(button)] *)
  slider_moves_to : option Q
    (* the rating [slider.draw()] moves the marker to: a slider answers
       the mouse when it is drawn, and with the button down on it puts
       its marker under the pointer *)
}.

(** One cell of a log row or one piece of a serial message, before
    [str] is applied to it. *)
Inductive field :=
| FStr (s : string)
| FInt (z : Z)
| FNum (q : Q).

Definition row := list field.

Inductive event :=
| Makedirs (dir : string)                (* [os.makedirs(dir, exist_ok=True)] *)
| Show (what : string)                   (* a text or image stimulus put on screen,
                                            outside the polling loops *)
| Wait (seconds : Q)                     (* [core.wait] *)
| Sleep (ms : Z)                         (* [sd.sleep] with no stream open *)
| Serial (msg : list field)              (* [ser.write] of the concatenation *)
| Live (ms : Z)                          (* loopback stream kept open for [ms] *)
| Play (file : string)                   (* [wavfile.read], [sd.play], [sd.wait] *)
| Record_start (frames : Z)              (* [sd.playrec] of silence *)
| Record_wait                            (* [sd.wait] on the running capture *)
| Save (file : string)                   (* [scipy.io.wavfile.write] *)
| Append (file : string) (r : row).      (* one row appended to a tsv file *)

Record state := State {
  ticks : list tick;   (* observations still to come *)
  draws : nat -> N;    (* raw output of the random generator *)
  cursor : nat         (* number of draws already taken *)
}.

Inductive stop :=
| Quit                   (* [core.quit()] *)
| Blocked                (* a loop waits and the oracle has nothing left *)
| Crash (exn : string).  (* uncaught exception *)

Inductive outcome (A : Type) :=
| Done (a : A)
| Stop (why : stop).
Arguments Done {A} a.
Arguments Stop {A} why.

(** ** The monad of the embedding: state, event output, early stop *)

Definition M (A : Type) : Type := state -> outcome A * list event * state.

Definition ret {A} (a : A) : M A := fun s => (Done a, [], s).

Definition bind {A B} (m : M A) (f : A -> M B) : M B := fun s =>
  match m s with
  | (Done a, e1, s1) => let '(o, e2, s2) := f a s1 in (o, e1 ++ e2, s2)
  | (Stop why, e1, s1) => (Stop why, e1, s1)
  end.

Notation "x <- m ;; k" := (bind m (fun x => k))
  (at level 61, m at next level, right associativity).
Notation "' pat <- m ;; k" := (bind m (fun x => let 'pat := x in k))
  (at level 61, pat pattern, m at next level, right associativity).
Notation "m ;;; k" := (bind m (fun _ => k))
  (at level 61, right associativity).

Definition halt {A} (why : stop) : M A := fun s => (Stop why, [], s).

Definition emit (e : event) : M unit := fun s => (Done tt, [e], s).

Definition when (b : bool) (m : M unit) : M unit := if b then m else ret tt.

(** The next observation; nothing left means the loop never gets past
    this point. *)
Definition next_tick : M tick := fun s =>
  match ticks s with
  | [] => (Stop Blocked, [], s)
  | t :: r => (Done t, [], State r (draws s) (cursor s))
  end.

(** Every loop iteration consumes one tick, so the number of ticks left
    bounds the number of iterations a loop can make. *)
Definition ticks_left : M nat := fun s => (Done (List.length (ticks s)), [], s).

Definition raw_draw : M N := fun s =>
  (Done (draws s (cursor s)), [], State (ticks s) (draws s) (S (cursor s))).

(** ** [random] *)

Module Random.

(** [randbelow(n)]: a value in [0, n). *)
Definition randbelow (n : nat) : M nat :=
  d <- raw_draw ;; ret (N.to_nat (d mod N.of_nat n)).

(** [random()]: a 53-bit integer over 2^53. *)
Definition random : M Q :=
  d <- raw_draw ;; ret (Qmake (Z.of_N (d mod 2 ^ 53)) (2 ^ 53)).

(** [uniform(a, b)] is [a + (b - a) * random()]. *)
Definition uniform (a b : Q) : M Q :=
  u <- random ;; ret (a + (b - a) * u)%Q.

(** [shuffle(x)]: for [i] from [len(x) - 1] down to [1], exchange
    [x[i]] with [x[randbelow(i + 1)]]. *)
Fixpoint shuffle_down {A} (i : nat) (x : list A) : M (list A) :=
  match i with
  | O => ret x
  | S i' => j <- randbelow (S i) ;; shuffle_down i' (swap x i j)
  end.

Definition shuffle {A} (x : list A) : M (list A) :=
  shuffle_down (List.length x - 1) x.

End Random.

(** ** [psychopy.visual.Slider], as far as the program relies on it

    The two sliders of the program are built with [granularity=1] and
    with ticks that run from 0 to 100. *)

Module Slider.

(** [slider.markerPos = rating]: the slider keeps
    [round(rating / granularity) * granularity], brought back between
    its first and its last tick. *)
Definition set_markerPos (rating : Q) : Q :=
  let rating := (round (rating / 1) * 1)%Z in
  let rating := Z.max rating 0 in
  let rating := Z.min rating 100 in
  inject_Z rating.

(** [slider.draw()] as to the marker. *)
Definition draw (markerPos : Q) (t : tick) : Q :=
  match slider_moves_to t with
  | Some rating => set_markerPos rating
  | None => markerPos
  end.

End Slider.

(** ** [rumble_recognition_functions.py] *)

Module Functions.

Definition Qlt_bool (x y : Q) : bool := negb (Qle_bool y x).

(** [seq[i]] with Python's negative indices and its [IndexError]. *)
Definition item {A} (l : list A) (i : Z) : M A :=
  let n := Z.of_nat (List.length l) in
  let k := if (i <? 0)%Z then (n + i)%Z else i in
  if ((0 <=? k) && (k <? n))%Z then
    match nth_error l (Z.to_nat k) with
    | Some a => ret a
    | None => halt (Crash "IndexError")
    end
  else halt (Crash "IndexError").

(** *** [play_sound_on_click] *)
Fixpoint play_sound_on_click_loop (fuel : nat) (sound_file : string) : M unit :=
  match fuel with
  | O => halt Blocked
  | S n =>
      t <- next_tick ;;
      when (pressed_in t) (emit (Play sound_file)) ;;;
      if key_in "return" (keys t) then ret tt
      else if key_in "escape" (keys t) then halt Quit
      else play_sound_on_click_loop n sound_file
  end.

Definition play_sound_on_click (sound_file : string) : M unit :=
  n <- ticks_left ;; play_sound_on_click_loop n sound_file.

(** *** [wait_for_key_press] *)
Fixpoint wait_for_key_press_loop (fuel : nat) : M unit :=
  match fuel with
  | O => halt Blocked
  | S n =>
      t <- next_tick ;;
      if key_in "return" (keys t) then ret tt
      else if key_in "escape" (keys t) then halt Quit
      else wait_for_key_press_loop n
  end.

Definition wait_for_key_press : M unit :=
  n <- ticks_left ;; wait_for_key_press_loop n.

(** *** [show_instructions]

    The page is drawn again at every iteration, which, as for every
    polling loop, is not recorded: the loop produces no event. *)
Inductive direction := previous | next.

Fixpoint show_instructions_loop (fuel : nat) : M direction :=
  match fuel with
  | O => halt Blocked
  | S n =>
      t <- next_tick ;;
      if key_in "escape" (keys t) then halt Quit
      else if key_in "left" (keys t) then ret previous
      else if key_in "return" (keys t) then ret next
      else show_instructions_loop n
  end.

Definition show_instructions : M direction :=
  n <- ticks_left ;; show_instructions_loop n.

(** *** [show_instructions_list]: [pages] is [len(instructions_list)].
    Each page returns only after consuming a tick, so the ticks left at
    entry bound the number of pages shown. *)
Fixpoint show_instructions_list_loop (fuel : nat) (pages index : nat) : M unit :=
  if (index <? pages)%nat then
    match fuel with
    | O => halt Blocked
    | S n =>
        result <- show_instructions ;;
        match result with
        | next => show_instructions_list_loop n pages (index + 1)
        | previous =>
            if (0 <? index)%nat
            then show_instructions_list_loop n pages (index - 1)
            else show_instructions_list_loop n pages index
        end
    end
  else ret tt.

Definition show_instructions_list (pages : nat) : M unit :=
  n <- ticks_left ;; show_instructions_list_loop n pages 0.

(** *** [get_confidence_mouse] *)

(** [(mouse_x + 300) / 6]: the pointer position mapped onto the scale. *)
Definition slider_value (mouse_x : float) : float :=
  float_div (float_add mouse_x (float_of_int 300)) (float_of_int 6).

(** [0 <= slider_value <= 100] *)
Definition in_bounds (v : float) : bool := int_le_float 0 v && float_le_int v 100.

(** "Update the slider marker position with mouse movement" *)
Definition follow (marker : Q) (t : tick) : Q :=
  let v := slider_value (mouse_x t) in
  if in_bounds v then Slider.set_markerPos (number v) else marker.

(** The marker after one iteration that did not confirm: the slider is
    drawn, then the marker follows the pointer. *)
Definition track (marker : Q) (t : tick) : Q := follow (Slider.draw marker t) t.

Fixpoint confidence_loop (fuel : nat) (marker : Q) : M Q :=
  match fuel with
  | O => halt Blocked
  | S n =>
      t <- next_tick ;;
      let marker := Slider.draw marker t in
      if key_in "escape" (keys t) then halt Quit
      else if left_button t then emit (Wait 1) ;;; ret marker
      else confidence_loop n (follow marker t)
  end.

Definition get_confidence_mouse : M Q :=
  initial_position <- Random.uniform 20 80 ;;
  let marker := Slider.set_markerPos initial_position in
  n <- ticks_left ;;
  confidence_loop n marker.

(** *** The countdown of [run_instructions_calibration]: runs while the
    clock reads less than [limit], and polls the cancel key. *)
Fixpoint countdown_loop (fuel : nat) (limit : Q) : M unit :=
  match fuel with
  | O => halt Blocked
  | S n =>
      t <- next_tick ;;
      if Qlt_bool (clock t) limit then
        emit (Wait 0.5) ;;;
        if key_in "escape" (keys t) then halt Quit
        else countdown_loop n limit
      else ret tt
  end.

Definition countdown (limit : Q) : M unit :=
  n <- ticks_left ;; countdown_loop n limit.

(** *** [run_instructions_calibration] *)
Definition run_instructions_calibration
    (fs duration : Z) (gastric_sound_dir : string)
    (is_integrated_external if_debug : bool) : M unit :=
  emit (Makedirs gastric_sound_dir) ;;;
  when is_integrated_external
    (emit (Serial [FStr "RECORDING_0;"]) ;;;
     emit (Serial [FStr "INSTRUCTIONS;"])) ;;;
  show_instructions_list 4 ;;;
  let chunk_duration := duration in
  (* recording #1 *)
  emit (Record_start (chunk_duration * fs)) ;;;
  countdown (inject_Z chunk_duration) ;;;
  emit Record_wait ;;;
  emit (Save (os_path_join gastric_sound_dir "gastric_rec_training.wav")) ;;;
  (* recording #2 *)
  emit (Record_start (chunk_duration * fs)) ;;;
  countdown (inject_Z chunk_duration) ;;;
  emit Record_wait ;;;
  emit (Save (os_path_join gastric_sound_dir "gastric_rec_0.wav")).

(** *** The two stimuli of a trial *)

(** The live sound: caption, fixation, loopback for [duration] seconds. *)
Definition present_live (caption : string) (duration : Z)
    (is_integrated_external if_debug : bool) : M unit :=
  when if_debug (emit (Show "Play live")) ;;;
  emit (Show caption) ;;;
  emit (Wait 2) ;;;
  emit (Show "+") ;;;
  when is_integrated_external (emit (Serial [FStr "LIVE START;"])) ;;;
  emit (Live (duration * 1000)) ;;;
  emit (Sleep 10) ;;;
  when is_integrated_external (emit (Serial [FStr "LIVE END;"])).

(** The pre-recorded sound: caption, fixation, playback of the file.
    [debug_caption] differs by a trailing blank between the two places
    it is written; [announce] is whether [REC START;] is sent. *)
Definition present_recorded (caption debug_caption sound_file_play : string)
    (announce is_integrated_external if_debug : bool) : M unit :=
  when if_debug (emit (Show debug_caption)) ;;;
  emit (Show caption) ;;;
  emit (Wait 2) ;;;
  when (announce && is_integrated_external) (emit (Serial [FStr "REC START;"])) ;;;
  emit (Show "+") ;;;
  emit (Play sound_file_play) ;;;
  when is_integrated_external (emit (Serial [FStr "REC END;"])).

(** *** The forced choice *)

Definition buttons : list string := ["Sound 1"; "Sound 2"].

(** [for i, clicked in enumerate(buttons_clicked): if clicked: ... break] *)
Fixpoint first_true (i : nat) (l : list bool) : option nat :=
  match l with
  | [] => None
  | true :: _ => Some i
  | false :: r => first_true (S i) r
  end.

Definition selected_button_index (t : tick) : option nat :=
  first_true 0 [over_1 t; over_2 t].

(** [if mouse.getPressed()[0]: if selected_button_index is not None:
    response = selected_button_index] *)
Definition click (t : tick) : option nat :=
  if left_button t then selected_button_index t else None.

(** In [run_training] the cancel key is looked at before the click. *)
Fixpoint training_choice_loop (fuel : nat) : M nat :=
  match fuel with
  | O => halt Blocked
  | S n =>
      t <- next_tick ;;
      if key_in "escape" (keys t) then halt Quit
      else match click t with
           | Some response => ret response
           | None => training_choice_loop n
           end
  end.

(** In [run_discrimination_trial] the click is looked at first, and the
    cancel key still ends the process in the same iteration. *)
Fixpoint trial_choice_loop (fuel : nat) : M nat :=
  match fuel with
  | O => halt Blocked
  | S n =>
      t <- next_tick ;;
      let response := click t in
      if key_in "escape" (keys t) then halt Quit
      else match response with
           | Some response => ret response
           | None => trial_choice_loop n
           end
  end.

(** [response_code = [1, 2][response]] *)
Definition response_code_of (response : nat) : M Z :=
  item [1; 2]%Z (Z.of_nat response).

Definition responses_message (button : string) (response_code : Z) (confidence : Q)
  : list field :=
  [FStr ("RESPONSES: " +++ button +++ "_" +++ str response_code +++ "_");
   FNum confidence; FStr ";"].

(** *** [run_training] *)

Definition question_text : string := "Which sound was the livestream of your stomach?".

(** "Draw the question and buttons" *)
Definition show_question : M unit :=
  emit (Show question_text) ;;;
  emit (Show "Sound 1") ;;;
  emit (Show "Sound 2").

(** From "Define the buttons" to the end of [run_training]. *)
Definition training_response (is_integrated_external : bool) : M (string * Z * Q) :=
  show_question ;;;
  n <- ticks_left ;;
  response <- training_choice_loop n ;;
  response_code <- response_code_of response ;;
  confidence <- get_confidence_mouse ;;
  emit (Show "Calibrating...") ;;;
  emit (Wait 2) ;;;
  button <- item buttons (Z.of_nat response) ;;
  when is_integrated_external
    (emit (Serial (responses_message button response_code confidence))) ;;;
  ret (button, response_code, confidence).

Definition run_training (duration : Z) (sound_file_play : string)
    (is_integrated_external if_debug : bool) : M (string * Z * Q) :=
  emit (Show "../tasks_helpers/gut_icon.png") ;;;
  emit (Wait 0.5) ;;;
  present_live "Sound 1" duration is_integrated_external if_debug ;;;
  emit (Wait 2) ;;;
  present_recorded "Sound 2" "Play pre-recorded " sound_file_play
    false is_integrated_external if_debug ;;;
  training_response is_integrated_external.

(** *** [run_discrimination_trial] *)

(** The branch on [participant_loc]. *)
Definition present_pair (duration participant_loc : Z) (sound_file_play : string)
    (is_integrated_external if_debug : bool) : M unit :=
  if (participant_loc =? 1)%Z then
    present_live "Sound 1" duration is_integrated_external if_debug ;;;
    emit (Wait 2) ;;;
    present_recorded "Sound 2" "Play pre-recorded " sound_file_play
      true is_integrated_external if_debug
  else
    present_recorded "Sound 1" "Play pre-recorded" sound_file_play
      true is_integrated_external if_debug ;;;
    emit (Wait 2) ;;;
    present_live "Sound 2" duration is_integrated_external if_debug.

(** From "START RECORDING AUDIO FOR NEXT TRIAL" to the end of
    [run_discrimination_trial]: the capture for the next trial runs
    while the responses are collected, and is saved afterwards. *)
Definition record_and_respond (fs duration trial_num : Z) (gastric_sound_dir : string)
    (is_integrated_external : bool) : M (string * Z * Q) :=
  when is_integrated_external
    (emit (Serial [FStr ("RECORDING_" +++ str (trial_num + 1) +++ ";")]) ;;;
     emit (Serial [FStr "QUESTION;"])) ;;;
  let sound_file_rec :=
    os_path_join gastric_sound_dir ("gastric_rec_" +++ str (trial_num + 1) +++ ".wav") in
  emit (Record_start (duration * fs)) ;;;
  show_question ;;;
  n <- ticks_left ;;
  response <- trial_choice_loop n ;;
  response_code <- response_code_of response ;;
  confidence <- get_confidence_mouse ;;
  emit (Show "Calibrating...") ;;;
  emit Record_wait ;;;
  emit (Save sound_file_rec) ;;;
  emit (Wait 0.5) ;;;
  button <- item buttons (Z.of_nat response) ;;
  when is_integrated_external
    (emit (Serial (responses_message button response_code confidence))) ;;;
  ret (button, response_code, confidence).

Definition run_discrimination_trial
    (fs duration trial_num participant_loc : Z)
    (gastric_sound_dir sound_file_play : string)
    (is_integrated_external if_debug : bool) : M (string * Z * Q) :=
  emit (Show "../tasks_helpers/gut_icon.png") ;;;
  emit (Wait 0.5) ;;;
  present_pair duration participant_loc sound_file_play
    is_integrated_external if_debug ;;;
  record_and_respond fs duration trial_num gastric_sound_dir is_integrated_external.

(** *** [get_post_task_qs] *)

Record question := Question {
  q_label : string;
  q_text : string;
  q_scale : list string
}.

(** One question's polling loop.  [response] is a cell: the marker
    position with the pointer, [0] or [len(scale) - 1] with the keys. *)
Fixpoint question_loop (fuel : nat) (use_mouse : bool) (scale : list string)
    (marker : Q) : M field :=
  match fuel with
  | O => halt Blocked
  | S n =>
      t <- next_tick ;;
      let marker := Slider.draw marker t in
      if key_in "escape" (keys t) then halt Quit
      else if use_mouse then
        if left_button t then emit (Wait 1) ;;; ret (FNum marker)
        else question_loop n use_mouse scale (follow marker t)
      else
        if key_in "left" (keys_again t) then
          emit (Wait 1) ;;; ret (FInt 0)
        else if key_in "right" (keys_again t) then
          emit (Wait 1) ;;; ret (FInt (Z.of_nat (List.length scale) - 1))
        else question_loop n use_mouse scale marker
  end.

Fixpoint get_post_task_qs (csv_file_name : string) (questions : list question)
    (is_integrated_external use_mouse : bool) : M unit :=
  match questions with
  | [] => ret tt
  | q :: rest =>
      initial_position <- Random.uniform 20 80 ;;
      let marker := Slider.set_markerPos initial_position in
      n <- ticks_left ;;
      response <- question_loop n use_mouse (q_scale q) marker ;;
      emit (Append csv_file_name
              [FStr "Question"; FStr (q_label q); response; FStr "NA"; FStr "NA"]) ;;;
      get_post_task_qs csv_file_name rest is_integrated_external use_mouse
  end.

End Functions.

(** ** [rumble_recognition.py] *)

Module Main.
Import Functions.

(** *** The save directory as the program sees it *)

(** A flat file system: the entries of each directory. *)
Definition filesystem := list (string * string).

Definition os_listdir (fs : filesystem) (dir : string) : list string :=
  map snd (filter (fun e => String.eqb (fst e) dir) fs).

Definition os_path_exists (fs : filesystem) (path : string) : bool :=
  existsb (fun e => String.eqb (os_path_join (fst e) (snd e)) path) fs.

(** *** Name of the session log *)

(** The loop over [existing_files] that fills [indices]. *)
Fixpoint suffix_indices (base_name : string) (existing_files : list string) : list Z :=
  match existing_files with
  | [] => []
  | file :: rest =>
      if String.eqb file (base_name +++ ".tsv") then suffix_indices base_name rest
      else if startswith (base_name +++ "_") file && endswith ".tsv" file then
        let suffix := slice_to_neg (String.length base_name + 1) 4 file in
        match suffix with
        | String c EmptyString =>
            if isalpha c
            then (ord (lower c) - ord "a"%char)%Z :: suffix_indices base_name rest
            else suffix_indices base_name rest
        | _ => suffix_indices base_name rest
        end
      else suffix_indices base_name rest
  end.

Definition log_file_name (fs : filesystem) (save_dir participant_id : string) : string :=
  let base_name := "sub-" +++ participant_id +++ "_rumble_recognition" in
  let base_path := os_path_join save_dir base_name in
  if os_path_exists fs (base_path +++ ".tsv") then
    let existing_files := filter (startswith base_name) (os_listdir fs save_dir) in
    let indices := suffix_indices base_name existing_files in
    let next_index :=
      match indices with
      | [] => 0
      | i :: r => max_list i r + 1
      end%Z in
    let next_suffix := String (chr (ord "a"%char + next_index)) EmptyString in
    os_path_join save_dir (base_name +++ "_" +++ next_suffix +++ ".tsv")
  else
    os_path_join save_dir (base_name +++ ".tsv").

(** *** The search for the stethoscope among the audio devices *)

(** The two entries of a device description the program reads. *)
Record device := Device {
  name : string;
  default_low_input_latency : Q
}.

Definition target_device_name : string := "Stethoscope (USB Audio Device)".

(** [for i, device in enumerate(devices): if ...: input_device_id = i; break] *)
Fixpoint find_input_device (i : nat) (devices : list device) : option nat :=
  match devices with
  | [] => None
  | device :: rest =>
      if contains target_device_name (name device)
         && Qlt_bool (default_low_input_latency device) 0.01
      then Some i
      else find_input_device (S i) rest
  end.

(** [input_device_id] after the loop; [None] is Python's [None]. *)
Definition input_device_id (devices : list device) : option nat :=
  find_input_device 0 devices.

(** *** The stimulus-order plan *)

Definition trials : Z := 30.
Definition half_trials_per_set : Z := 5.

(** [[1] * half_trials_per_set + [2] * half_trials_per_set] *)
Definition fresh_set_of_10 : list Z :=
  repeat 1%Z (Z.to_nat half_trials_per_set) ++ repeat 2%Z (Z.to_nat half_trials_per_set).

(** [for _ in range(n): ... random.shuffle(set_of_10); stim_order.extend(set_of_10)] *)
Fixpoint extend_stim_order (n : nat) (stim_order : list Z) : M (list Z) :=
  match n with
  | O => ret stim_order
  | S n' =>
      set_of_10 <- Random.shuffle fresh_set_of_10 ;;
      extend_stim_order n' (stim_order ++ set_of_10)
  end.

(** The loop runs [range(trials // 3)]. *)
Definition make_stim_order : M (list Z) :=
  extend_stim_order (Z.to_nat (trials / 3)) [].

(** *** The dietary condition of a trial *)
Definition condition (t : Z) : string :=
  if (t <? 9)%Z then "Fasted"
  else if ((9 <=? t) && (t <? 19))%Z then "Post_Drink_1"
  else "Post_Drink_2".

(** *** The questionnaires *)
Definition newline : string := String (ascii_of_nat 10) EmptyString.

Definition state_questions (n : string) : list question :=
  [Question ("Hunger" +++ n) "I am" ["Not at all hungry"; "Very hungry"];
   Question ("Thirst" +++ n +++ " ") "I feel" ["Not at all thirsty"; "Very thirsty"];
   Question ("Nausea" +++ n) "I feel" ["Not at all nauseous"; "Very nauseous"];
   Question ("Disgust" +++ n +++ " ") "I feel" ["Not at all disgusted"; "Very disgusted"]].

Definition closing_questions : list question :=
  state_questions "4" ++
  [Question "TaskGeneral" "I find the task" ["Very unpleasant"; "Very pleasant"];
   Question "Difficulty" "I find the task" ["Very easy"; "Very hard"];
   Question "Gut_Norm " "Usually my stomach"
     ["Is still/" +++ newline +++ "Quiet"; "Moves a lot/" +++ newline +++ "Is noisy"];
   Question "Drink1_Like " "Drink 1 was" ["Very unpleasant"; "Very pleasant"];
   Question "Drink2_Like " "Drink 2 was" ["Very unpleasant"; "Very pleasant"]].

(** *** The three-second countdown before the first trial: no key is
    polled here. *)
Fixpoint start_countdown_loop (fuel : nat) : M unit :=
  match fuel with
  | O => halt Blocked
  | S n =>
      t <- next_tick ;;
      if Qlt_bool (clock t) 3 then emit (Wait 0.5) ;;; start_countdown_loop n
      else ret tt
  end.

Definition start_countdown : M unit :=
  n <- ticks_left ;; start_countdown_loop n.

(** *** The main block: [for t in range(0, trials)] with its [break] *)
Fixpoint trial_loop (ts : list Z) (stim_order : list Z) (fs duration : Z)
    (csv_file_name gastric_sound_dir : string)
    (is_integrated_external if_debug : bool) : M unit :=
  match ts with
  | [] => ret tt
  | t :: rest =>
      when is_integrated_external
        (emit (Serial [FStr ("TRIAL_" +++ str t +++ "-COND_" +++ condition t +++ ";")])) ;;;
      let sound_file_play :=
        os_path_join gastric_sound_dir ("gastric_rec_" +++ str t +++ ".wav") in
      participant_loc <- item stim_order t ;;
      '(button, response_code, confidence) <-
        run_discrimination_trial fs duration t participant_loc
          gastric_sound_dir sound_file_play is_integrated_external if_debug ;;
      emit (Append csv_file_name
              [FInt t; FInt participant_loc; FStr button;
               FInt response_code; FNum confidence]) ;;;
      when (t =? 9)%Z
        (get_post_task_qs csv_file_name (state_questions "2")
           is_integrated_external true ;;;
         wait_for_key_press) ;;;
      when (t =? 19)%Z
        (get_post_task_qs csv_file_name (state_questions "3")
           is_integrated_external true ;;;
         wait_for_key_press) ;;;
      if (t =? 29)%Z then
        get_post_task_qs csv_file_name closing_questions
          is_integrated_external true ;;;
        emit (Show "Task Complete") ;;;
        emit (Wait 2)
      else
        trial_loop rest stim_order fs duration csv_file_name gastric_sound_dir
          is_integrated_external if_debug
  end.

(** *** [run_gastric_stethoscope_self]

    The participant identifier and the two directories come from the
    configuration document or from the stand-alone defaults; [files] is
    the file system as the session finds it. *)
Definition run_gastric_stethoscope_self
    (files : filesystem) (participant_id sound_dir save_dir : string)
    (is_integrated_external if_debug : bool) : M unit :=
  when is_integrated_external (emit (Serial [FStr "START TASK;"])) ;;;
  let csv_file_name := log_file_name files save_dir participant_id in
  emit (Append csv_file_name [FStr "Participant ID"; FStr participant_id]) ;;;
  emit (Append csv_file_name
          [FStr "Trial"; FStr "Participant_Sound_Loc"; FStr "Button";
           FStr "Response_code"; FStr "Confidence"]) ;;;
  let fs := 48000%Z in
  let duration := 15%Z in
  let gastric_sound_dir := os_path_join sound_dir "gastric_sounds" in
  emit (Makedirs gastric_sound_dir) ;;;
  play_sound_on_click "../task_helpers/chimes.wav" ;;;
  run_instructions_calibration fs duration gastric_sound_dir
    is_integrated_external if_debug ;;;
  wait_for_key_press ;;;
  play_sound_on_click "../task_helpers/chimes.wav" ;;;
  wait_for_key_press ;;;
  (* training trial *)
  let sound_file_play := os_path_join gastric_sound_dir "gastric_rec_training.wav" in
  '(button, response_code, confidence) <-
    run_training duration sound_file_play is_integrated_external if_debug ;;
  emit (Append csv_file_name
          [FStr "Training"; FStr "1"; FStr button;
           FInt response_code; FNum confidence]) ;;;
  wait_for_key_press ;;;
  emit (Wait 0.5) ;;;
  get_post_task_qs csv_file_name (state_questions "1") is_integrated_external true ;;;
  start_countdown ;;;
  stim_order <- make_stim_order ;;
  trial_loop (range 0 trials) stim_order fs duration csv_file_name gastric_sound_dir
    is_integrated_external if_debug ;;;
  when is_integrated_external (emit (Serial [FStr "END TASK;"])).

End Main.

(** ** Vocabulary of the statements *)

Import Functions Main.

(** What a computation does from every state: [Q] on a normal return,
    [E] on a stop, both over the events it produced. *)
Definition yields {A} (m : M A)
    (Q : A -> list event -> Prop) (E : stop -> list event -> Prop) : Prop :=
  forall s, match m s with
            | (Done a, evs, _) => Q a evs
            | (Stop why, evs, _) => E why evs
            end.

(** A computation that touches nothing but the random generator. *)
Definition silent {A} (m : M A) (Q : A -> Prop) : Prop :=
  forall s, exists a s', m s = (Done a, [], s') /\ Q a.

(** The events that reach the participant's ears or the disk. *)
Definition is_notable (e : event) : bool :=
  match e with
  | Live _ | Play _ | Save _ | Append _ _ => true
  | _ => false
  end.

Definition digest (evs : list event) : list event := filter is_notable evs.

(** The sounds presented to the participant, in order. *)
Definition is_sound (e : event) : bool :=
  match e with
  | Live _ | Play _ => true
  | _ => false
  end.

Definition sounds (evs : list event) : list event := filter is_sound evs.

(** The audio files read and written, in order. *)
Definition is_audio_file_access (e : event) : bool :=
  match e with
  | Play _ | Save _ => true
  | _ => false
  end.

Definition audio_file_accesses (evs : list event) : list event :=
  filter is_audio_file_access evs.

(** The audio files written, in order. *)
Definition saved (evs : list event) : list string :=
  flat_map (fun e => match e with Save f => [f] | _ => [] end) evs.

(** The rows appended to tsv files, in order, each with its file. *)
Definition appended (evs : list event) : list (string * row) :=
  flat_map (fun e => match e with Append f r => [(f, r)] | _ => [] end) evs.

Definition no_crash (why : stop) : Prop := why = Quit \/ why = Blocked.

(** The position the participant selects: the button under the pointer at
    the first click that lands on one. *)
Fixpoint selected_position (ts : list tick) : option nat :=
  match ts with
  | [] => None
  | t :: r =>
      match click t with
      | Some p => Some p
      | None => selected_position r
      end
  end.

(** The text a cell of the log holds once written. *)
Definition cell_text (c : field) : option string :=
  match c with
  | FStr s => Some s
  | FInt z => Some (str z)
  | FNum _ => None
  end.

Definition in_0_100 (q : Q) : Prop := (0 <= q /\ q <= 100)%Q.

(** A float that stands for a number between 0 and 100. *)
Definition on_scale (v : float) : Prop :=
  exists q, float_number v = Some q /\ in_0_100 q.

Definition rating_cell (c : field) : Prop := exists q, c = FNum q /\ in_0_100 q.

Definition code_cell (c : field) : Prop :=
  cell_text c = Some "1" \/ cell_text c = Some "2".

Definition index_cell (c : field) : Prop :=
  c = FStr "Training" \/ exists t, (0 <= t <= 29)%Z /\ c = FInt t.

Definition button_cell (c : field) : Prop :=
  c = FStr "Sound 1" \/ c = FStr "Sound 2".

(** [<index-or-"Training">, <1|2>, <button label>, <1|2>, <0-100>] *)
Definition trial_row (r : row) : Prop :=
  exists a b c d e,
    r = [a; b; c; d; e]
    /\ index_cell a /\ code_cell b /\ button_cell c /\ code_cell d /\ rating_cell e.

(** [Question, <label>, <0-100>, NA, NA] *)
Definition question_row (r : row) : Prop :=
  exists label v,
    r = [FStr "Question"; FStr label; v; FStr "NA"; FStr "NA"] /\ rating_cell v.

(** The [for] loop of the main block stops at the first index 29. *)
Fixpoint through_29 (ts : list Z) : list Z :=
  match ts with
  | [] => []
  | t :: r => if (t =? 29)%Z then [t] else t :: through_29 r
  end.

(** What a trial hands back: the label and the code of the same button,
    and a confidence on the scale. *)
Definition answer_ok (r : string * Z * Q) : Prop :=
  let '(button, response_code, confidence) := r in
  ((button = "Sound 1" /\ response_code = 1%Z) \/ (button = "Sound 2" /\ response_code = 2%Z))
  /\ in_0_100 confidence.

(** A questionnaire answer written to [csv]. *)
Definition question_entry (csv : string) (e : event) : Prop :=
  exists r, e = Append csv r /\ question_row r.

(** The name under which the capture numbered [k] is stored. *)
Definition gastric_rec (dir : string) (k : Z) : string :=
  os_path_join dir ("gastric_rec_" +++ str k +++ ".wav").

(** The two sounds of a trial in the order the order-code asks for. *)
Definition pair_of_sounds (duration participant_loc : Z) (sound_file_play : string)
  : list event :=
  if (participant_loc =? 1)%Z
  then [Live (duration * 1000); Play sound_file_play]
  else [Play sound_file_play; Live (duration * 1000)].

(** A computation that neither reads the oracle nor stops. *)
Definition stateless {A} (m : M A) : Prop :=
  forall s, exists a evs, m s = (Done a, evs, s).

(** The button a position stands for, and its code. *)
Definition position_answer (p : nat) (button : string) (response_code : Z) : Prop :=
  (p = 0 /\ button = "Sound 1" /\ response_code = 1%Z)
  \/ (p = 1 /\ button = "Sound 2" /\ response_code = 2%Z).

(** *** A sample session, used to run the model *)

Definition idle : tick := Tick [] [] 0 (float_of_int 0) false false false false None.
Definition enter : tick :=
  Tick ["return"] [] 20 (float_of_int 0) false false false false None.
Definition late : tick := Tick [] [] 20 (float_of_int 0) false false false false None.
(** A click on the first ([false]) or second ([true]) button. *)
Definition pick (second : bool) : tick :=
  Tick [] [] 0 (float_of_int 0) (negb second) second true false None.
Definition point (x : Z) : tick :=
  Tick [] [] 0 (float_of_int x) false false false false None.
Definition confirm : tick := Tick [] [] 0 (float_of_int 0) false false true false None.

Definition answer (second : bool) (x : Z) : list tick := [pick second; point x; confirm].

Definition questionnaire (n : nat) : list tick :=
  List.concat (repeat [point 30; confirm] n).

Fixpoint ten_trials (n : nat) : list tick :=
  match n with
  | O => []
  | S k => answer (Nat.even k) (Z.of_nat k) ++ ten_trials k
  end.

Definition sample_ticks : list tick :=
  [enter] ++ repeat enter 4 ++ [late; late] ++ [enter; enter; enter]
  ++ answer false 12 ++ [enter] ++ questionnaire 4 ++ [late]
  ++ ten_trials 10 ++ questionnaire 4 ++ [enter]
  ++ ten_trials 10 ++ questionnaire 4 ++ [enter]
  ++ ten_trials 10 ++ questionnaire 9.

Definition sample_draws (n : nat) : N := N.of_nat (7 * n + 3).

Definition sample_state : state := State sample_ticks sample_draws 0.

Definition sample_files : filesystem :=
  [("/data", "sub-999_rumble_recognition.tsv");
   ("/data", "sub-999_rumble_recognition_a.tsv")].

Definition sample_session : outcome unit * list event * state :=
  run_gastric_stethoscope_self sample_files "999" "/phys" "/data" true false sample_state.

(** One trial's worth of input: a click on the second button, the pointer
    moved, the rating confirmed. *)
Definition sample_trial_state : state := State (answer true 12) sample_draws 0.

(** A computation that keeps [I] on what it has produced, however it
    ends, never raises, and satisfies [R] on a normal return. *)
Definition keeps {A} (I : list event -> Prop) (m : M A)
    (R : A -> list event -> Prop) : Prop :=
  yields m (fun a evs => I evs /\ R a evs) (fun why evs => I evs /\ no_crash why).

(** *** The session log *)

Definition header_rows (participant_id : string) : list row :=
  [[FStr "Participant ID"; FStr participant_id];
   [FStr "Trial"; FStr "Participant_Sound_Loc"; FStr "Button";
    FStr "Response_code"; FStr "Confidence"]].

(** A row after the header: in [csv], and a trial row or a question row. *)
Definition data_entry (csv : string) (fr : string * row) : Prop :=
  fst fr = csv /\ (trial_row (snd fr) \/ question_row (snd fr)).

Definition data_only (csv : string) (evs : list event) : Prop :=
  Forall (data_entry csv) (appended evs).

(** The layout of the log: the two header rows, then data rows only, all
    in the one file. *)
Definition log_layout (csv participant_id : string) (rows : list (string * row)) : Prop :=
  exists rest,
    rows = map (pair csv) (header_rows participant_id) ++ rest
    /\ Forall (data_entry csv) rest.

(** *** The audio files of a session *)

Definition chimes : string := "../task_helpers/chimes.wav".

Definition training_rec (dir : string) : string :=
  os_path_join dir "gastric_rec_training.wav".

(** Trial [t] plays capture [t] and stores capture [t + 1]. *)
Definition trial_audio (dir : string) (t : Z) : list event :=
  [Play (gastric_rec dir t); Save (gastric_rec dir (t + 1))].

(** The file accesses of a complete session; [a] and [b] count the clicks
    on the two sound-test buttons. *)
Definition session_audio (dir : string) (a b : nat) : list event :=
  repeat (Play chimes) a
  ++ [Save (training_rec dir); Save (gastric_rec dir 0)]
  ++ repeat (Play chimes) b
  ++ [Play (training_rec dir)]
  ++ flat_map (trial_audio dir) (range 0 30).

(** The assets C5 names: the training capture and captures 0 to 29. *)
Definition claimed_assets (dir : string) : list string :=
  training_rec dir :: map (gastric_rec dir) (range 0 30).

(** The assets a complete session writes: one capture more. *)
Definition written_assets (dir : string) : list string :=
  training_rec dir :: map (gastric_rec dir) (range 0 31).

(** *** Inputs under which the collectors return *)

Definition cancels (t : tick) : bool := key_in "escape" (keys t).

(** An iteration in which the participant neither cancels nor presses the
    button. *)
Definition moving (t : tick) : Prop := cancels t = false /\ left_button t = false.

(** An iteration in which the participant neither cancels nor clicks on
    one of the two buttons. *)
Definition undecided (t : tick) : Prop := cancels t = false /\ click t = None.


(** *** The log name *)

Definition base_name_of (participant_id : string) : string :=
  "sub-" +++ participant_id +++ "_rumble_recognition".

(** The name carrying the one-character suffix [c]. *)
Definition suffixed (base_name : string) (c : ascii) : string :=
  base_name +++ "_" +++ String c EmptyString +++ ".tsv".

(** The positions in the alphabet of the letter suffixes in use. *)
Definition letters_in_use (fs : filesystem) (save_dir participant_id : string) : list Z :=
  suffix_indices (base_name_of participant_id)
    (filter (startswith (base_name_of participant_id)) (os_listdir fs save_dir)).

Definition lowercase (c : ascii) : Prop := (97 <= ord c <= 122)%Z.


(** *** The serial line *)

(** The messages sent over the serial line, in order. *)
Definition serials (evs : list event) : list (list field) :=
  flat_map (fun e => match e with Serial m => [m] | _ => [] end) evs.

Definition message (s : string) : list field := [FStr s].

(** What is sent only with the external device attached. *)
Definition if_external (ext : bool) (ms : list (list field)) : list (list field) :=
  if ext then ms else [].

(** The messages around the two sounds of a trial. *)
Definition pair_messages (participant_loc : Z) : list (list field) :=
  if (participant_loc =? 1)%Z
  then [message "LIVE START;"; message "LIVE END;"; message "REC START;"; message "REC END;"]
  else [message "REC START;"; message "REC END;"; message "LIVE START;"; message "LIVE END;"].

(** The two messages sent when the capture for the next trial starts. *)
Definition recording_messages (trial_num : Z) : list (list field) :=
  [message ("RECORDING_" +++ str (trial_num + 1) +++ ";"); message "QUESTION;"].

(** A message of the body of the session, not one of the two around it. *)
Definition inner_message (m : list field) : Prop :=
  m <> message "START TASK;" /\ m <> message "END TASK;".

(** The serial line during the body of the session: silent without the
    device, inner messages only with it. *)
Definition inner_serial (ext : bool) (evs : list event) : Prop :=
  if ext then Forall inner_message (serials evs) else serials evs = [].

(** Events that are pauses. *)
Definition is_wait (e : event) : Prop := exists q, e = Wait q.


(** The message that reports what a trial returns. *)
Definition report (r : string * Z * Q) : list field :=
  let '(button, response_code, confidence) := r in
  responses_message button response_code confidence.


(** The serial line of a stretch of the session that runs to the end:
    inner messages, then the closing one. *)
Definition closing_serial (ext : bool) (evs : list event) : Prop :=
  exists mid,
    serials evs = if_external ext (mid ++ [message "END TASK;"])
    /\ Forall inner_message mid.


(** *** Captures *)

(** The steps of recording a capture: started, awaited, stored. *)
Definition is_capture_step (e : event) : bool :=
  match e with
  | Record_start _ | Record_wait | Save _ => true
  | _ => false
  end.

Definition capture_steps (evs : list event) : list event := filter is_capture_step evs.


(** *** Polls *)

(** A poll that sees the Enter key or the cancel key. *)
Definition decisive (t : tick) : bool :=
  key_in "return" (keys t) || key_in "escape" (keys t).

(** What a loop that ends on Enter and quits on the cancel key makes of
    a decisive poll: Enter is looked at first. *)
Definition decision (t : tick) : outcome unit :=
  if key_in "return" (keys t) then Done tt else Stop Quit.

(** A poll that sees the Enter key. *)
Definition confirms (t : tick) : bool := key_in "return" (keys t).

(** A poll that sees the Enter key and neither the cancel key nor the
    left arrow. *)
Definition advances (t : tick) : Prop :=
  key_in "escape" (keys t) = false
  /\ key_in "left" (keys t) = false
  /\ key_in "return" (keys t) = true.

(** A poll of a countdown that has not run out and is not cancelled. *)
Definition counting (limit : Q) (t : tick) : Prop :=
  Qlt_bool (clock t) limit = true /\ cancels t = false.

(** The state once the polls before [rest] have been consumed. *)
Definition polled (s : state) (rest : list tick) : state :=
  State rest (draws s) (cursor s).


(** *** The entries of the log *)

(** What a questionnaire may write as the answer to [q]: a rating when
    the pointer is used, one end of the scale when the keys are. *)
Definition answer_cell (use_mouse : bool) (q : question) (v : field) : Prop :=
  if use_mouse then rating_cell v
  else v = FInt 0 \/ v = FInt (Z.of_nat (List.length (q_scale q)) - 1).

(** The row [fr] is the answer to [q], written to [csv]. *)
Definition answers (csv : string) (use_mouse : bool) (q : question)
    (fr : string * row) : Prop :=
  fst fr = csv
  /\ exists v,
      snd fr = [FStr "Question"; FStr (q_label q); v; FStr "NA"; FStr "NA"]
      /\ answer_cell use_mouse q v.

(** What a row after the header is about. *)
Inductive entry :=
| Of_training
| Of_trial (t : Z)
| Of_question (q : question).

Definition is_entry (csv : string) (e : entry) (fr : string * row) : Prop :=
  match e with
  | Of_training =>
      fst fr = csv
      /\ exists b c q,
          snd fr = [FStr "Training"; FStr "1"; FStr b; FInt c; FNum q]
          /\ answer_ok (b, c, q)
  | Of_trial t =>
      fst fr = csv
      /\ exists loc b c q,
          snd fr = [FInt t; FInt loc; FStr b; FInt c; FNum q]
          /\ (loc = 1 \/ loc = 2)%Z /\ answer_ok (b, c, q)
  | Of_question q => answers csv true q fr
  end.

Definition asked (b : bool) (qs : list question) : list entry :=
  if b then map Of_question qs else [].

(** The entries of the main block run over the trial indices [ts]: each
    trial, the questionnaire after trials 9 and 19, and the closing
    questionnaire after trial 29, where the block ends. *)
Fixpoint loop_entries (ts : list Z) : list entry :=
  match ts with
  | [] => []
  | t :: rest =>
      Of_trial t
      :: asked (t =? 9)%Z (state_questions "2")
      ++ asked (t =? 19)%Z (state_questions "3")
      ++ (if (t =? 29)%Z then map Of_question closing_questions else loop_entries rest)
  end.

(** The entries of a complete session. *)
Definition session_entries : list entry :=
  Of_training :: map Of_question (state_questions "1") ++ loop_entries (range 0 30).

(** A computation that writes the entries [expected] when it returns,
    and the first few of them when it stops. *)
Definition logs {A} (csv : string) (expected : list entry) (m : M A) (R : A -> Prop)
  : Prop :=
  yields m
    (fun a evs => Forall2 (is_entry csv) expected (appended evs) /\ R a)
    (fun _ evs => exists k, Forall2 (is_entry csv) (firstn k expected) (appended evs)).


(** *** Audio devices *)

(** A device the search accepts: the target name occurs in its name and
    its low input latency is below 0.01. *)
Definition accepted (d : device) : Prop :=
  contains target_device_name (name d) = true
  /\ (default_low_input_latency d < 0.01)%Q.


(** *** The serial transcript of a session *)

(** The message that announces trial [t] with its dietary condition. *)
Definition announcement (t : Z) : list field :=
  message ("TRIAL_" +++ str t +++ "-COND_" +++ condition t +++ ";").

(** The messages of trial [t], from its announcement to its report. *)
Definition trial_transcript (t : Z) (ms : list (list field)) : Prop :=
  exists loc r,
    ms = announcement t :: pair_messages loc ++ recording_messages t ++ [report r].

(** The messages sent before the first trial, [r] being what the training
    trial returned. *)
Definition opening_messages (r : string * Z * Q) : list (list field) :=
  [message "START TASK;"; message "RECORDING_0;"; message "INSTRUCTIONS;";
   message "LIVE START;"; message "LIVE END;"; message "REC END;"; report r].


(** *** The pointer and the slider *)

(** A poll that finds the pointer off the slider: its position maps
    outside the scale. *)
Definition off_slider (t : tick) : Prop :=
  in_bounds (slider_value (mouse_x t)) = false.

(** A poll at which nothing moves the marker: the slider, when drawn,
    leaves it alone, and the pointer is off the slider. *)
Definition untouched (t : tick) : Prop :=
  slider_moves_to t = None /\ off_slider t.


(** The [k]-th aligned block of ten order-codes of a plan. *)
Definition block_of_10 (k : nat) (plan : list Z) : list Z :=
  firstn 10 (skipn (10 * k) plan).

Definition balanced (b : list Z) : Prop :=
  count_occ Z.eq_dec b 1%Z = 5 /\ count_occ Z.eq_dec b 2%Z = 5.

(** ** Reasoning about the monad *)

Section MonadRules.
Context {A B : Type}.

Lemma bind_done (m : M A) (f : A -> M B) s a e1 s1 :
  m s = (Done a, e1, s1) ->
  bind m f s = (let '(o, e2, s2) := f a s1 in (o, e1 ++ e2, s2)).
Proof. intros H. unfold bind. now rewrite H. Qed.

Lemma bind_stop (m : M A) (f : A -> M B) s why e1 s1 :
  m s = (Stop why, e1, s1) -> bind m f s = (Stop why, e1, s1).
Proof. intros H. unfold bind. now rewrite H. Qed.

Lemma yields_bind (m : M A) (f : A -> M B) Qm Em Q (E : stop -> list event -> Prop) :
  yields m Qm Em ->
  (forall why e1, Em why e1 -> E why e1) ->
  (forall a e1, Qm a e1 ->
     yields (f a) (fun b e2 => Q b (e1 ++ e2)) (fun why e2 => E why (e1 ++ e2))) ->
  yields (bind m f) Q E.
Proof.
  intros Hm HE Hf s. unfold bind.
  specialize (Hm s). destruct (m s) as [[[a | why] e1] s1]; [| now apply HE].
  specialize (Hf a e1 Hm s1). destruct (f a s1) as [[[b | why] e2] s2]; exact Hf.
Qed.

Lemma yields_silent_then (m : M A) (k : A -> M B) (P : A -> Prop) Q E :
  silent m P -> (forall a, P a -> yields (k a) Q E) -> yields (bind m k) Q E.
Proof.
  intros Hm Hk s. destruct (Hm s) as (a & s1 & E1 & Ha).
  unfold bind. rewrite E1. specialize (Hk a Ha s1).
  destruct (k a s1) as [[[b | why] e2] s2]; exact Hk.
Qed.

Lemma yields_weaken (m : M A) (Q Q' : A -> list event -> Prop)
    (E E' : stop -> list event -> Prop) :
  yields m Q E ->
  (forall a evs, Q a evs -> Q' a evs) ->
  (forall why evs, E why evs -> E' why evs) ->
  yields m Q' E'.
Proof.
  intros Hm HQ HE s. specialize (Hm s).
  destruct (m s) as [[[a | why] evs] s']; auto.
Qed.

Lemma silent_bind (m : M A) (f : A -> M B) (Qm : A -> Prop) (Q : B -> Prop) :
  silent m Qm -> (forall a, Qm a -> silent (f a) Q) -> silent (bind m f) Q.
Proof.
  intros Hm Hf s. destruct (Hm s) as (a & s1 & E1 & Ha).
  destruct (Hf a Ha s1) as (b & s2 & E2 & Hb).
  exists b, s2. split; [| exact Hb].
  rewrite (bind_done _ _ _ _ _ _ E1), E2. reflexivity.
Qed.

End MonadRules.

Section PrimitiveRules.
Context {A : Type}.
Variables (Q : A -> list event -> Prop) (E : stop -> list event -> Prop).

Lemma yields_ret (a : A) : Q a [] -> yields (ret a) Q E.
Proof. intros H s. exact H. Qed.

Lemma yields_halt why : E why [] -> yields (halt why) Q E.
Proof. intros H s. exact H. Qed.

Lemma yields_emit_then e (k : M A) :
  yields k (fun b e2 => Q b (e :: e2)) (fun why e2 => E why (e :: e2)) ->
  yields (emit e ;;; k) Q E.
Proof.
  intros Hk s. unfold bind, emit. specialize (Hk s).
  destruct (k s) as [[[b | why] e2] s2]; exact Hk.
Qed.

Lemma yields_tick_then (k : tick -> M A) :
  E Blocked [] -> (forall t, yields (k t) Q E) -> yields (t <- next_tick ;; k t) Q E.
Proof.
  intros HB Hk s. unfold bind, next_tick.
  destruct (ticks s) as [| t r]; [exact HB |].
  specialize (Hk t (State r (draws s) (cursor s))).
  destruct (k t _) as [[[b | why] e2] s2]; exact Hk.
Qed.

Lemma yields_ticks_left_then (k : nat -> M A) :
  (forall n, yields (k n) Q E) -> yields (n <- ticks_left ;; k n) Q E.
Proof.
  intros Hk s. unfold bind, ticks_left.
  specialize (Hk (List.length (ticks s)) s).
  destruct (k _ s) as [[[b | why] e2] s2]; exact Hk.
Qed.

End PrimitiveRules.

Lemma yields_emit e (Q : unit -> list event -> Prop) E : Q tt [e] -> yields (emit e) Q E.
Proof. intros H s. exact H. Qed.

Lemma silent_ret {A} (a : A) (Q : A -> Prop) : Q a -> silent (ret a) Q.
Proof. intros H s. now exists a, s. Qed.

Lemma silent_raw_draw : silent raw_draw (fun _ => True).
Proof. intros s. eexists _, _. split; [reflexivity | exact I]. Qed.

Lemma silent_randbelow n : silent (Random.randbelow n) (fun _ => True).
Proof.
  unfold Random.randbelow.
  eapply silent_bind; [apply silent_raw_draw |].
  intros d _. now apply silent_ret.
Qed.

(** ** Lists under [x[i], x[j] = x[j], x[i]] *)

Section Swap.
Context {A : Type}.
Implicit Types (x : list A) (i j : nat).

Lemma nth_error_set_item_same x i a v :
  nth_error x i = Some a -> nth_error (set_item x i v) i = Some v.
Proof.
  revert i. induction x as [| h r IH]; intros [| i] H; try discriminate; simpl in *.
  - reflexivity.
  - now apply IH.
Qed.

Lemma nth_error_set_item_other x i j v :
  i <> j -> nth_error (set_item x i v) j = nth_error x j.
Proof.
  revert i j. induction x as [| h r IH]; intros [| i] [| j] H; simpl; try reflexivity.
  - contradiction.
  - apply IH. congruence.
Qed.

Lemma set_item_permutation x i a v :
  nth_error x i = Some a -> Permutation (v :: x) (a :: set_item x i v).
Proof.
  revert i. induction x as [| h r IH]; intros [| i] H; try discriminate; simpl in *.
  - injection H as ->. apply perm_swap.
  - eapply perm_trans; [apply perm_swap |].
    eapply perm_trans; [| apply perm_swap].
    apply perm_skip. now apply IH.
Qed.

Lemma swap_permutation x i j : Permutation x (swap x i j).
Proof.
  unfold swap.
  destruct (nth_error x i) as [a |] eqn:Hi; [| reflexivity].
  destruct (nth_error x j) as [b |] eqn:Hj; [| reflexivity].
  assert (Hy : nth_error (set_item x i b) j = Some b).
  { destruct (Nat.eq_dec i j) as [<- | Hne].
    - eapply nth_error_set_item_same; eassumption.
    - rewrite nth_error_set_item_other; assumption. }
  apply Permutation_cons_inv with (a := b).
  eapply perm_trans.
  - apply (set_item_permutation x i a b Hi).
  - apply (set_item_permutation _ j b a Hy).
Qed.

End Swap.

Lemma shuffle_down_permutes {A} i (x : list A) :
  silent (Random.shuffle_down i x) (fun y => Permutation x y).
Proof.
  revert x. induction i as [| i IH]; intros x; simpl.
  - now apply silent_ret.
  - eapply silent_bind; [apply silent_randbelow |].
    intros j _. specialize (IH (swap x (S i) j)).
    intros s. destruct (IH s) as (y & s' & E & P).
    exists y, s'. split; [exact E |].
    eapply perm_trans; [apply swap_permutation | exact P].
Qed.

Lemma shuffle_permutes {A} (x : list A) :
  silent (Random.shuffle x) (fun y => Permutation x y).
Proof. apply shuffle_down_permutes. Qed.

(** ** The stimulus-order plan *)

Lemma extend_stim_order_blocks n acc :
  silent (extend_stim_order n acc)
    (fun plan => exists blocks,
       plan = acc ++ List.concat blocks
       /\ List.length blocks = n
       /\ Forall (Permutation fresh_set_of_10) blocks).
Proof.
  revert acc. induction n as [| n IH]; intros acc; simpl.
  - apply silent_ret. exists []. simpl. now rewrite app_nil_r.
  - eapply silent_bind; [apply shuffle_permutes |].
    intros b Hb s. destruct (IH (acc ++ b) s) as (plan & s' & E & blocks & -> & Hlen & Hall).
    exists ((acc ++ b) ++ List.concat blocks), s'. split; [exact E |].
    exists (b :: blocks). simpl. rewrite app_assoc. repeat split; auto.
Qed.

Lemma block_of_concat (blocks : list (list Z)) k :
  Forall (fun b => List.length b = 10) blocks ->
  k < List.length blocks ->
  block_of_10 k (List.concat blocks) = nth k blocks [].
Proof.
  unfold block_of_10. revert k.
  induction blocks as [| b r IH]; intros k Hall Hk; [inversion Hk |].
  inversion Hall as [| ? ? Hb Hr]; subst. simpl List.concat.
  destruct k as [| k].
  - rewrite Nat.mul_0_r. simpl skipn.
    rewrite firstn_app, Hb, Nat.sub_diag, firstn_O, app_nil_r.
    simpl nth. apply firstn_all2. lia.
  - rewrite Nat.mul_succ_r, skipn_app, Hb.
    rewrite skipn_all2 by lia.
    replace (10 * k + 10 - 10) with (10 * k) by lia.
    simpl app. simpl nth. apply IH; [assumption | simpl in Hk; lia].
Qed.

Lemma shuffled_set_balanced b :
  Permutation fresh_set_of_10 b -> List.length b = 10 /\ balanced b.
Proof.
  intros P. split.
  - rewrite <- (Permutation_length P). reflexivity.
  - unfold balanced.
    pose proof (proj1 (Permutation_count_occ Z.eq_dec _ _) P) as C.
    rewrite <- !C. split; reflexivity.
Qed.

Lemma shuffled_set_codes b :
  Permutation fresh_set_of_10 b -> Forall (fun c => c = 1%Z \/ c = 2%Z) b.
Proof.
  intros P. eapply Permutation_Forall; [exact P |].
  unfold fresh_set_of_10. simpl.
  repeat (apply Forall_cons; [auto |]). apply Forall_nil.
Qed.

Lemma length_concat_blocks (blocks : list (list Z)) :
  Forall (fun b => List.length b = 10) blocks ->
  List.length (List.concat blocks) = 10 * List.length blocks.
Proof.
  induction 1 as [| b r Hb Hr IH]; [reflexivity |].
  simpl List.concat. rewrite length_app, Hb, IH. simpl List.length. lia.
Qed.

Lemma make_stim_order_blocks :
  silent make_stim_order
    (fun plan => exists blocks,
       plan = List.concat blocks
       /\ List.length blocks = 10
       /\ Forall (Permutation fresh_set_of_10) blocks).
Proof.
  intros s.
  destruct (extend_stim_order_blocks (Z.to_nat (trials / 3)) [] s)
    as (plan & s' & E & blocks & -> & Hlen & Hall).
  exists (List.concat blocks), s'. split; [exact E |].
  exists blocks. repeat split; [| exact Hall].
  rewrite Hlen. reflexivity.
Qed.

(** C1 (as the code has it).  The loop that builds the plan runs
    [trials // 3 = 10] times, not three times: whatever the random
    generator draws, the plan is a list of 100 order-codes, made of ten
    consecutive blocks of ten which each hold five 1s and five 2s. *)
Theorem stim_order_is_ten_blocks_of_ten :
  forall s, exists plan s',
    make_stim_order s = (Done plan, [], s')
    /\ List.length plan = 100
    /\ Forall (fun k => balanced (block_of_10 k plan)) (seq 0 10).
Proof.
  intros s.
  destruct (make_stim_order_blocks s) as (plan & s' & E & blocks & -> & Hlen & Hall).
  exists (List.concat blocks), s'. split; [exact E |].
  assert (H10 : Forall (fun b => List.length b = 10) blocks).
  { eapply Forall_impl; [| exact Hall]. intros b P. now apply shuffled_set_balanced. }
  split.
  - rewrite length_concat_blocks, Hlen by assumption. reflexivity.
  - apply Forall_forall. intros k Hk. apply in_seq in Hk.
    rewrite block_of_concat; [| assumption | lia].
    assert (Hin : In (nth k blocks []) blocks) by (apply nth_In; lia).
    rewrite Forall_forall in Hall. now apply shuffled_set_balanced, Hall.
Qed.

(** ** More rules, and a tactic that walks through a computation *)

Lemma yields_ret_then {A B} (a : A) (k : A -> M B) Q E :
  yields (k a) Q E -> yields (bind (ret a) k) Q E.
Proof.
  intros Hk s. unfold bind, ret. specialize (Hk s).
  destruct (k a s) as [[[b | why] e2] s2]; exact Hk.
Qed.

Lemma yields_halt_then {A B} why (k : A -> M B) (Q : B -> list event -> Prop) E :
  E why [] -> yields (bind (halt why) k) Q E.
Proof. intros H s. exact H. Qed.

Lemma yields_assoc {A B C} (m : M A) (f : A -> M B) (k : B -> M C) Q E :
  yields (bind m (fun a => bind (f a) k)) Q E -> yields (bind (bind m f) k) Q E.
Proof.
  intros H s. specialize (H s). unfold bind in *.
  destruct (m s) as [[[a | why] e1] s1]; [| exact H].
  destruct (f a s1) as [[[b | why] e2] s2]; [| exact H].
  destruct (k b s2) as [[[c | why] e3] s3]; now rewrite <- app_assoc.
Qed.

Ltac ystep :=
  lazymatch goal with
  | |- yields (bind (bind _ _) _) _ _ => apply yields_assoc
  | |- yields (bind (emit _) _) _ _ => apply yields_emit_then
  | |- yields (bind next_tick _) _ _ => apply yields_tick_then; [| intros ?t]
  | |- yields (bind ticks_left _) _ _ => apply yields_ticks_left_then; intros ?n
  | |- yields (bind (ret _) _) _ _ => apply yields_ret_then
  | |- yields (bind (halt _) _) _ _ => apply yields_halt_then
  | |- yields (bind (when ?b _) _) _ _ => destruct b eqn:?; cbn [when]
  | |- yields (bind (if ?b then _ else _) _) _ _ => destruct b eqn:?
  | |- yields (when ?b _) _ _ => destruct b eqn:?; cbn [when]
  | |- yields (emit _) _ _ => apply yields_emit
  | |- yields (ret _) _ _ => apply yields_ret
  | |- yields (halt _) _ _ => apply yields_halt
  | |- yields (if ?b then _ else _) _ _ => destruct b eqn:?
  end.

Ltac stopped := split; [reflexivity | (now left) || (now right)].

(** ** The polling loops *)

Lemma wait_for_key_press_spec :
  yields wait_for_key_press
    (fun _ evs => evs = []) (fun why evs => evs = [] /\ no_crash why).
Proof.
  unfold wait_for_key_press. ystep.
  induction n as [| n IH]; simpl.
  - ystep. stopped.
  - repeat ystep; try stopped; try reflexivity. exact IH.
Qed.

Lemma show_instructions_spec :
  yields show_instructions
    (fun _ evs => evs = []) (fun why evs => evs = [] /\ no_crash why).
Proof.
  unfold show_instructions. ystep.
  induction n as [| n IH]; simpl.
  - ystep. stopped.
  - repeat ystep; try stopped; try reflexivity. exact IH.
Qed.

Lemma show_instructions_list_spec pages :
  yields (show_instructions_list pages)
    (fun _ evs => evs = []) (fun why evs => evs = [] /\ no_crash why).
Proof.
  unfold show_instructions_list. ystep. generalize 0 as index.
  induction n as [| n IH]; intros index; simpl.
  - repeat ystep; try stopped; reflexivity.
  - ystep; [| now ystep].
    eapply yields_bind; [apply show_instructions_spec | auto |].
    intros result e1 ->. simpl.
    destruct result; [ystep |]; apply IH.
Qed.

Lemma play_sound_on_click_spec f :
  yields (play_sound_on_click f)
    (fun _ evs => Forall (eq (Play f)) evs)
    (fun why evs => Forall (eq (Play f)) evs /\ no_crash why).
Proof.
  unfold play_sound_on_click. ystep.
  induction n as [| n IH]; simpl.
  - ystep. split; [constructor | now right].
  - ystep; [split; [constructor | now right] |].
    ystep; repeat ystep;
      try (split; [repeat constructor | (now left) || (now right)]);
      try (repeat constructor); try exact IH.
    eapply yields_weaken; [exact IH | |]; simpl.
    + intros _ evs H. now constructor.
    + intros why evs [H N]. split; [now constructor | exact N].
Qed.

Lemma countdown_spec limit :
  yields (countdown limit)
    (fun _ evs => digest evs = []) (fun why evs => digest evs = [] /\ no_crash why).
Proof.
  unfold countdown. ystep.
  induction n as [| n IH]; simpl.
  - ystep. stopped.
  - repeat ystep; try stopped; try reflexivity. exact IH.
Qed.

Lemma start_countdown_spec :
  yields start_countdown
    (fun _ evs => digest evs = []) (fun why evs => digest evs = [] /\ no_crash why).
Proof.
  unfold start_countdown. ystep.
  induction n as [| n IH]; simpl.
  - ystep. stopped.
  - repeat ystep; try stopped; try reflexivity. exact IH.
Qed.

(** ** Ratings *)

Lemma random_unit_interval :
  silent Random.random (fun u => (0 <= u /\ u <= 1)%Q).
Proof.
  intros s. eexists _, _. split; [reflexivity |].
  assert (H : (draws s (cursor s) mod 2 ^ 53 < 2 ^ 53)%N).
  { apply N.mod_lt. discriminate. }
  set (d := (draws s (cursor s) mod 2 ^ 53)%N) in *.
  assert (H' : (0 <= Z.of_N d < 2 ^ 53)%Z) by lia.
  unfold Qle. cbn [Qnum Qden]. split; lia.
Qed.

Lemma uniform_20_80 :
  silent (Random.uniform 20 80) (fun q => (20 <= q /\ q <= 80)%Q).
Proof.
  unfold Random.uniform.
  eapply silent_bind; [apply random_unit_interval |].
  intros u [H0 H1]. apply silent_ret. split; lra.
Qed.

Lemma in_bounds_iff v : in_bounds v = true <-> on_scale v.
Proof.
  unfold in_bounds, int_le_float, float_le_int, on_scale, in_0_100, number.
  destruct v as [z | i | | sg m e]; cbn [float_number].
  - rewrite andb_true_iff, !Qle_bool_iff. split.
    + intros H. now exists 0%Q.
    + now intros (q & [= <-] & H).
  - split; [now destruct i | now intros (q & [=] & _)].
  - split; [discriminate | now intros (q & [=] & _)].
  - rewrite andb_true_iff, !Qle_bool_iff. split.
    + intros H. eexists. split; [reflexivity | exact H].
    + now intros (q & [= <-] & H).
Qed.

Lemma round_ge z x : (inject_Z z <= x)%Q -> (z <= round x)%Z.
Proof.
  intros H. unfold round.
  assert (F : (z <= Qfloor x)%Z).
  { rewrite <- (Qfloor_Z z). now apply Qfloor_resp_le. }
  destruct (x - inject_Z (Qfloor x) ?= 1 # 2)%Q; [destruct (Z.even _) | |]; lia.
Qed.

Lemma round_le z x : (x <= inject_Z z)%Q -> (round x <= z)%Z.
Proof.
  intros H. unfold round.
  assert (F : (Qfloor x <= z)%Z).
  { rewrite <- (Qfloor_Z z). now apply Qfloor_resp_le. }
  assert (G : (inject_Z (Qfloor x) < x)%Q -> (Qfloor x + 1 <= z)%Z).
  { intros L. assert (L' : (inject_Z (Qfloor x) < inject_Z z)%Q).
    { eapply Qlt_le_trans; eassumption. }
    rewrite <- Zlt_Qlt in L'. lia. }
  destruct (x - inject_Z (Qfloor x) ?= 1 # 2)%Q eqn:C.
  - apply Qeq_alt in C. destruct (Z.even _); [exact F |]. apply G. lra.
  - exact F.
  - apply Qgt_alt in C. apply G. lra.
Qed.

Lemma set_markerPos_in_0_100 rating : in_0_100 (Slider.set_markerPos rating).
Proof.
  unfold Slider.set_markerPos, in_0_100. cbv zeta.
  split; [rewrite <- (Zle_Qle 0) | rewrite <- (Zle_Qle _ 100)]; lia.
Qed.

Lemma set_markerPos_between a b rating :
  (0 <= a)%Z -> (b <= 100)%Z ->
  (inject_Z a <= rating /\ rating <= inject_Z b)%Q ->
  (inject_Z a <= Slider.set_markerPos rating
   /\ Slider.set_markerPos rating <= inject_Z b)%Q.
Proof.
  intros Ha Hb [L U]. unfold Slider.set_markerPos. cbv zeta.
  assert (D : (rating / 1 == rating)%Q).
  { unfold Qdiv. change (/ 1)%Q with 1%Q. apply Qmult_1_r. }
  assert (L' : (a <= round (rating / 1))%Z) by (apply round_ge; now rewrite D).
  assert (U' : (round (rating / 1) <= b)%Z) by (apply round_le; now rewrite D).
  rewrite <- !Zle_Qle. lia.
Qed.

Lemma draw_in_0_100 marker t : in_0_100 marker -> in_0_100 (Slider.draw marker t).
Proof.
  intros H. unfold Slider.draw.
  destruct (slider_moves_to t); [apply set_markerPos_in_0_100 | exact H].
Qed.

Lemma follow_in_0_100 marker t : in_0_100 marker -> in_0_100 (follow marker t).
Proof.
  intros H. unfold follow.
  destruct (in_bounds _); [apply set_markerPos_in_0_100 | exact H].
Qed.

Lemma track_in_0_100 marker t : in_0_100 marker -> in_0_100 (track marker t).
Proof. intros H. unfold track. now apply follow_in_0_100, draw_in_0_100. Qed.

Lemma confidence_loop_spec n marker :
  in_0_100 marker ->
  yields (confidence_loop n marker)
    (fun q evs => digest evs = [] /\ in_0_100 q)
    (fun why evs => digest evs = [] /\ no_crash why).
Proof.
  revert marker. induction n as [| n IH]; intros marker H; simpl.
  - ystep. stopped.
  - repeat ystep; try stopped;
      try (split; [reflexivity | now apply draw_in_0_100]).
    apply IH. now apply track_in_0_100.
Qed.

Lemma initial_marker_20_80 q :
  (20 <= q /\ q <= 80)%Q ->
  (20 <= Slider.set_markerPos q /\ Slider.set_markerPos q <= 80)%Q.
Proof. intros H. apply (set_markerPos_between 20 80); [lia | lia | exact H]. Qed.

Lemma get_confidence_mouse_spec :
  yields get_confidence_mouse
    (fun q evs => digest evs = [] /\ in_0_100 q)
    (fun why evs => digest evs = [] /\ no_crash why).
Proof.
  unfold get_confidence_mouse.
  eapply yields_silent_then; [apply uniform_20_80 |].
  intros q Hq. ystep. apply confidence_loop_spec. apply set_markerPos_in_0_100.
Qed.

Lemma question_loop_spec n scale marker :
  in_0_100 marker ->
  yields (question_loop n true scale marker)
    (fun v evs => digest evs = [] /\ rating_cell v)
    (fun why evs => digest evs = [] /\ no_crash why).
Proof.
  revert marker. induction n as [| n IH]; intros marker H; simpl.
  - ystep. stopped.
  - repeat ystep; try stopped.
    + split; [reflexivity |]. eexists. split; [reflexivity | now apply draw_in_0_100].
    + apply IH. now apply track_in_0_100.
Qed.

(** ** Choices *)

Lemma click_lt_2 t p : click t = Some p -> p < 2.
Proof.
  unfold click, selected_button_index. simpl.
  destruct (left_button t); [| discriminate].
  destruct (over_1 t); [intros [= <-]; lia |].
  destruct (over_2 t); [intros [= <-]; lia | discriminate].
Qed.

Lemma training_choice_loop_spec n :
  yields (training_choice_loop n)
    (fun p evs => evs = [] /\ p < 2) (fun why evs => evs = [] /\ no_crash why).
Proof.
  induction n as [| n IH]; simpl.
  - ystep. stopped.
  - repeat ystep; try stopped.
    destruct (click t) as [p |] eqn:C; [| exact IH].
    ystep. split; [reflexivity | now apply click_lt_2 in C].
Qed.

Lemma trial_choice_loop_spec n :
  yields (trial_choice_loop n)
    (fun p evs => evs = [] /\ p < 2) (fun why evs => evs = [] /\ no_crash why).
Proof.
  induction n as [| n IH]; simpl.
  - ystep. stopped.
  - repeat ystep; try stopped.
    destruct (click t) as [p |] eqn:C; [| exact IH].
    ystep. split; [reflexivity | now apply click_lt_2 in C].
Qed.

Lemma response_code_of_button p :
  p < 2 ->
  silent (response_code_of p) (fun c => (p = 0 /\ c = 1%Z) \/ (p = 1 /\ c = 2%Z)).
Proof.
  intros H s. destruct p as [| [| p]]; [| | lia]; eexists _, s; split;
    try reflexivity; auto.
Qed.

Lemma label_of_button p :
  p < 2 ->
  silent (item buttons (Z.of_nat p))
    (fun b => (p = 0 /\ b = "Sound 1") \/ (p = 1 /\ b = "Sound 2")).
Proof.
  intros H s. destruct p as [| [| p]]; [| | lia]; eexists _, s; split;
    try reflexivity; auto.
Qed.

Ltac dsimpl :=
  unfold digest in *;
  repeat first [rewrite filter_app | progress cbn [filter is_notable app]].

Lemma training_response_spec ext :
  yields (training_response ext)
    (fun r evs => digest evs = [] /\ answer_ok r)
    (fun why evs => digest evs = [] /\ no_crash why).
Proof.
  unfold training_response, show_question. repeat ystep.
  eapply yields_bind; [apply training_choice_loop_spec | intros ? ? [-> ?]; now split |].
  intros p ? [-> Hp]. cbn [app].
  eapply yields_silent_then; [now apply response_code_of_button |]. intros c Hc.
  eapply yields_bind; [apply get_confidence_mouse_spec | auto |].
  intros q e1 [He1 Hq]. repeat ystep.
  eapply yields_silent_then; [now apply label_of_button |]. intros b Hb.
  assert (A : answer_ok (b, c, q)).
  { split; [| exact Hq]. destruct Hc as [[-> ->] | [-> ->]], Hb as [[? ->] | [? ->]];
      try discriminate; auto. }
  repeat ystep; (split; [| exact A]); dsimpl; now rewrite He1.
Qed.

Lemma record_and_respond_spec fs duration t dir ext :
  yields (record_and_respond fs duration t dir ext)
    (fun r evs => digest evs = [Save (gastric_rec dir (t + 1))] /\ answer_ok r)
    (fun why evs => digest evs = [] /\ no_crash why).
Proof.
  unfold record_and_respond, show_question, gastric_rec.
  assert (K : forall k : M (string * Z * Q),
    yields k
      (fun r evs => digest evs
                    = [Save (os_path_join dir ("gastric_rec_" +++ str (t + 1) +++ ".wav"))]
                    /\ answer_ok r)
      (fun why evs => digest evs = [] /\ no_crash why) ->
    yields (when ext
              (emit (Serial [FStr ("RECORDING_" +++ str (t + 1) +++ ";")]) ;;;
               emit (Serial [FStr "QUESTION;"])) ;;; k)
      (fun r evs => digest evs
                    = [Save (os_path_join dir ("gastric_rec_" +++ str (t + 1) +++ ".wav"))]
                    /\ answer_ok r)
      (fun why evs => digest evs = [] /\ no_crash why)).
  { intros k Hk. destruct ext; cbn [when]; repeat ystep; exact Hk. }
  apply K. clear K. repeat ystep.
  eapply yields_bind; [apply trial_choice_loop_spec | intros ? ? [-> ?]; now split |].
  intros p ? [-> Hp]. cbn [app].
  eapply yields_silent_then; [now apply response_code_of_button |]. intros c Hc.
  eapply yields_bind; [apply get_confidence_mouse_spec | auto |].
  intros q e1 [He1 Hq]. repeat ystep.
  eapply yields_silent_then; [now apply label_of_button |]. intros b Hb.
  assert (A : answer_ok (b, c, q)).
  { split; [| exact Hq]. destruct Hc as [[-> ->] | [-> ->]], Hb as [[? ->] | [? ->]];
      try discriminate; auto. }
  repeat ystep; (split; [| exact A]); dsimpl; now rewrite He1.
Qed.

(** ** Stimuli *)

Lemma present_live_spec caption duration ext dbg :
  yields (present_live caption duration ext dbg)
    (fun _ evs => digest evs = [Live (duration * 1000)]) (fun _ _ => False).
Proof. unfold present_live. destruct ext, dbg; cbn [when]; repeat ystep; reflexivity. Qed.

Lemma present_recorded_spec caption debug_caption f announce ext dbg :
  yields (present_recorded caption debug_caption f announce ext dbg)
    (fun _ evs => digest evs = [Play f]) (fun _ _ => False).
Proof.
  unfold present_recorded.
  destruct announce, ext, dbg; cbn [when andb]; repeat ystep; reflexivity.
Qed.

Lemma present_pair_spec duration loc f ext dbg :
  yields (present_pair duration loc f ext dbg)
    (fun _ evs => digest evs = pair_of_sounds duration loc f) (fun _ _ => False).
Proof.
  unfold present_pair, pair_of_sounds.
  destruct (loc =? 1)%Z.
  - eapply yields_bind; [apply present_live_spec | auto |].
    intros [] e1 H1. ystep.
    eapply yields_weaken; [apply present_recorded_spec | | auto].
    intros [] e2 H2. dsimpl. now rewrite H1, H2.
  - eapply yields_bind; [apply present_recorded_spec | auto |].
    intros [] e1 H1. ystep.
    eapply yields_weaken; [apply present_live_spec | | auto].
    intros [] e2 H2. dsimpl. now rewrite H1, H2.
Qed.

Lemma run_training_spec duration f ext dbg :
  yields (run_training duration f ext dbg)
    (fun r evs => digest evs = [Live (duration * 1000); Play f] /\ answer_ok r)
    (fun why evs => digest evs = [Live (duration * 1000); Play f] /\ no_crash why).
Proof.
  unfold run_training. repeat ystep.
  eapply yields_bind; [apply present_live_spec | contradiction |].
  intros [] e1 H1. ystep.
  eapply yields_bind; [apply present_recorded_spec | contradiction |].
  intros [] e2 H2.
  eapply yields_weaken; [apply training_response_spec | |].
  - intros r e3 [H3 A]. split; [| exact A]. dsimpl. now rewrite H1, H2, H3.
  - intros why e3 [H3 N]. split; [| exact N]. dsimpl. now rewrite H1, H2, H3.
Qed.

Lemma run_discrimination_trial_spec fs duration t loc dir f ext dbg :
  yields (run_discrimination_trial fs duration t loc dir f ext dbg)
    (fun r evs =>
       digest evs = pair_of_sounds duration loc f ++ [Save (gastric_rec dir (t + 1))]
       /\ answer_ok r)
    (fun why evs => digest evs = pair_of_sounds duration loc f /\ no_crash why).
Proof.
  unfold run_discrimination_trial. repeat ystep.
  eapply yields_bind; [apply present_pair_spec | contradiction |].
  intros [] e1 H1.
  eapply yields_weaken; [apply record_and_respond_spec | |].
  - intros r e3 [H3 A]. split; [| exact A]. dsimpl. now rewrite H1, H3.
  - intros why e3 [H3 N]. split; [| exact N]. dsimpl. now rewrite H1, H3, app_nil_r.
Qed.

(** ** Calibration and questionnaires *)

Lemma run_instructions_calibration_spec fs duration dir ext dbg :
  yields (run_instructions_calibration fs duration dir ext dbg)
    (fun _ evs =>
       digest evs = [Save (os_path_join dir "gastric_rec_training.wav");
                     Save (gastric_rec dir 0)])
    (fun why evs =>
       (digest evs = []
        \/ digest evs = [Save (os_path_join dir "gastric_rec_training.wav")])
       /\ no_crash why).
Proof.
  unfold run_instructions_calibration, gastric_rec.
  change ("gastric_rec_" +++ str 0 +++ ".wav") with "gastric_rec_0.wav".
  ystep. destruct ext; cbn [when]; repeat ystep.
  all: eapply yields_bind;
    [apply show_instructions_list_spec
    | intros why e1 [-> N]; split; [now left | exact N] |].
  all: intros [] ? ->; cbn [app]; ystep.
  all: eapply yields_bind;
    [apply countdown_spec
    | intros why e1 [H N]; split; [left; dsimpl; exact H | exact N] |].
  all: intros [] e1 H1; repeat ystep.
  all: eapply yields_bind;
    [apply countdown_spec
    | intros why e2 [H N]; split; [right; dsimpl; now rewrite H1, H | exact N] |].
  all: intros [] e2 H2; repeat ystep.
  all: dsimpl; now rewrite H1, H2.
Qed.

Lemma get_post_task_qs_spec csv qs ext :
  yields (get_post_task_qs csv qs ext true)
    (fun _ evs => Forall (question_entry csv) (digest evs))
    (fun why evs => Forall (question_entry csv) (digest evs) /\ no_crash why).
Proof.
  induction qs as [| q rest IH]; simpl.
  - ystep. constructor.
  - eapply yields_silent_then; [apply uniform_20_80 |]. intros m Hm. ystep.
    eapply yields_bind;
      [apply question_loop_spec; apply set_markerPos_in_0_100 | |].
    { intros why e1 [H N]. split; [dsimpl; rewrite H; constructor | exact N]. }
    intros v e1 [H1 Hv]. ystep.
    eapply yields_weaken; [exact IH | |].
    + intros [] e2 H2. dsimpl. rewrite H1. cbn [app]. constructor; [| exact H2].
      eexists. split; [reflexivity |]. now exists (q_label q), v.
    + intros why e2 [H2 N]. split; [| exact N].
      dsimpl. rewrite H1. cbn [app]. constructor; [| exact H2].
      eexists. split; [reflexivity |]. now exists (q_label q), v.
Qed.

(** ** The dietary condition *)

(** C2.  The condition depends on the trial index alone: indices 0 to 8
    give Fasted, 9 to 18 give Post_Drink_1, 19 to 29 give Post_Drink_2. *)
Theorem condition_buckets (t : Z) :
  ((0 <= t <= 8)%Z -> condition t = "Fasted")
  /\ ((9 <= t <= 18)%Z -> condition t = "Post_Drink_1")
  /\ ((19 <= t <= 29)%Z -> condition t = "Post_Drink_2").
Proof.
  unfold condition. repeat split; intros H.
  - destruct (Z.ltb_spec t 9); [reflexivity | lia].
  - destruct (Z.ltb_spec t 9); [lia |].
    destruct (Z.leb_spec 9 t); [| lia].
    destruct (Z.ltb_spec t 19); [reflexivity | lia].
  - destruct (Z.ltb_spec t 9); [lia |].
    destruct (Z.leb_spec 9 t); [| lia].
    destruct (Z.ltb_spec t 19); [lia | reflexivity].
Qed.

(** The four boundary indices of C2. *)
Lemma condition_boundaries :
  condition 8 = "Fasted" /\ condition 9 = "Post_Drink_1"
  /\ condition 18 = "Post_Drink_1" /\ condition 19 = "Post_Drink_2".
Proof.
  split; [| split; [| split]].
  - apply (proj1 (condition_buckets 8)). lia.
  - apply (proj1 (proj2 (condition_buckets 9))). lia.
  - apply (proj1 (proj2 (condition_buckets 18))). lia.
  - apply (proj2 (proj2 (condition_buckets 19))). lia.
Defined.

(** ** The order of the two sounds *)

Lemma sounds_of_digest evs : sounds evs = sounds (digest evs).
Proof.
  unfold sounds, digest. induction evs as [| e r IH]; [reflexivity |].
  destruct e; simpl; now rewrite IH.
Qed.

Lemma trial_sounds fs duration t loc dir f ext dbg s :
  sounds (snd (fst (run_discrimination_trial fs duration t loc dir f ext dbg s)))
  = pair_of_sounds duration loc f.
Proof.
  pose proof (run_discrimination_trial_spec fs duration t loc dir f ext dbg s) as H.
  destruct (run_discrimination_trial _ _ _ _ _ _ _ _ s) as [[[r | why] evs] s'];
    cbn [fst snd]; destruct H as [H _]; rewrite sounds_of_digest, H;
    unfold pair_of_sounds; destruct (loc =? 1)%Z; reflexivity.
Qed.

(** C3.  In a discrimination trial with order-code 1 the live sound is
    presented first and the pre-recorded file second; with order-code 2
    the pre-recorded file comes first and the live sound second.  This
    holds however the trial ends. *)
Theorem order_code_sets_the_order_of_sounds :
  forall fs duration t dir f ext dbg s,
    sounds (snd (fst (run_discrimination_trial fs duration t 1 dir f ext dbg s)))
    = [Live (duration * 1000); Play f]
    /\ sounds (snd (fst (run_discrimination_trial fs duration t 2 dir f ext dbg s)))
       = [Play f; Live (duration * 1000)].
Proof. intros. split; apply trial_sounds. Qed.

(** C10.  The trial only asks whether the order-code equals 1.  Any other
    value, 2 or not, runs the trial exactly as order-code 2 does, with the
    pre-recorded file first and the live sound second; no value is
    rejected. *)
Theorem any_code_but_1_presents_recorded_first :
  forall fs duration t loc dir f ext dbg s,
    loc <> 1%Z ->
    run_discrimination_trial fs duration t loc dir f ext dbg s
    = run_discrimination_trial fs duration t 2 dir f ext dbg s
    /\ sounds (snd (fst (run_discrimination_trial fs duration t loc dir f ext dbg s)))
       = [Play f; Live (duration * 1000)].
Proof.
  intros fs duration t loc dir f ext dbg s H.
  apply Z.eqb_neq in H. split.
  - unfold run_discrimination_trial, present_pair. now rewrite H.
  - rewrite trial_sounds. unfold pair_of_sounds. now rewrite H.
Qed.

(** ** The name of the session log *)

Lemma append_assoc (a b c : string) : (a +++ b) +++ c = a +++ b +++ c.
Proof. induction a as [| ch a IH]; simpl; [reflexivity | now rewrite IH]. Qed.

Lemma relative_name ch b : ch <> "/"%char -> startswith "/" (String ch b) = false.
Proof.
  intros H. unfold startswith. cbn [String.prefix].
  destruct (ascii_dec "/" ch); [congruence | reflexivity].
Qed.

(** Joining a directory with a relative name commutes with extending the
    name. *)
Lemma os_path_join_extend (d b c : string) ch :
  ch <> "/"%char ->
  os_path_join d (String ch b) +++ c = os_path_join d (String ch b +++ c).
Proof.
  intros H. unfold os_path_join.
  change (String ch b +++ c) with (String ch (b +++ c)).
  rewrite !relative_name by assumption.
  destruct (_ || _); rewrite !append_assoc; reflexivity.
Qed.

Lemma base_file_found (fs : filesystem) (d name : string) :
  os_path_exists ((d, name) :: fs) (os_path_join d name) = true.
Proof. unfold os_path_exists. simpl. now rewrite String.eqb_refl. Qed.

(** C9.  Without the un-suffixed base file the directory is not scanned:
    the base name is chosen, whatever else the file system holds. *)
Theorem absent_base_file_gives_base_name :
  forall (fs : filesystem) (save_dir participant_id : string),
    os_path_exists fs
      (os_path_join save_dir ("sub-" +++ participant_id +++ "_rumble_recognition") +++ ".tsv")
    = false ->
    log_file_name fs save_dir participant_id
    = os_path_join save_dir (("sub-" +++ participant_id +++ "_rumble_recognition") +++ ".tsv").
Proof. intros fs save_dir participant_id H. unfold log_file_name. now rewrite H. Qed.

(** The example of C6: with the base file and the [_a] file present, the
    [_b] name is chosen. *)
Lemma log_name_after_a (save_dir : string) :
  log_file_name
    [(save_dir, "sub-999_rumble_recognition.tsv");
     (save_dir, "sub-999_rumble_recognition_a.tsv")] save_dir "999"
  = os_path_join save_dir "sub-999_rumble_recognition_b.tsv".
Proof.
  unfold log_file_name.
  change ("sub-" +++ "999" +++ "_rumble_recognition") with "sub-999_rumble_recognition".
  rewrite os_path_join_extend by discriminate.
  change ("sub-999_rumble_recognition" +++ ".tsv") with "sub-999_rumble_recognition.tsv".
  rewrite base_file_found.
  unfold os_listdir. cbn [filter fst snd map]. rewrite String.eqb_refl.
  reflexivity.
Qed.

(** C6 (as the code has it).  The next suffix is the character after the
    highest letter in use.  With the base file and the [_z] file present
    it is the character after [z], an opening brace, not a letter. *)
Theorem log_name_after_z_is_not_a_letter :
  forall save_dir : string,
    log_file_name
      [(save_dir, "sub-999_rumble_recognition.tsv");
       (save_dir, "sub-999_rumble_recognition_z.tsv")] save_dir "999"
    = os_path_join save_dir "sub-999_rumble_recognition_{.tsv".
Proof.
  intros save_dir. unfold log_file_name.
  change ("sub-" +++ "999" +++ "_rumble_recognition") with "sub-999_rumble_recognition".
  rewrite os_path_join_extend by discriminate.
  change ("sub-999_rumble_recognition" +++ ".tsv") with "sub-999_rumble_recognition.tsv".
  rewrite base_file_found.
  unfold os_listdir. cbn [filter fst snd map]. rewrite String.eqb_refl.
  reflexivity.
Qed.

(** ** What a normal return tells about the input *)

Lemma bind_done_inv {A B} (m : M A) (f : A -> M B) s b evs s' :
  bind m f s = (Done b, evs, s') ->
  exists a e1 s1 e2,
    m s = (Done a, e1, s1) /\ f a s1 = (Done b, e2, s') /\ evs = e1 ++ e2.
Proof.
  unfold bind. destruct (m s) as [[[a | why] e1] s1]; [| discriminate].
  destruct (f a s1) as [[o e2] s2] eqn:F. intros [= -> <- ->].
  now exists a, e1, s1, e2.
Qed.

Ltac bind_inv H :=
  let a := fresh "a" in
  let e1 := fresh "e" in
  let s1 := fresh "s" in
  let e2 := fresh "e" in
  let H1 := fresh "Hm" in
  let H2 := fresh "Hk" in
  let H3 := fresh "Hevs" in
  apply bind_done_inv in H; destruct H as (a & e1 & s1 & e2 & H1 & H2 & H3).

Lemma next_tick_done s t evs s' :
  next_tick s = (Done t, evs, s') -> ticks s = t :: ticks s'.
Proof.
  unfold next_tick. destruct (ticks s) as [| u r]; [discriminate |].
  now intros [= -> <- <-].
Qed.

(** The confirming click ends the rating; before it the marker follows
    the slider and the pointer, and at it the slider is drawn once more. *)
Lemma confidence_loop_done n marker s q evs s' :
  confidence_loop n marker s = (Done q, evs, s') ->
  exists before t,
    ticks s = before ++ t :: ticks s'
    /\ left_button t = true
    /\ q = Slider.draw (fold_left track before marker) t.
Proof.
  revert marker s evs. induction n as [| n IH]; intros marker s evs H; [discriminate |].
  simpl in H. bind_inv H. apply next_tick_done in Hm.
  destruct (key_in "escape" (keys a)); [discriminate |].
  destruct (left_button a) eqn:L.
  - injection Hk as <- _ <-. exists [], a. auto.
  - apply IH in Hk. destruct Hk as (before & t & T & Lt & ->).
    exists (a :: before), t. rewrite Hm, T. auto.
Qed.

Lemma uniform_keeps_ticks a b s q evs s' :
  Random.uniform a b s = (Done q, evs, s') -> ticks s' = ticks s.
Proof. now intros [= _ _ <-]. Qed.

(** C8.  The confidence collector puts the marker of its slider at the
    value drawn between 20 and 80, which the slider keeps as a whole
    number between 20 and 80.  From then on, at every iteration, the
    slider is drawn and may itself move the marker, and then the marker
    follows the pointer: it goes to the value the pointer maps to when
    that value lies between 0 and 100, as the slider keeps it, and stays
    where it is otherwise.  At the confirming click the collector
    returns the marker as tracked so far and drawn once more, a number
    between 0 and 100. *)
Theorem confidence_is_the_tracked_marker :
  forall s q evs s',
    get_confidence_mouse s = (Done q, evs, s') ->
    (exists initial before t,
        (20 <= initial /\ initial <= 80)%Q
        /\ ticks s = before ++ t :: ticks s'
        /\ left_button t = true
        /\ q = Slider.draw (fold_left track before initial) t
        /\ in_0_100 q)
    /\ (forall marker t,
          (on_scale (slider_value (mouse_x t)) ->
           follow marker t = Slider.set_markerPos (number (slider_value (mouse_x t))))
          /\ (~ on_scale (slider_value (mouse_x t)) -> follow marker t = marker))
    /\ (forall marker t, in_0_100 marker -> in_0_100 (track marker t)).
Proof.
  intros s q evs s' H. split; [| split].
  - pose proof (get_confidence_mouse_spec s) as R. rewrite H in R. destruct R as [_ R].
    unfold get_confidence_mouse in H. bind_inv H.
    destruct (uniform_20_80 s) as (i & s1 & U & B). rewrite U in Hm.
    injection Hm as <- <- <-.
    apply uniform_keeps_ticks in U.
    bind_inv Hk. injection Hm as <- _ <-.
    apply confidence_loop_done in Hk0. destruct Hk0 as (before & t & T & L & ->).
    exists (Slider.set_markerPos i), before, t. rewrite <- U.
    split; [now apply initial_marker_20_80 | auto].
  - intros marker t. unfold follow. split; intros B.
    + apply in_bounds_iff in B. now rewrite B.
    + destruct (in_bounds _) eqn:I; [| reflexivity].
      apply in_bounds_iff in I. contradiction.
  - intros marker t. apply track_in_0_100.
Qed.

(** C8 on a sample input: the pointer at 1 maps to the float nearest to
    301/6, which the slider keeps as 50, and the click confirms it. *)
Lemma confidence_on_sample_input :
  (exists initial before t,
      (20 <= initial /\ initial <= 80)%Q
      /\ [point 1; confirm] = before ++ t :: []
      /\ left_button t = true
      /\ Qmake 50 1 = Slider.draw (fold_left track before initial) t
      /\ in_0_100 (Qmake 50 1))
  /\ (forall marker t,
        (on_scale (slider_value (mouse_x t)) ->
         follow marker t = Slider.set_markerPos (number (slider_value (mouse_x t))))
        /\ (~ on_scale (slider_value (mouse_x t)) -> follow marker t = marker))
  /\ (forall marker t, in_0_100 marker -> in_0_100 (track marker t)).
Proof.
  apply (confidence_is_the_tracked_marker
           (State [point 1; confirm] sample_draws 0)
           (Qmake 50 1) [Wait 1] (State [] sample_draws 1)).
  vm_compute. reflexivity.
Defined.

(** ** The response code *)

Section Stateless.
Context {B : Type}.

Lemma stateless_emit e : stateless (emit e).
Proof. intros s. now exists tt, [e]. Qed.

Lemma stateless_ret {A} (a : A) : stateless (ret a).
Proof. intros s. now exists a, []. Qed.

Lemma stateless_seq {A} (m : M A) (k : M B) :
  stateless m -> stateless k -> stateless (m ;;; k).
Proof.
  intros Hm Hk s. destruct (Hm s) as (a & e1 & E1), (Hk s) as (b & e2 & E2).
  exists b, (e1 ++ e2). unfold bind. now rewrite E1, E2.
Qed.

Lemma stateless_when b (m : M unit) : stateless m -> stateless (when b m).
Proof. intros H. destruct b; [exact H | apply stateless_ret]. Qed.

(** After a stateless prefix the rest runs from the same state. *)
Lemma stateless_then {A} (m : M A) (k : M B) s :
  stateless m ->
  exists pre, (m ;;; k) s = (let '(o, e, s') := k s in (o, pre ++ e, s')).
Proof.
  intros Hm. destruct (Hm s) as (a & e1 & E1).
  exists e1. unfold bind. now rewrite E1.
Qed.

End Stateless.

Lemma stateless_present_live caption duration ext dbg :
  stateless (present_live caption duration ext dbg).
Proof.
  unfold present_live.
  repeat first [apply stateless_seq | apply stateless_when | apply stateless_emit].
Qed.

Lemma stateless_present_recorded caption debug_caption f announce ext dbg :
  stateless (present_recorded caption debug_caption f announce ext dbg).
Proof.
  unfold present_recorded.
  repeat first [apply stateless_seq | apply stateless_when | apply stateless_emit].
Qed.

Lemma stateless_present_pair duration loc f ext dbg :
  stateless (present_pair duration loc f ext dbg).
Proof.
  unfold present_pair. destruct (loc =? 1)%Z;
    repeat first [apply stateless_present_live | apply stateless_present_recorded
                 | apply stateless_emit | apply stateless_seq].
Qed.

(** A trial is its stimuli, which read no input, followed by the part
    that collects the responses. *)
Lemma trial_factors fs duration t loc dir f ext dbg s :
  exists pre,
    run_discrimination_trial fs duration t loc dir f ext dbg s
    = (let '(o, e, s') := record_and_respond fs duration t dir ext s in (o, pre ++ e, s')).
Proof.
  unfold run_discrimination_trial.
  destruct (stateless_present_pair duration loc f ext dbg s) as (a & e1 & E1).
  exists (Show "../tasks_helpers/gut_icon.png" :: Wait 0.5 :: e1).
  unfold bind at 1 2 3. cbn [emit]. rewrite E1.
  destruct (record_and_respond fs duration t dir ext s) as [[o e] s'].
  reflexivity.
Qed.

Lemma training_factors duration f ext dbg s :
  exists pre,
    run_training duration f ext dbg s
    = (let '(o, e, s') := training_response ext s in (o, pre ++ e, s')).
Proof.
  unfold run_training.
  destruct (stateless_present_live "Sound 1" duration ext dbg s) as (a & e1 & E1).
  destruct (stateless_present_recorded "Sound 2" "Play pre-recorded " f false ext dbg s)
    as (a' & e2 & E2).
  exists (Show "../tasks_helpers/gut_icon.png" :: Wait 0.5 :: e1 ++ Wait 2 :: e2).
  unfold bind at 1 2 3 4 5. cbn [emit]. rewrite E1. cbn iota. rewrite E2.
  destruct (training_response ext s) as [[o e] s'].
  cbn [app]. now rewrite <- app_assoc.
Qed.

Lemma training_choice_loop_done n s p evs s' :
  training_choice_loop n s = (Done p, evs, s') ->
  selected_position (ticks s) = Some p /\ p < 2.
Proof.
  revert s evs. induction n as [| n IH]; intros s evs H; [discriminate |].
  simpl in H. bind_inv H. apply next_tick_done in Hm. rewrite Hm. simpl.
  destruct (key_in "escape" (keys a)); [discriminate |].
  destruct (click a) as [r |] eqn:C.
  - injection Hk as <- _ _. split; [reflexivity | now apply click_lt_2 in C].
  - now apply IH in Hk.
Qed.

Lemma trial_choice_loop_done n s p evs s' :
  trial_choice_loop n s = (Done p, evs, s') ->
  selected_position (ticks s) = Some p /\ p < 2.
Proof.
  revert s evs. induction n as [| n IH]; intros s evs H; [discriminate |].
  simpl in H. bind_inv H. apply next_tick_done in Hm. rewrite Hm. simpl.
  destruct (key_in "escape" (keys a)); [discriminate |].
  destruct (click a) as [r |] eqn:C.
  - injection Hk as <- _ _. split; [reflexivity | now apply click_lt_2 in C].
  - now apply IH in Hk.
Qed.

Lemma silent_done_inv {A} (m : M A) (P : A -> Prop) s a evs s' :
  silent m P -> m s = (Done a, evs, s') -> P a.
Proof.
  intros Hm H. destruct (Hm s) as (a' & s1 & E & Pa).
  rewrite E in H. now injection H as <- _ _.
Qed.

Ltac step_inv H x Hx :=
  apply bind_done_inv in H; destruct H as (x & ? & ? & ? & Hx & H & _).

Ltac step_inv_at H x sx Hx :=
  apply bind_done_inv in H; destruct H as (x & ? & sx & ? & Hx & H & _).

Lemma position_answer_intro p b c :
  ((p = 0 /\ c = 1%Z) \/ (p = 1 /\ c = 2%Z)) ->
  ((p = 0 /\ b = "Sound 1") \/ (p = 1 /\ b = "Sound 2")) ->
  position_answer p b c.
Proof.
  unfold position_answer.
  intros [[-> ->] | [-> ->]] [[? ->] | [? ->]]; try discriminate; auto.
Qed.

Lemma show_question_run s :
  show_question s
  = (Done tt, [Show question_text; Show "Sound 1"; Show "Sound 2"], s).
Proof. reflexivity. Qed.

Lemma record_and_respond_done fs duration t dir ext s b c q evs s' :
  record_and_respond fs duration t dir ext s = (Done (b, c, q), evs, s') ->
  exists p, selected_position (ticks s) = Some p /\ position_answer p b c.
Proof.
  intros H. unfold record_and_respond in H.
  step_inv_at H u s0 Hpre.
  assert (S0 : ticks s = ticks s0).
  { destruct ext; cbn [when] in Hpre; [| now injection Hpre as _ _ <-].
    step_inv Hpre u' H1. injection H1 as _ _ <-. now injection Hpre as _ _ <-. }
  step_inv H u1 H1. injection H1 as _ _ <-.
  step_inv H uq Hq. rewrite show_question_run in Hq. injection Hq as _ _ <-.
  step_inv H n H1. injection H1 as _ _ <-.
  step_inv H p Hp. apply trial_choice_loop_done in Hp. destruct Hp as [Sel Hp].
  exists p. split; [now rewrite S0 |].
  step_inv H code Hc.
  apply (silent_done_inv _ _ _ _ _ _ (response_code_of_button p Hp)) in Hc.
  step_inv H conf Hq. step_inv H u2 H2. step_inv H u3 H3.
  step_inv H u4 H4. step_inv H u5 H5. step_inv H button Hb.
  apply (silent_done_inv _ _ _ _ _ _ (label_of_button p Hp)) in Hb.
  step_inv H u6 H6. injection H as <- <- _ _ _.
  now apply position_answer_intro.
Qed.

Lemma training_response_done ext s b c q evs s' :
  training_response ext s = (Done (b, c, q), evs, s') ->
  exists p, selected_position (ticks s) = Some p /\ position_answer p b c.
Proof.
  intros H. unfold training_response in H.
  step_inv H uq Hq. rewrite show_question_run in Hq. injection Hq as _ _ <-.
  step_inv H n H1. injection H1 as _ _ <-.
  step_inv H p Hp. apply training_choice_loop_done in Hp. destruct Hp as [Sel Hp].
  exists p. split; [exact Sel |].
  step_inv H code Hc.
  apply (silent_done_inv _ _ _ _ _ _ (response_code_of_button p Hp)) in Hc.
  step_inv H conf Hq. step_inv H u2 H2. step_inv H u3 H3. step_inv H button Hb.
  apply (silent_done_inv _ _ _ _ _ _ (label_of_button p Hp)) in Hb.
  step_inv H u6 H6. injection H as <- <- _ _ _.
  now apply position_answer_intro.
Qed.

(** ** The collectors return once the participant answers *)

Lemma confidence_loop_returns before t after n marker s :
  ticks s = before ++ t :: after ->
  Forall moving before ->
  cancels t = false -> left_button t = true ->
  List.length before < n ->
  confidence_loop n marker s
  = (Done (Slider.draw (fold_left track before marker) t), [Wait 1],
     State after (draws s) (cursor s)).
Proof.
  revert n marker s. induction before as [| u before IH]; intros n marker s T M C L N.
  - destruct n as [| n]; [inversion N |]. simpl. unfold bind, next_tick.
    rewrite T. cbn [app]. unfold cancels in C. now rewrite C, L.
  - destruct n as [| n]; [inversion N |]. simpl. unfold bind at 1. unfold next_tick.
    rewrite T. cbn [app].
    apply Forall_cons_iff in M. destruct M as [[Cu Lu] M]. unfold cancels in Cu.
    rewrite Cu, Lu. fold (track marker u).
    rewrite (IH n (track marker u) (State (before ++ t :: after) (draws s) (cursor s)));
      auto.
    simpl in N. lia.
Qed.

(** A click that is not preceded by the cancel key makes the confidence
    collector return: the ticks at hand are fuel enough. *)
Lemma get_confidence_mouse_returns before t after s :
  ticks s = before ++ t :: after ->
  Forall moving before ->
  cancels t = false -> left_button t = true ->
  exists initial,
    get_confidence_mouse s
    = (Done (Slider.draw (fold_left track before initial) t), [Wait 1],
       State after (draws s) (S (cursor s))).
Proof.
  intros T M C L. unfold get_confidence_mouse.
  destruct (uniform_20_80 s) as (i & s1 & U & _). exists (Slider.set_markerPos i).
  assert (S1 : s1 = State (ticks s) (draws s) (S (cursor s))) by (now injection U).
  unfold bind at 1. rewrite U. unfold bind at 1. cbn [ticks_left].
  rewrite (confidence_loop_returns before t after _ (Slider.set_markerPos i) s1);
    subst s1; cbn [ticks]; auto.
  rewrite T, length_app. simpl. lia.
Qed.

Lemma trial_choice_loop_returns before t after p n s :
  ticks s = before ++ t :: after ->
  Forall undecided before ->
  cancels t = false -> click t = Some p ->
  List.length before < n ->
  trial_choice_loop n s = (Done p, [], State after (draws s) (cursor s)).
Proof.
  revert n s. induction before as [| u before IH]; intros n s T M C L N.
  - destruct n as [| n]; [inversion N |]. simpl. unfold bind, next_tick.
    rewrite T. cbn [app]. unfold cancels in C. now rewrite C, L.
  - destruct n as [| n]; [inversion N |]. simpl. unfold bind at 1. unfold next_tick.
    rewrite T. cbn [app].
    apply Forall_cons_iff in M. destruct M as [[Cu Lu] M]. unfold cancels in Cu.
    rewrite Cu, Lu.
    rewrite (IH n (State (before ++ t :: after) (draws s) (cursor s))); auto.
    simpl in N. lia.
Qed.

Lemma training_choice_loop_returns before t after p n s :
  ticks s = before ++ t :: after ->
  Forall undecided before ->
  cancels t = false -> click t = Some p ->
  List.length before < n ->
  training_choice_loop n s = (Done p, [], State after (draws s) (cursor s)).
Proof.
  revert n s. induction before as [| u before IH]; intros n s T M C L N.
  - destruct n as [| n]; [inversion N |]. simpl. unfold bind, next_tick.
    rewrite T. cbn [app]. unfold cancels in C. now rewrite C, L.
  - destruct n as [| n]; [inversion N |]. simpl. unfold bind at 1. unfold next_tick.
    rewrite T. cbn [app].
    apply Forall_cons_iff in M. destruct M as [[Cu Lu] M]. unfold cancels in Cu.
    rewrite Cu, Lu.
    rewrite (IH n (State (before ++ t :: after) (draws s) (cursor s))); auto.
    simpl in N. lia.
Qed.

Lemma bind_returns {A B} (m : M A) (f : A -> M B) s a e1 s1 b e2 s2 :
  m s = (Done a, e1, s1) -> f a s1 = (Done b, e2, s2) ->
  bind m f s = (Done b, e1 ++ e2, s2).
Proof. intros Hm Hf. unfold bind. now rewrite Hm, Hf. Qed.

(** The training trial returns once the participant has clicked on a
    button and then confirmed a rating. *)
Lemma training_response_returns ext before1 t1 before2 t2 after p s :
  ticks s = before1 ++ t1 :: before2 ++ t2 :: after ->
  Forall undecided before1 -> cancels t1 = false -> click t1 = Some p ->
  Forall moving before2 -> cancels t2 = false -> left_button t2 = true ->
  exists b c q evs s',
    training_response ext s = (Done (b, c, q), evs, s')
    /\ position_answer p b c /\ ticks s' = after.
Proof.
  intros T M1 C1 L1 M2 C2 L2.
  pose proof (click_lt_2 _ _ L1) as Hp.
  unfold training_response.
  set (s1 := State (before2 ++ t2 :: after) (draws s) (cursor s)).
  assert (Choice : training_choice_loop (List.length (ticks s)) s = (Done p, [], s1)).
  { apply (training_choice_loop_returns before1 t1); auto.
    rewrite T, length_app. simpl. lia. }
  destruct (get_confidence_mouse_returns before2 t2 after s1 eq_refl M2 C2 L2)
    as (i & Conf).
  assert (Post : forall button code conf s2, exists e9,
             (when ext (emit (Serial (responses_message button code conf))) ;;;
              ret (button, code, conf)) s2 = (Done (button, code, conf), e9, s2)).
  { intros. destruct ext; eexists; reflexivity. }
  destruct p as [| [| p]]; [| | lia].
  - destruct (Post "Sound 1" 1%Z (Slider.draw (fold_left track before2 i) t2)
                (State after (draws s1) (S (cursor s1)))) as (e9 & P9).
    exists "Sound 1", 1%Z. eexists _, _, _. split; [| split; [left; auto |]].
    + eapply bind_returns; [apply show_question_run |].
      eapply bind_returns; [reflexivity |].
      eapply bind_returns; [exact Choice |].
      eapply bind_returns; [reflexivity |].
      eapply bind_returns; [exact Conf |].
      do 3 (eapply bind_returns; [reflexivity |]).
      exact P9.
    + reflexivity.
  - destruct (Post "Sound 2" 2%Z (Slider.draw (fold_left track before2 i) t2)
                (State after (draws s1) (S (cursor s1)))) as (e9 & P9).
    exists "Sound 2", 2%Z. eexists _, _, _. split; [| split; [right; auto |]].
    + eapply bind_returns; [apply show_question_run |].
      eapply bind_returns; [reflexivity |].
      eapply bind_returns; [exact Choice |].
      eapply bind_returns; [reflexivity |].
      eapply bind_returns; [exact Conf |].
      do 3 (eapply bind_returns; [reflexivity |]).
      exact P9.
    + reflexivity.
Qed.

(** C4.  The response code of a trial is fixed by the position the
    participant selects: position 0 gives the label Sound 1 and code 1,
    position 1 gives Sound 2 and code 2.  The order-code has no part in
    it: the same input gives the same answer under any other order-code.
    The training trial codes its response the same way, and it does
    return, with the label and the code of the button clicked, once the
    participant has clicked on a button and then confirmed a rating. *)
Theorem response_code_follows_position :
  (forall fs duration t loc dir f ext dbg s b c q evs s',
      run_discrimination_trial fs duration t loc dir f ext dbg s = (Done (b, c, q), evs, s') ->
      (exists p, selected_position (ticks s) = Some p /\ position_answer p b c)
      /\ forall loc',
          fst (fst (run_discrimination_trial fs duration t loc' dir f ext dbg s))
          = Done (b, c, q))
  /\ (forall duration f ext dbg s b c q evs s',
        run_training duration f ext dbg s = (Done (b, c, q), evs, s') ->
        exists p, selected_position (ticks s) = Some p /\ position_answer p b c)
  /\ (forall duration f ext dbg before1 t1 before2 t2 after p s,
        ticks s = before1 ++ t1 :: before2 ++ t2 :: after ->
        Forall undecided before1 -> cancels t1 = false -> click t1 = Some p ->
        Forall moving before2 -> cancels t2 = false -> left_button t2 = true ->
        exists b c q evs s',
          run_training duration f ext dbg s = (Done (b, c, q), evs, s')
          /\ position_answer p b c /\ ticks s' = after).
Proof.
  split; [| split].
  - intros fs duration t loc dir f ext dbg s b c q evs s' H.
    destruct (trial_factors fs duration t loc dir f ext dbg s) as (pre & F).
    rewrite F in H.
    destruct (record_and_respond fs duration t dir ext s) as [[o e] s1] eqn:R.
    injection H as -> _ _. split.
    + eapply record_and_respond_done. exact R.
    + intros loc'.
      destruct (trial_factors fs duration t loc' dir f ext dbg s) as (pre' & F').
      rewrite F', R. reflexivity.
  - intros duration f ext dbg s b c q evs s' H.
    destruct (training_factors duration f ext dbg s) as (pre & F).
    rewrite F in H.
    destruct (training_response ext s) as [[o e] s1] eqn:R.
    injection H as -> _ _.
    eapply training_response_done. exact R.
  - intros duration f ext dbg before1 t1 before2 t2 after p s T M1 C1 L1 M2 C2 L2.
    destruct (training_factors duration f ext dbg s) as (pre & F). rewrite F.
    destruct (training_response_returns ext before1 t1 before2 t2 after p s
                T M1 C1 L1 M2 C2 L2) as (b & c & q & evs & s' & R & PA & TS).
    exists b, c, q, (pre ++ evs), s'. rewrite R. auto.
Qed.

(** ** Computations that keep an invariant on their events *)

Section Keeps.
Variable I : list event -> Prop.
Hypothesis I_nil : I [].
Hypothesis I_app : forall a b, I a -> I b -> I (a ++ b).

Lemma keeps_bind {A B} (m : M A) (f : A -> M B) Rm R :
  keeps I m Rm ->
  (forall a e1, Rm a e1 -> keeps I (f a) (fun b e2 => R b (e1 ++ e2))) ->
  keeps I (bind m f) R.
Proof.
  intros Hm Hf. eapply yields_bind; [exact Hm | auto |].
  intros a e1 [Ie Ra]. eapply yields_weaken; [apply (Hf a e1 Ra) | |].
  - intros b e2 [I2 Rb]. split; [now apply I_app | exact Rb].
  - intros why e2 [I2 N]. split; [now apply I_app | exact N].
Qed.

Lemma keeps_weaken {A} (m : M A) (R R' : A -> list event -> Prop) :
  keeps I m R -> (forall a evs, R a evs -> R' a evs) -> keeps I m R'.
Proof.
  intros Hm HR. eapply yields_weaken; [exact Hm | | auto].
  intros a evs [Ie Ra]. auto.
Qed.

Lemma keeps_emit_then {B} e (k : M B) R :
  I [e] -> keeps I k (fun b e2 => R b (e :: e2)) -> keeps I (emit e ;;; k) R.
Proof.
  intros Ie Hk. apply yields_emit_then. eapply yields_weaken; [exact Hk | |].
  - intros b e2 [I2 Rb]. split; [apply (I_app [e]); assumption | exact Rb].
  - intros why e2 [I2 N]. split; [apply (I_app [e]); assumption | exact N].
Qed.

Lemma keeps_emit e (R : unit -> list event -> Prop) :
  I [e] -> R tt [e] -> keeps I (emit e) R.
Proof. intros Ie Re. apply yields_emit. now split. Qed.

Lemma keeps_ret {A} (a : A) (R : A -> list event -> Prop) : R a [] -> keeps I (ret a) R.
Proof. intros Ra. apply yields_ret. now split. Qed.

Lemma keeps_ret_then {A B} (a : A) (k : A -> M B) R :
  keeps I (k a) R -> keeps I (bind (ret a) k) R.
Proof. apply yields_ret_then. Qed.

Lemma keeps_silent_then {A B} (m : M A) (k : A -> M B) (P : A -> Prop) R :
  silent m P -> (forall a, P a -> keeps I (k a) R) -> keeps I (bind m k) R.
Proof. apply yields_silent_then. Qed.

Lemma keeps_assoc {A B C} (m : M A) (f : A -> M B) (k : B -> M C) R :
  keeps I (bind m (fun a => bind (f a) k)) R -> keeps I (bind (bind m f) k) R.
Proof. apply yields_assoc. Qed.

End Keeps.

(** ** Projections of the events *)

Lemma audio_of_digest evs :
  audio_file_accesses evs = audio_file_accesses (digest evs).
Proof.
  unfold audio_file_accesses, digest. induction evs as [| e r IH]; [reflexivity |].
  destruct e; simpl; now rewrite IH.
Qed.

Lemma appended_of_digest evs : appended evs = appended (digest evs).
Proof.
  unfold appended, digest. induction evs as [| e r IH]; [reflexivity |].
  destruct e; simpl; now rewrite IH.
Qed.

Lemma appended_app a b : appended (a ++ b) = appended a ++ appended b.
Proof. apply flat_map_app. Qed.

Lemma audio_app a b :
  audio_file_accesses (a ++ b) = audio_file_accesses a ++ audio_file_accesses b.
Proof. apply filter_app. Qed.

Lemma data_only_nil csv : data_only csv [].
Proof. constructor. Qed.

Lemma data_only_app csv a b : data_only csv a -> data_only csv b -> data_only csv (a ++ b).
Proof. unfold data_only. rewrite appended_app. intros. now apply Forall_app. Qed.

Lemma data_only_digest csv evs : appended (digest evs) = [] -> data_only csv evs.
Proof. intros H. unfold data_only. rewrite appended_of_digest, H. constructor. Qed.

Lemma only_chimes f evs :
  Forall (eq (Play f)) evs ->
  audio_file_accesses evs = repeat (Play f) (List.length evs) /\ appended evs = [].
Proof.
  induction 1 as [| e r <- _ [IH1 IH2]]; [now split |].
  split; simpl; [now rewrite IH1 | exact IH2].
Qed.

Lemma only_questions csv d :
  Forall (question_entry csv) d ->
  audio_file_accesses d = [] /\ Forall (data_entry csv) (appended d).
Proof.
  induction 1 as [| e r (row & -> & Hrow) _ [IH1 IH2]]; [split; constructor |].
  split; simpl; [exact IH1 |].
  constructor; [| exact IH2]. split; [reflexivity | now right].
Qed.

(** ** The session, piece by piece *)

Lemma item_in_range {A} (l : list A) (t : Z) :
  (0 <= t < Z.of_nat (List.length l))%Z ->
  silent (item l t) (fun a => In a l).
Proof.
  intros H s. unfold item.
  destruct (Z.ltb_spec t 0); [lia |].
  destruct (Z.leb_spec 0 t); [| lia].
  destruct (Z.ltb_spec t (Z.of_nat (List.length l))); [| lia].
  cbn [andb].
  destruct (nth_error l (Z.to_nat t)) as [a |] eqn:N.
  - exists a, s. split; [reflexivity |]. eapply nth_error_In; eassumption.
  - apply nth_error_None in N. lia.
Qed.

Lemma code_cell_of_code c : c = 1%Z \/ c = 2%Z -> code_cell (FInt c).
Proof. intros [-> | ->]; [now left | now right]. Qed.

Lemma trial_entry csv t loc b c q :
  (0 <= t <= 29)%Z -> loc = 1%Z \/ loc = 2%Z -> answer_ok (b, c, q) ->
  data_entry csv (csv, [FInt t; FInt loc; FStr b; FInt c; FNum q]).
Proof.
  intros Ht Hloc [Hbc Hq]. split; [reflexivity |]. left.
  exists (FInt t), (FInt loc), (FStr b), (FInt c), (FNum q). split; [reflexivity |].
  split; [right; now exists t |].
  split; [now apply code_cell_of_code |].
  split; [destruct Hbc as [[-> _] | [-> _]]; [now left | now right] |].
  split; [apply code_cell_of_code; destruct Hbc as [[_ ->] | [_ ->]]; auto |].
  now exists q.
Qed.

Lemma training_entry csv b c q :
  answer_ok (b, c, q) ->
  data_entry csv (csv, [FStr "Training"; FStr "1"; FStr b; FInt c; FNum q]).
Proof.
  intros [Hbc Hq]. split; [reflexivity |]. left.
  exists (FStr "Training"), (FStr "1"), (FStr b), (FInt c), (FNum q).
  split; [reflexivity |].
  split; [now left |].
  split; [now left |].
  split; [destruct Hbc as [[-> _] | [-> _]]; [now left | now right] |].
  split; [apply code_cell_of_code; destruct Hbc as [[_ ->] | [_ ->]]; auto |].
  now exists q.
Qed.

Ltac quiet := solve [unfold data_only; cbn [appended flat_map app]; constructor].

Ltac asimpl :=
  unfold audio_file_accesses in *;
  repeat first [rewrite filter_app | progress cbn [filter is_audio_file_access app]];
  repeat match goal with
         | H : filter is_audio_file_access ?e = _ |- context [filter is_audio_file_access ?e] =>
             rewrite H
         end;
  cbn [app].

Section Pieces.
Variable csv : string.

Lemma keeps_wait_for_key_press :
  keeps (data_only csv) wait_for_key_press (fun _ evs => audio_file_accesses evs = []).
Proof.
  eapply yields_weaken; [apply wait_for_key_press_spec | |].
  - intros [] evs ->. split; [constructor | reflexivity].
  - intros why evs [-> N]. split; [constructor | exact N].
Qed.

Lemma keeps_play_sound_on_click f :
  keeps (data_only csv) (play_sound_on_click f)
    (fun _ evs => exists n, audio_file_accesses evs = repeat (Play f) n).
Proof.
  eapply yields_weaken; [apply play_sound_on_click_spec | |].
  - intros [] evs H. apply only_chimes in H. destruct H as [H1 H2].
    split; [unfold data_only; rewrite H2; constructor | eauto].
  - intros why evs [H N]. apply only_chimes in H. destruct H as [H1 H2].
    split; [unfold data_only; rewrite H2; constructor | exact N].
Qed.

Lemma keeps_start_countdown :
  keeps (data_only csv) start_countdown (fun _ evs => audio_file_accesses evs = []).
Proof.
  eapply yields_weaken; [apply start_countdown_spec | |].
  - intros [] evs H. split; [apply data_only_digest; now rewrite H |].
    now rewrite audio_of_digest, H.
  - intros why evs [H N]. split; [apply data_only_digest; now rewrite H | exact N].
Qed.

Lemma keeps_calibration fs duration dir ext dbg :
  keeps (data_only csv) (run_instructions_calibration fs duration dir ext dbg)
    (fun _ evs =>
       audio_file_accesses evs = [Save (training_rec dir); Save (gastric_rec dir 0)]).
Proof.
  eapply yields_weaken; [apply run_instructions_calibration_spec | |].
  - intros [] evs H. split; [apply data_only_digest; now rewrite H |].
    now rewrite audio_of_digest, H.
  - intros why evs [[H | H] N]; (split; [apply data_only_digest; now rewrite H | exact N]).
Qed.

Lemma keeps_run_training duration f ext dbg :
  keeps (data_only csv) (run_training duration f ext dbg)
    (fun r evs => audio_file_accesses evs = [Play f] /\ answer_ok r).
Proof.
  eapply yields_weaken; [apply run_training_spec | |].
  - intros r evs [H A]. split; [apply data_only_digest; now rewrite H |].
    split; [now rewrite audio_of_digest, H | exact A].
  - intros why evs [H N]. split; [apply data_only_digest; now rewrite H | exact N].
Qed.

Lemma keeps_trial fs duration t loc dir f ext dbg :
  keeps (data_only csv) (run_discrimination_trial fs duration t loc dir f ext dbg)
    (fun r evs =>
       audio_file_accesses evs = [Play f; Save (gastric_rec dir (t + 1))]
       /\ answer_ok r).
Proof.
  eapply yields_weaken; [apply run_discrimination_trial_spec | |].
  - intros r evs [H A]. split.
    + apply data_only_digest. rewrite H. unfold pair_of_sounds.
      now destruct (loc =? 1)%Z.
    + split; [| exact A]. rewrite audio_of_digest, H. unfold pair_of_sounds.
      now destruct (loc =? 1)%Z.
  - intros why evs [H N]. split; [| exact N].
    apply data_only_digest. rewrite H. unfold pair_of_sounds.
    now destruct (loc =? 1)%Z.
Qed.

Lemma keeps_questions qs ext :
  keeps (data_only csv) (get_post_task_qs csv qs ext true)
    (fun _ evs => audio_file_accesses evs = []).
Proof.
  eapply yields_weaken; [apply get_post_task_qs_spec | |].
  - intros [] evs H. apply only_questions in H. destruct H as [H1 H2].
    split; [unfold data_only; now rewrite appended_of_digest |].
    now rewrite audio_of_digest.
  - intros why evs [H N]. apply only_questions in H. destruct H as [H1 H2].
    split; [unfold data_only; now rewrite appended_of_digest | exact N].
Qed.

End Pieces.

Ltac kstep :=
  lazymatch goal with
  | |- keeps _ (bind (bind _ _) _) _ => apply keeps_assoc
  | |- keeps _ (bind (emit _) _) _ =>
      apply keeps_emit_then; [apply data_only_app | try quiet |]
  | |- keeps _ (bind (ret _) _) _ => apply keeps_ret_then
  | |- keeps _ (bind (when ?b _) _) _ => destruct b eqn:?; cbn [when]
  | |- keeps _ (when ?b _) _ => destruct b eqn:?; cbn [when]
  | |- keeps _ (emit _) _ => apply keeps_emit; [try quiet |]
  | |- keeps _ (ret _) _ => apply keeps_ret; [apply data_only_nil |]
  | |- keeps _ (if ?b then _ else _) _ => destruct b eqn:?
  end.

Ltac kcall lem :=
  eapply keeps_bind; [apply data_only_app | apply lem |]; intros ? ? ?.

Lemma keeps_trial_loop csv dir fs duration ext dbg stim_order ts :
  (30 <= Z.of_nat (List.length stim_order))%Z ->
  Forall (fun c => c = 1%Z \/ c = 2%Z) stim_order ->
  Forall (fun t => (0 <= t <= 29)%Z) ts ->
  keeps (data_only csv) (trial_loop ts stim_order fs duration csv dir ext dbg)
    (fun _ evs => audio_file_accesses evs = flat_map (trial_audio dir) (through_29 ts)).
Proof.
  intros Hlen Hcodes. induction ts as [| t rest IH]; intros Hts; cbn [trial_loop].
  - kstep. reflexivity.
  - apply Forall_cons_iff in Hts. destruct Hts as [Ht Hrest]. specialize (IH Hrest).
    assert (Hitem : silent (item stim_order t) (fun c => c = 1%Z \/ c = 2%Z)).
    { intros s. destruct (item_in_range stim_order t ltac:(lia) s) as (c & s' & E & Hin).
      exists c, s'. split; [exact E |]. rewrite Forall_forall in Hcodes. auto. }
    kstep; repeat kstep.
    all: eapply keeps_silent_then; [exact Hitem |]; intros loc Hloc.
    all: eapply keeps_bind; [apply data_only_app | apply keeps_trial |].
    all: intros [[b c] q] e1 [Ha Hok]; cbn beta iota.
    all: kstep; [unfold data_only; cbn [appended flat_map app]; constructor;
                 [now apply trial_entry | constructor] |].
    all: repeat first [kcall keeps_questions | kcall keeps_wait_for_key_press | kstep].
    all: try (eapply keeps_weaken; [exact IH |]; intros [] e9 H9).
    all: cbn beta in *; cbn [through_29];
      match goal with H : (_ =? 29)%Z = _ |- _ => rewrite H end;
      cbn [flat_map]; unfold trial_audio, gastric_rec in *; asimpl;
      rewrite ?app_nil_r; reflexivity.
Qed.

(** The plan drawn from the sample generator: 100 codes. *)
Lemma stim_order_on_sample_draws :
  exists plan,
    fst (fst (make_stim_order sample_state)) = Done plan /\ List.length plan = 100.
Proof. eexists. split; vm_compute; reflexivity. Qed.

Lemma stim_order_codes :
  silent make_stim_order
    (fun plan => (30 <= Z.of_nat (List.length plan))%Z
                 /\ Forall (fun c => c = 1%Z \/ c = 2%Z) plan).
Proof.
  intros s. destruct (make_stim_order_blocks s) as (plan & s' & E & blocks & -> & Hlen & Hall).
  exists (List.concat blocks), s'. split; [exact E |]. split.
  - rewrite length_concat_blocks, Hlen; [lia |].
    eapply Forall_impl; [| exact Hall]. intros b P. now apply shuffled_set_balanced.
  - apply Forall_concat. eapply Forall_impl; [| exact Hall].
    intros b P. now apply shuffled_set_codes.
Qed.

Lemma trial_indices : Forall (fun t => (0 <= t <= 29)%Z) (range 0 trials).
Proof.
  change (range 0 trials) with (map Z.of_nat (seq 0 30)).
  apply Forall_forall. intros t H. apply in_map_iff in H.
  destruct H as (n & <- & Hn). apply in_seq in Hn. lia.
Qed.

(** The whole session: the log has its layout however the session ends,
    no exception is raised, and a session that runs to its end touches
    the audio files as [session_audio] lists them. *)
Lemma session_spec files participant_id sound_dir save_dir ext dbg :
  yields (run_gastric_stethoscope_self files participant_id sound_dir save_dir ext dbg)
    (fun _ evs =>
       log_layout (log_file_name files save_dir participant_id) participant_id
         (appended evs)
       /\ exists a b,
           audio_file_accesses evs
           = session_audio (os_path_join sound_dir "gastric_sounds") a b)
    (fun why evs =>
       log_layout (log_file_name files save_dir participant_id) participant_id
         (appended evs)
       /\ no_crash why).
Proof.
  unfold run_gastric_stethoscope_self.
  set (csv := log_file_name files save_dir participant_id).
  set (dir := os_path_join sound_dir "gastric_sounds").
  assert (Body : forall k : M unit,
    keeps (data_only csv) k
      (fun _ evs => exists a b, audio_file_accesses evs = session_audio dir a b) ->
    yields
      (when ext (emit (Serial [FStr "START TASK;"])) ;;;
       emit (Append csv [FStr "Participant ID"; FStr participant_id]) ;;;
       emit (Append csv
               [FStr "Trial"; FStr "Participant_Sound_Loc"; FStr "Button";
                FStr "Response_code"; FStr "Confidence"]) ;;;
       emit (Makedirs dir) ;;; k)
      (fun _ evs => log_layout csv participant_id (appended evs)
                    /\ exists a b, audio_file_accesses evs = session_audio dir a b)
      (fun why evs => log_layout csv participant_id (appended evs) /\ no_crash why)).
  { intros k Hk. destruct ext; cbn [when]; repeat ystep.
    all: eapply yields_weaken; [exact Hk | |].
    all: try (intros [] evs [D A]; split; [now exists (appended evs) | exact A]).
    all: intros why evs [D N]; split; [now exists (appended evs) | exact N]. }
  apply Body. clear Body.
  kcall keeps_play_sound_on_click.
  kcall keeps_calibration.
  kcall keeps_wait_for_key_press.
  kcall keeps_play_sound_on_click.
  kcall keeps_wait_for_key_press.
  eapply keeps_bind; [apply data_only_app | apply keeps_run_training |].
  intros [[b c] q] e_training [Ha Hok]. cbn beta iota.
  kstep; [unfold data_only; cbn [appended flat_map app]; constructor;
          [now apply training_entry | constructor] |].
  kcall keeps_wait_for_key_press.
  kstep.
  kcall keeps_questions.
  kcall keeps_start_countdown.
  eapply keeps_silent_then; [apply stim_order_codes |]. intros plan [Hlen Hcodes].
  eapply keeps_bind;
    [apply data_only_app
    | apply keeps_trial_loop; [exact Hlen | exact Hcodes | apply trial_indices] |].
  intros [] e_trials Htrials.
  cbn beta in *.
  repeat match goal with H : exists n, _ |- _ => destruct H end.
  change (through_29 (range 0 trials)) with (range 0 30) in Htrials.
  destruct ext; cbn [when]; kstep.
  all: eexists _, _; unfold session_audio, training_rec, gastric_rec in *; asimpl;
    rewrite ?app_nil_r; reflexivity.
Qed.

(** ** The session log *)

(** C7.  Whatever the input and however the session ends, the rows it
    appends all go to the one log file, in the order written: first the
    row [Participant ID, <id>], then the row of the five column headers,
    and after these only trial rows and question rows. *)
Theorem session_log_layout :
  forall files participant_id sound_dir save_dir ext dbg s,
    log_layout (log_file_name files save_dir participant_id) participant_id
      (appended
         (snd (fst (run_gastric_stethoscope_self
                      files participant_id sound_dir save_dir ext dbg s)))).
Proof.
  intros files participant_id sound_dir save_dir ext dbg s.
  pose proof (session_spec files participant_id sound_dir save_dir ext dbg s) as H.
  destruct (run_gastric_stethoscope_self _ _ _ _ _ _ s) as [[[[] | why] evs] s'];
    cbn [fst snd]; now destruct H.
Qed.

(** The session raises no exception: it ends normally, on the cancel key,
    or waiting for input. *)
Lemma session_never_crashes files participant_id sound_dir save_dir ext dbg s exn :
  fst (fst (run_gastric_stethoscope_self files participant_id sound_dir save_dir ext dbg s))
  <> Stop (Crash exn).
Proof.
  pose proof (session_spec files participant_id sound_dir save_dir ext dbg s) as H.
  destruct (run_gastric_stethoscope_self _ _ _ _ _ _ s) as [[[[] | why] evs] s'];
    cbn [fst snd]; [discriminate |].
  destruct H as [_ [-> | ->]]; discriminate.
Qed.

(** ** The audio files *)

Lemma saved_of_audio evs : saved evs = saved (audio_file_accesses evs).
Proof.
  unfold saved, audio_file_accesses. induction evs as [| e r IH]; [reflexivity |].
  destruct e; simpl; now rewrite IH.
Qed.

Lemma saved_app a b : saved (a ++ b) = saved a ++ saved b.
Proof. apply flat_map_app. Qed.

Lemma saved_chimes n : saved (repeat (Play chimes) n) = [].
Proof. induction n as [| n IH]; [reflexivity | exact IH]. Qed.

Lemma saved_session_audio dir a b : saved (session_audio dir a b) = written_assets dir.
Proof.
  unfold session_audio. rewrite !saved_app, !saved_chimes. reflexivity.
Qed.

(** C5, amended.  A session that runs to its end writes the training
    capture and the captures 0 to 30, in that order: calibration stores
    its first capture as the training file and its second as capture 0,
    and every trial [t] plays capture [t] as its pre-recorded sound and
    stores its own capture as [t + 1].  Capture 30, stored by trial 29,
    is never played. *)
Theorem session_audio_files :
  forall files participant_id sound_dir save_dir ext dbg s evs s',
    run_gastric_stethoscope_self files participant_id sound_dir save_dir ext dbg s
    = (Done tt, evs, s') ->
    saved evs = written_assets (os_path_join sound_dir "gastric_sounds")
    /\ exists a b,
        audio_file_accesses evs
        = session_audio (os_path_join sound_dir "gastric_sounds") a b.
Proof.
  intros files participant_id sound_dir save_dir ext dbg s evs s' H.
  pose proof (session_spec files participant_id sound_dir save_dir ext dbg s) as S.
  rewrite H in S. destruct S as [_ (a & b & A)].
  split; [| now exists a, b].
  now rewrite saved_of_audio, A, saved_session_audio.
Qed.

Lemma In_eqb (x : string) (l : list string) :
  In x l <-> existsb (String.eqb x) l = true.
Proof.
  rewrite existsb_exists. split.
  - intros H. exists x. split; [exact H | apply String.eqb_refl].
  - intros (y & H & E). apply String.eqb_eq in E. now subst.
Qed.

(** The sample session runs to its end. *)
Lemma sample_session_completes :
  run_gastric_stethoscope_self sample_files "999" "/phys" "/data" true false sample_state
  = (Done tt, snd (fst sample_session), snd sample_session).
Proof. vm_compute. reflexivity. Qed.

(** C5 as stated fails: the sample session runs to its end and writes
    [gastric_rec_30.wav], which is not among the training capture and the
    captures 0 to 29. *)
Lemma session_writes_capture_30 :
  fst (fst sample_session) = Done tt
  /\ In "/phys/gastric_sounds/gastric_rec_30.wav" (saved (snd (fst sample_session)))
  /\ ~ In "/phys/gastric_sounds/gastric_rec_30.wav" (claimed_assets "/phys/gastric_sounds").
Proof.
  split; [vm_compute; reflexivity |]. split.
  - apply (proj2 (In_eqb _ _)). vm_compute. reflexivity.
  - intros H. pose proof (proj1 (In_eqb _ _) H) as H'.
    vm_compute in H'. discriminate H'.
Qed.

(** C5, amended, on the sample session. *)
Lemma sample_session_audio_files :
  saved (snd (fst sample_session)) = written_assets (os_path_join "/phys" "gastric_sounds")
  /\ exists a b,
      audio_file_accesses (snd (fst sample_session))
      = session_audio (os_path_join "/phys" "gastric_sounds") a b.
Proof.
  apply (session_audio_files sample_files "999" "/phys" "/data" true false sample_state
           (snd (fst sample_session)) (snd sample_session)).
  vm_compute. reflexivity.
Defined.

(** ** The theorems on sample inputs *)

(** C10 on a sample input: order-code 7 runs the trial as order-code 2. *)
Lemma code_7_presents_recorded_first :
  run_discrimination_trial 48000 15 0 7 "/phys/gastric_sounds"
    "/phys/gastric_sounds/gastric_rec_0.wav" false false sample_trial_state
  = run_discrimination_trial 48000 15 0 2 "/phys/gastric_sounds"
      "/phys/gastric_sounds/gastric_rec_0.wav" false false sample_trial_state
  /\ sounds (snd (fst (run_discrimination_trial 48000 15 0 7 "/phys/gastric_sounds"
                         "/phys/gastric_sounds/gastric_rec_0.wav" false false
                         sample_trial_state)))
     = [Play "/phys/gastric_sounds/gastric_rec_0.wav"; Live (15 * 1000)].
Proof.
  apply (any_code_but_1_presents_recorded_first 48000 15 0 7 "/phys/gastric_sounds"
           "/phys/gastric_sounds/gastric_rec_0.wav" false false sample_trial_state).
  lia.
Defined.

(** C9 on a sample directory: two suffixed files and no base file. *)
Lemma base_name_despite_suffixed_files :
  log_file_name
    [("/data", "sub-999_rumble_recognition_a.tsv");
     ("/data", "sub-999_rumble_recognition_b.tsv")] "/data" "999"
  = os_path_join "/data" (("sub-" +++ "999" +++ "_rumble_recognition") +++ ".tsv").
Proof.
  apply (absent_base_file_gives_base_name
           [("/data", "sub-999_rumble_recognition_a.tsv");
            ("/data", "sub-999_rumble_recognition_b.tsv")] "/data" "999").
  reflexivity.
Defined.

(** C4 on a sample input: a click on the second button, in a trial and in
    the training trial. *)
Lemma response_code_on_sample_input :
  ((exists p, selected_position (ticks sample_trial_state) = Some p
              /\ position_answer p "Sound 2" 2)
   /\ forall loc',
       fst (fst (run_discrimination_trial 48000 15 0 loc' "/phys/gastric_sounds"
                   "/phys/gastric_sounds/gastric_rec_0.wav" false false
                   sample_trial_state))
       = Done ("Sound 2", 2%Z, Qmake 52 1))
  /\ (fst (fst (run_training 15 "/phys/gastric_sounds/gastric_rec_training.wav"
                  false false sample_trial_state))
      = Done ("Sound 2", 2%Z, Qmake 52 1)
      /\ exists p, selected_position (ticks sample_trial_state) = Some p
                   /\ position_answer p "Sound 2" 2)
  /\ (exists b c q evs s',
        run_training 15 "/phys/gastric_sounds/gastric_rec_training.wav"
          false false sample_trial_state
        = (Done (b, c, q), evs, s')
        /\ position_answer 1 b c /\ ticks s' = []).
Proof.
  split; [| split; [split |]].
  - eapply (proj1 response_code_follows_position 48000%Z 15%Z 0%Z 1%Z "/phys/gastric_sounds"
              "/phys/gastric_sounds/gastric_rec_0.wav" false false sample_trial_state
              "Sound 2" 2%Z (Qmake 52 1)).
    vm_compute. reflexivity.
  - vm_compute. reflexivity.
  - eapply (proj1 (proj2 response_code_follows_position) 15%Z
              "/phys/gastric_sounds/gastric_rec_training.wav" false false
              sample_trial_state "Sound 2" 2%Z (Qmake 52 1)).
    vm_compute. reflexivity.
  - apply (proj2 (proj2 response_code_follows_position) 15%Z
             "/phys/gastric_sounds/gastric_rec_training.wav" false false
             [] (pick true) [point 12] confirm [] 1 sample_trial_state).
    + reflexivity.
    + constructor.
    + reflexivity.
    + reflexivity.
    + constructor; [split; reflexivity | constructor].
    + reflexivity.
    + reflexivity.
Defined.

(** ** A trial returns once the participant answers *)

(** X8.  A trial returns once the participant has clicked on a button and
    then confirmed a rating, and it then reports the button clicked. *)
Lemma trial_returns fs duration trial_num loc dir f ext dbg
    before1 t1 before2 t2 after p s :
  ticks s = before1 ++ t1 :: before2 ++ t2 :: after ->
  Forall undecided before1 -> cancels t1 = false -> click t1 = Some p ->
  Forall moving before2 -> cancels t2 = false -> left_button t2 = true ->
  exists b c q evs s',
    run_discrimination_trial fs duration trial_num loc dir f ext dbg s
    = (Done (b, c, q), evs, s')
    /\ position_answer p b c /\ ticks s' = after.
Proof.
  intros T M1 C1 L1 M2 C2 L2.
  destruct (trial_factors fs duration trial_num loc dir f ext dbg s) as (pre & F).
  rewrite F. clear F.
  pose proof (click_lt_2 _ _ L1) as Hp.
  assert (R : exists b c q evs s',
             record_and_respond fs duration trial_num dir ext s = (Done (b, c, q), evs, s')
             /\ position_answer p b c /\ ticks s' = after).
  { unfold record_and_respond.
    set (s1 := State (before2 ++ t2 :: after) (draws s) (cursor s)).
    assert (Choice : trial_choice_loop (List.length (ticks s)) s = (Done p, [], s1)).
    { apply (trial_choice_loop_returns before1 t1); auto.
      rewrite T, length_app. simpl. lia. }
    destruct (get_confidence_mouse_returns before2 t2 after s1 eq_refl M2 C2 L2)
      as (i & Conf).
    assert (Pre : exists e0,
               when ext
                 (emit (Serial [FStr ("RECORDING_" +++ str (trial_num + 1) +++ ";")]) ;;;
                  emit (Serial [FStr "QUESTION;"])) s = (Done tt, e0, s)).
    { destruct ext; eexists; reflexivity. }
    destruct Pre as (e0 & Pre).
    assert (Post : forall button code conf s2, exists e9,
               (when ext (emit (Serial (responses_message button code conf))) ;;;
                ret (button, code, conf)) s2 = (Done (button, code, conf), e9, s2)).
    { intros. destruct ext; eexists; reflexivity. }
    destruct p as [| [| p]]; [| | lia].
    - destruct (Post "Sound 1" 1%Z (Slider.draw (fold_left track before2 i) t2)
                  (State after (draws s1) (S (cursor s1)))) as (e9 & P9).
      exists "Sound 1", 1%Z. eexists _, _, _. split; [| split; [left; auto |]].
      + eapply bind_returns; [exact Pre |].
        eapply bind_returns; [reflexivity |].
        eapply bind_returns; [apply show_question_run |].
        eapply bind_returns; [reflexivity |].
        eapply bind_returns; [exact Choice |].
        eapply bind_returns; [reflexivity |].
        eapply bind_returns; [exact Conf |].
        do 4 (eapply bind_returns; [reflexivity |]).
        eapply bind_returns; [reflexivity |].
        exact P9.
      + reflexivity.
    - destruct (Post "Sound 2" 2%Z (Slider.draw (fold_left track before2 i) t2)
                  (State after (draws s1) (S (cursor s1)))) as (e9 & P9).
      exists "Sound 2", 2%Z. eexists _, _, _. split; [| split; [right; auto |]].
      + eapply bind_returns; [exact Pre |].
        eapply bind_returns; [reflexivity |].
        eapply bind_returns; [apply show_question_run |].
        eapply bind_returns; [reflexivity |].
        eapply bind_returns; [exact Choice |].
        eapply bind_returns; [reflexivity |].
        eapply bind_returns; [exact Conf |].
        do 4 (eapply bind_returns; [reflexivity |]).
        eapply bind_returns; [reflexivity |].
        exact P9.
      + reflexivity. }
  destruct R as (b & c & q & evs & s' & R & PA & TS).
  exists b, c, q, (pre ++ evs), s'. rewrite R. auto.
Qed.

(** ** The suffix of the log name, below [z] *)

Lemma length_append (a b : string) :
  String.length (a +++ b) = String.length a + String.length b.
Proof. induction a as [| ch a IH]; simpl; [reflexivity | now rewrite IH]. Qed.

Lemma prefix_append (a b : string) : String.prefix a (a +++ b) = true.
Proof.
  induction a as [| ch a IH]; simpl; [now destruct b |].
  destruct (ascii_dec ch ch); [exact IH | contradiction].
Qed.

Lemma append_inv_head (a x y : string) : a +++ x = a +++ y -> x = y.
Proof. induction a as [| ch a IH]; simpl; [auto | intros [= H]; auto]. Qed.

Lemma substring_append_skip (a b : string) n m :
  substring (String.length a + n) m (a +++ b) = substring n m b.
Proof. induction a as [| ch a IH]; simpl; [reflexivity | exact IH]. Qed.

Lemma substring_all (b : string) : substring 0 (String.length b) b = b.
Proof. induction b as [| ch b IH]; simpl; [reflexivity | now rewrite IH]. Qed.

Lemma endswith_append (a b : string) : endswith b (a +++ b) = true.
Proof.
  unfold endswith. rewrite length_append.
  replace (String.length a + String.length b - String.length b) with (String.length a + 0)
    by lia.
  rewrite substring_append_skip, substring_all, String.eqb_refl.
  rewrite andb_true_r. apply Nat.leb_le. lia.
Qed.

Section Suffixed.
Variables (base_name : string) (c : ascii).

Lemma suffixed_has_prefix : startswith base_name (suffixed base_name c) = true.
Proof. apply prefix_append. Qed.

Lemma suffixed_is_not_base : suffixed base_name c <> base_name +++ ".tsv".
Proof. intros H. apply append_inv_head in H. discriminate H. Qed.

Lemma suffixed_has_underscore :
  startswith (base_name +++ "_") (suffixed base_name c) = true.
Proof.
  unfold suffixed, startswith. rewrite <- append_assoc. apply prefix_append.
Qed.

Lemma suffixed_has_extension : endswith ".tsv" (suffixed base_name c) = true.
Proof.
  unfold suffixed. rewrite <- (append_assoc "_"), <- append_assoc.
  apply endswith_append.
Qed.

Lemma suffixed_slice :
  slice_to_neg (String.length base_name + 1) 4 (suffixed base_name c)
  = String c EmptyString.
Proof.
  unfold slice_to_neg, suffixed. rewrite length_append. cbn [String.length append].
  replace (String.length base_name + 6 - 4 - (String.length base_name + 1)) with 1 by lia.
  rewrite substring_append_skip. reflexivity.
Qed.

End Suffixed.

Lemma suffix_indices_found base_name c files :
  In (suffixed base_name c) files ->
  isalpha c = true ->
  In (ord (lower c) - ord "a"%char)%Z (suffix_indices base_name files).
Proof.
  intros Hin Ha. induction files as [| file rest IH]; [contradiction |].
  cbn [suffix_indices]. destruct Hin as [-> | Hin].
  - destruct (String.eqb_spec (suffixed base_name c) (base_name +++ ".tsv")) as [E | _];
      [now apply suffixed_is_not_base in E |].
    rewrite suffixed_has_underscore, suffixed_has_extension, suffixed_slice. cbn [andb].
    rewrite Ha. now left.
  - specialize (IH Hin).
    destruct (String.eqb file (base_name +++ ".tsv")); [exact IH |].
    destruct (_ && _); [| exact IH].
    destruct (slice_to_neg _ _ _) as [| ch [| ? ?]]; try exact IH.
    destruct (isalpha ch); [now right | exact IH].
Qed.

Lemma max_list_bounds d l :
  (d <= max_list d l)%Z
  /\ Forall (fun i => (i <= max_list d l)%Z) l
  /\ In (max_list d l) (d :: l).
Proof.
  unfold max_list. revert d. induction l as [| x l IH]; intros d; simpl.
  - split; [lia |]. split; [constructor | now left].
  - destruct (IH (Z.max d x)) as (H1 & H2 & H3). split; [lia |]. split.
    + constructor; [lia | exact H2].
    + destruct H3 as [H3 | H3]; [| now right; right].
      rewrite <- H3. destruct (Z.max_spec d x) as [[_ ->] | [_ ->]]; auto.
Qed.

Lemma ord_chr z : (0 <= z < 256)%Z -> ord (chr z) = z.
Proof.
  intros H. unfold ord, chr. rewrite nat_ascii_embedding by lia. lia.
Qed.

Lemma lowercase_is_alpha c : lowercase c -> isalpha c = true /\ lower c = c.
Proof.
  destruct c as [[] [] [] [] [] [] [] []]; vm_compute; intros [H1 H2];
    first [ split; reflexivity
          | exfalso; apply H1; reflexivity
          | exfalso; apply H2; reflexivity ].
Qed.

(** No letter comes before [a] once lowered. *)
Lemma letter_index_range c :
  isalpha c = true -> (0 <= ord (lower c) - ord "a"%char)%Z.
Proof.
  destruct c as [[] [] [] [] [] [] [] []]; vm_compute; intros H;
    try discriminate H; intros G; discriminate G.
Qed.

Lemma suffix_indices_range base_name files :
  Forall (fun i => (0 <= i)%Z) (suffix_indices base_name files).
Proof.
  induction files as [| file rest IH]; cbn [suffix_indices]; [constructor |].
  destruct (String.eqb file (base_name +++ ".tsv")); [exact IH |].
  destruct (_ && _); [| exact IH].
  destruct (slice_to_neg _ _ _) as [| ch [| ? ?]]; try exact IH.
  destruct (isalpha ch) eqn:A; [| exact IH].
  constructor; [now apply letter_index_range | exact IH].
Qed.

(** X7.  As long as no letter from [z] on is in use, the suffix chosen when
    the base file exists is a lowercase letter that comes after every
    letter in use, and no file of the directory bears the chosen name.
    The letters in use are those [isalpha] accepts, lowered: a suffix
    such as e-acute is one, far beyond [z].  File names are strings of
    characters below U+0100. *)
Lemma next_suffix_is_an_unused_letter fs save_dir participant_id :
  os_path_exists fs
    (os_path_join save_dir (base_name_of participant_id) +++ ".tsv") = true ->
  Forall (fun i => (i < 25)%Z) (letters_in_use fs save_dir participant_id) ->
  exists c,
    log_file_name fs save_dir participant_id
    = os_path_join save_dir (suffixed (base_name_of participant_id) c)
    /\ lowercase c
    /\ Forall (fun i => (i < ord c - ord "a"%char)%Z)
         (letters_in_use fs save_dir participant_id)
    /\ ~ In (suffixed (base_name_of participant_id) c) (os_listdir fs save_dir).
Proof.
  intros Hbase Hlow. unfold log_file_name.
  fold (base_name_of participant_id). rewrite Hbase.
  fold (letters_in_use fs save_dir participant_id).
  set (indices := letters_in_use fs save_dir participant_id) in *.
  set (next := match indices with [] => 0%Z | i :: r => (max_list i r + 1)%Z end).
  assert (Hnext : (0 <= next <= 25)%Z /\ Forall (fun i => (i < next)%Z) indices).
  { pose proof (suffix_indices_range (base_name_of participant_id)
                  (filter (startswith (base_name_of participant_id))
                     (os_listdir fs save_dir))) as Hpos.
    fold (letters_in_use fs save_dir participant_id) in Hpos. fold indices in Hpos.
    subst next. destruct indices as [| i r] eqn:E; [split; [lia | constructor] |].
    destruct (max_list_bounds i r) as (H1 & H2 & H3).
    assert (Hm : (0 <= max_list i r < 25)%Z).
    { rewrite Forall_forall in Hlow, Hpos.
      specialize (Hlow _ H3). specialize (Hpos _ H3). lia. }
    split.
    - lia.
    - constructor; [lia |]. eapply Forall_impl; [| exact H2]. cbn beta. intros; lia. }
  destruct Hnext as [Hrange Hbelow].
  exists (chr (ord "a"%char + next)).
  assert (Hord : ord (chr (ord "a"%char + next)) = (97 + next)%Z).
  { apply ord_chr. change (ord "a"%char) with 97%Z. lia. }
  assert (Hlc : lowercase (chr (ord "a"%char + next))).
  { unfold lowercase. rewrite Hord. lia. }
  split; [reflexivity |]. split; [exact Hlc |]. split.
  - rewrite Hord. change (ord "a"%char) with 97%Z.
    eapply Forall_impl; [| exact Hbelow]. cbn beta. intros; lia.
  - intros Hin.
    destruct (lowercase_is_alpha _ Hlc) as [Ha Hl].
    assert (Hfound : In (ord (lower (chr (ord "a"%char + next))) - ord "a"%char)%Z indices).
    { subst indices. unfold letters_in_use. apply suffix_indices_found; [| exact Ha].
      apply filter_In. split; [exact Hin | apply suffixed_has_prefix]. }
    rewrite Hl, Hord in Hfound. change (ord "a"%char) with 97%Z in Hfound.
    replace (97 + next - 97)%Z with next in Hfound by lia.
    rewrite Forall_forall in Hbelow. specialize (Hbelow _ Hfound). lia.
Qed.

(** * Further properties of the program *)

(** ** Loops that only pause *)

Lemma countdown_waits limit :
  yields (countdown limit)
    (fun _ evs => Forall is_wait evs) (fun why evs => Forall is_wait evs /\ no_crash why).
Proof.
  unfold countdown. ystep.
  induction n as [| n IH]; simpl.
  - ystep. split; [constructor | now right].
  - ystep; [split; [constructor | now right] |].
    ystep; [| ystep; constructor].
    ystep. ystep.
    + ystep. split; [repeat constructor; now eexists | now left].
    + eapply yields_weaken; [exact IH | |]; cbn beta.
      * intros _ evs H. constructor; [now eexists | exact H].
      * intros why evs [H N]. split; [constructor; [now eexists | exact H] | exact N].
Qed.

Lemma start_countdown_waits :
  yields start_countdown
    (fun _ evs => Forall is_wait evs)
    (fun why evs => Forall is_wait evs /\ why = Blocked).
Proof.
  unfold start_countdown. ystep.
  induction n as [| n IH]; simpl.
  - ystep. split; [constructor | reflexivity].
  - ystep; [split; [constructor | reflexivity] |].
    ystep; [| ystep; constructor].
    ystep.
    eapply yields_weaken; [exact IH | |]; cbn beta.
    + intros _ evs H. constructor; [now eexists | exact H].
    + intros why evs [H N]. split; [constructor; [now eexists | exact H] | exact N].
Qed.

Lemma confidence_loop_waits n marker :
  yields (confidence_loop n marker)
    (fun _ evs => Forall is_wait evs) (fun why evs => evs = [] /\ no_crash why).
Proof.
  revert marker. induction n as [| n IH]; intros marker; simpl.
  - ystep. stopped.
  - repeat ystep; try stopped; try (repeat constructor; now eexists).
    apply IH.
Qed.

Lemma get_confidence_mouse_waits :
  yields get_confidence_mouse
    (fun _ evs => Forall is_wait evs) (fun why evs => evs = [] /\ no_crash why).
Proof.
  unfold get_confidence_mouse.
  eapply yields_silent_then; [apply uniform_20_80 |].
  intros q _. ystep. apply confidence_loop_waits.
Qed.

Lemma question_loop_waits n use_mouse scale marker :
  yields (question_loop n use_mouse scale marker)
    (fun _ evs => Forall is_wait evs) (fun why evs => evs = [] /\ no_crash why).
Proof.
  revert marker. induction n as [| n IH]; intros marker; simpl.
  - ystep. stopped.
  - repeat ystep; try stopped; try (repeat constructor; now eexists); apply IH.
Qed.

Lemma waits_send_nothing evs : Forall is_wait evs -> serials evs = [].
Proof.
  induction 1 as [| e r [q ->] _ IH]; [reflexivity | exact IH].
Qed.

Lemma serials_app a b : serials (a ++ b) = serials a ++ serials b.
Proof. apply flat_map_app. Qed.

(** ** What each piece sends over the serial line *)

Ltac ssimpl :=
  unfold serials in *;
  repeat first [rewrite flat_map_app | progress cbn [flat_map app]].

Lemma present_live_serial caption duration ext dbg :
  yields (present_live caption duration ext dbg)
    (fun _ evs =>
       serials evs = if_external ext [message "LIVE START;"; message "LIVE END;"])
    (fun _ _ => False).
Proof. unfold present_live. destruct ext, dbg; cbn [when]; repeat ystep; reflexivity. Qed.

Lemma present_recorded_serial caption debug_caption f announce ext dbg :
  yields (present_recorded caption debug_caption f announce ext dbg)
    (fun _ evs =>
       serials evs
       = if_external ext
           ((if announce then [message "REC START;"] else []) ++ [message "REC END;"]))
    (fun _ _ => False).
Proof.
  unfold present_recorded.
  destruct announce, ext, dbg; cbn [when andb]; repeat ystep; reflexivity.
Qed.

Lemma present_pair_serial duration loc f ext dbg :
  yields (present_pair duration loc f ext dbg)
    (fun _ evs => serials evs = if_external ext (pair_messages loc))
    (fun _ _ => False).
Proof.
  unfold present_pair, pair_messages.
  destruct (loc =? 1)%Z.
  - eapply yields_bind; [apply present_live_serial | auto |].
    intros [] e1 H1. ystep.
    eapply yields_weaken; [apply present_recorded_serial | | auto].
    intros [] e2 H2. ssimpl. rewrite H1, H2. now destruct ext.
  - eapply yields_bind; [apply present_recorded_serial | auto |].
    intros [] e1 H1. ystep.
    eapply yields_weaken; [apply present_live_serial | | auto].
    intros [] e2 H2. ssimpl. rewrite H1, H2. now destruct ext.
Qed.

Lemma training_response_serial ext :
  yields (training_response ext)
    (fun r evs => serials evs = if_external ext [report r])
    (fun why evs => serials evs = [] /\ no_crash why).
Proof.
  unfold training_response, show_question. repeat ystep.
  eapply yields_bind; [apply training_choice_loop_spec | intros ? ? [-> ?]; now split |].
  intros p ? [-> Hp]. cbn [app].
  eapply yields_silent_then; [now apply response_code_of_button |]. intros c Hc.
  eapply yields_bind;
    [apply get_confidence_mouse_waits | intros ? ? [-> ?]; now split |].
  intros q e1 He1. apply waits_send_nothing in He1. repeat ystep.
  eapply yields_silent_then; [now apply label_of_button |]. intros b Hb.
  destruct ext; cbn [when]; repeat ystep; ssimpl; now rewrite He1.
Qed.

Lemma record_and_respond_serial fs duration t dir ext :
  yields (record_and_respond fs duration t dir ext)
    (fun r evs => serials evs = if_external ext (recording_messages t ++ [report r]))
    (fun why evs => serials evs = if_external ext (recording_messages t) /\ no_crash why).
Proof.
  unfold record_and_respond, show_question, recording_messages.
  destruct ext; cbn [when]; repeat ystep.
  all: eapply yields_bind;
    [apply trial_choice_loop_spec | intros ? ? [-> ?]; now split |].
  all: intros p ? [-> Hp]; cbn [app].
  all: eapply yields_silent_then; [now apply response_code_of_button |]; intros c Hc.
  all: eapply yields_bind;
    [apply get_confidence_mouse_waits | intros ? ? [-> ?]; now split |].
  all: intros q e1 He1; apply waits_send_nothing in He1; repeat ystep.
  all: eapply yields_silent_then; [now apply label_of_button |]; intros b Hb.
  all: repeat ystep; ssimpl; now rewrite He1.
Qed.

Lemma run_training_serial duration f ext dbg :
  yields (run_training duration f ext dbg)
    (fun r evs =>
       serials evs
       = if_external ext
           [message "LIVE START;"; message "LIVE END;"; message "REC END;"; report r])
    (fun why evs =>
       serials evs
       = if_external ext [message "LIVE START;"; message "LIVE END;"; message "REC END;"]
       /\ no_crash why).
Proof.
  unfold run_training. repeat ystep.
  eapply yields_bind; [apply present_live_serial | contradiction |].
  intros [] e1 H1. ystep.
  eapply yields_bind; [apply present_recorded_serial | contradiction |].
  intros [] e2 H2.
  eapply yields_weaken; [apply training_response_serial | |].
  - intros r e3 H3. ssimpl. rewrite H1, H2, H3. now destruct ext.
  - intros why e3 [H3 N]. split; [| exact N].
    ssimpl. rewrite H1, H2, H3. now destruct ext.
Qed.

Lemma run_discrimination_trial_serial fs duration t loc dir f ext dbg :
  yields (run_discrimination_trial fs duration t loc dir f ext dbg)
    (fun r evs =>
       serials evs
       = if_external ext (pair_messages loc ++ recording_messages t ++ [report r]))
    (fun why evs =>
       serials evs = if_external ext (pair_messages loc ++ recording_messages t)
       /\ no_crash why).
Proof.
  unfold run_discrimination_trial. repeat ystep.
  eapply yields_bind; [apply present_pair_serial | contradiction |].
  intros [] e1 H1.
  eapply yields_weaken; [apply record_and_respond_serial | |].
  - intros r e3 H3. ssimpl. rewrite H1, H3. now destruct ext.
  - intros why e3 [H3 N]. split; [| exact N]. ssimpl. rewrite H1, H3. now destruct ext.
Qed.

Lemma run_instructions_calibration_serial fs duration dir ext dbg :
  yields (run_instructions_calibration fs duration dir ext dbg)
    (fun _ evs =>
       serials evs = if_external ext [message "RECORDING_0;"; message "INSTRUCTIONS;"])
    (fun why evs =>
       serials evs = if_external ext [message "RECORDING_0;"; message "INSTRUCTIONS;"]
       /\ no_crash why).
Proof.
  unfold run_instructions_calibration.
  ystep. destruct ext; cbn [when]; repeat ystep.
  all: eapply yields_bind;
    [apply show_instructions_list_spec | intros why e1 [-> N]; now split |].
  all: intros [] ? ->; cbn [app]; ystep.
  all: eapply yields_bind;
    [apply countdown_waits
    | intros why e1 [H N]; apply waits_send_nothing in H; split;
      [ssimpl; now rewrite H | exact N] |].
  all: intros [] e1 H1; apply waits_send_nothing in H1; repeat ystep.
  all: eapply yields_bind;
    [apply countdown_waits
    | intros why e2 [H N]; apply waits_send_nothing in H; split;
      [ssimpl; now rewrite H1, H | exact N] |].
  all: intros [] e2 H2; apply waits_send_nothing in H2; repeat ystep.
  all: ssimpl; now rewrite H1, H2.
Qed.

Lemma get_post_task_qs_serial csv qs ext use_mouse :
  yields (get_post_task_qs csv qs ext use_mouse)
    (fun _ evs => serials evs = []) (fun why evs => serials evs = [] /\ no_crash why).
Proof.
  induction qs as [| q rest IH]; simpl.
  - ystep. reflexivity.
  - eapply yields_silent_then; [apply uniform_20_80 |]. intros m Hm. ystep.
    eapply yields_bind; [apply question_loop_waits | intros ? ? [-> ?]; now split |].
    intros v e1 H1. apply waits_send_nothing in H1. ystep.
    eapply yields_weaken; [exact IH | |].
    + intros [] e2 H2. ssimpl. now rewrite H1, H2.
    + intros why e2 [H2 N]. split; [| exact N]. ssimpl. now rewrite H1, H2.
Qed.

(** ** The serial line over the session *)

Lemma inner_serial_nil ext : inner_serial ext [].
Proof. destruct ext; [constructor | reflexivity]. Qed.

Lemma inner_serial_app ext a b :
  inner_serial ext a -> inner_serial ext b -> inner_serial ext (a ++ b).
Proof.
  unfold inner_serial. rewrite serials_app. destruct ext.
  - intros. now apply Forall_app.
  - now intros -> ->.
Qed.

Lemma inner_serial_of ext evs ms :
  serials evs = if_external ext ms -> Forall inner_message ms -> inner_serial ext evs.
Proof. unfold inner_serial. intros -> H. now destruct ext. Qed.

Ltac inner := unfold message, report, responses_message; cbn [append]; split; discriminate.

Lemma inner_pair_messages loc : Forall inner_message (pair_messages loc).
Proof.
  unfold pair_messages. destruct (loc =? 1)%Z; repeat (constructor; [inner |]); constructor.
Qed.

Lemma inner_recording_messages t : Forall inner_message (recording_messages t).
Proof. unfold recording_messages. repeat (constructor; [inner |]). constructor. Qed.

Lemma inner_report r : inner_message (report r).
Proof. destruct r as [[b c] q]. inner. Qed.

Section SerialPieces.
Variable ext : bool.

Lemma serial_wait_for_key_press :
  keeps (inner_serial ext) wait_for_key_press (fun _ _ => True).
Proof.
  eapply yields_weaken; [apply wait_for_key_press_spec | |].
  - intros [] evs ->. split; [apply inner_serial_nil | exact I].
  - intros why evs [-> N]. split; [apply inner_serial_nil | exact N].
Qed.

Lemma plays_send_nothing f evs : Forall (eq (Play f)) evs -> serials evs = [].
Proof. induction 1 as [| e r <- _ IH]; [reflexivity | exact IH]. Qed.

Lemma serial_play_sound_on_click f :
  keeps (inner_serial ext) (play_sound_on_click f) (fun _ _ => True).
Proof.
  eapply yields_weaken; [apply play_sound_on_click_spec | |].
  - intros [] evs H. apply plays_send_nothing in H.
    split; [apply (inner_serial_of _ _ []); [now destruct ext | constructor] | exact I].
  - intros why evs [H N]. apply plays_send_nothing in H.
    split; [apply (inner_serial_of _ _ []); [now destruct ext | constructor] | exact N].
Qed.

Lemma serial_start_countdown :
  keeps (inner_serial ext) start_countdown (fun _ _ => True).
Proof.
  eapply yields_weaken; [apply start_countdown_waits | |].
  - intros [] evs H. apply waits_send_nothing in H.
    split; [apply (inner_serial_of _ _ []); [now destruct ext | constructor] | exact I].
  - intros why evs [H ->]. apply waits_send_nothing in H.
    split; [apply (inner_serial_of _ _ []); [now destruct ext | constructor] | now right].
Qed.

Lemma serial_calibration fs duration dir dbg :
  keeps (inner_serial ext) (run_instructions_calibration fs duration dir ext dbg)
    (fun _ _ => True).
Proof.
  eapply yields_weaken; [apply run_instructions_calibration_serial | |].
  - intros [] evs H. split; [| exact I].
    eapply inner_serial_of; [exact H |]. repeat (constructor; [inner |]). constructor.
  - intros why evs [H N]. split; [| exact N].
    eapply inner_serial_of; [exact H |]. repeat (constructor; [inner |]). constructor.
Qed.

Lemma serial_run_training duration f dbg :
  keeps (inner_serial ext) (run_training duration f ext dbg) (fun _ _ => True).
Proof.
  eapply yields_weaken; [apply run_training_serial | |].
  - intros r evs H. split; [| exact I].
    eapply inner_serial_of; [exact H |].
    repeat (constructor; [first [apply inner_report | inner] |]). constructor.
  - intros why evs [H N]. split; [| exact N].
    eapply inner_serial_of; [exact H |]. repeat (constructor; [inner |]). constructor.
Qed.

Lemma serial_trial fs duration t loc dir f dbg :
  keeps (inner_serial ext) (run_discrimination_trial fs duration t loc dir f ext dbg)
    (fun _ _ => True).
Proof.
  eapply yields_weaken; [apply run_discrimination_trial_serial | |].
  - intros r evs H. split; [| exact I].
    eapply inner_serial_of; [exact H |].
    apply Forall_app. split; [apply inner_pair_messages |].
    apply Forall_app. split; [apply inner_recording_messages |].
    constructor; [apply inner_report | constructor].
  - intros why evs [H N]. split; [| exact N].
    eapply inner_serial_of; [exact H |].
    apply Forall_app. split; [apply inner_pair_messages | apply inner_recording_messages].
Qed.

Lemma serial_questions csv qs use_mouse :
  keeps (inner_serial ext) (get_post_task_qs csv qs ext use_mouse) (fun _ _ => True).
Proof.
  eapply yields_weaken; [apply get_post_task_qs_serial | |].
  - intros [] evs H. split; [| exact I].
    apply (inner_serial_of _ _ []); [now destruct ext | constructor].
  - intros why evs [H N]. split; [| exact N].
    apply (inner_serial_of _ _ []); [now destruct ext | constructor].
Qed.

Lemma serial_emit e :
  (forall m, e <> Serial m) -> keeps (inner_serial ext) (emit e) (fun _ _ => True).
Proof.
  intros H. apply keeps_emit; [| exact I].
  apply (inner_serial_of _ _ []); [| constructor].
  destruct e; try (now destruct ext). now destruct (H msg).
Qed.

End SerialPieces.

Ltac scall lem :=
  eapply keeps_bind; [apply inner_serial_app | apply lem |]; intros ? ? _.

Ltac semit :=
  eapply keeps_bind; [apply inner_serial_app | apply serial_emit; discriminate |];
  intros ? ? _.

Lemma serial_when_message ext s :
  inner_message (message s) ->
  keeps (inner_serial ext) (when ext (emit (Serial (message s)))) (fun _ _ => True).
Proof.
  intros H. destruct ext; cbn [when].
  - apply keeps_emit; [| exact I].
    unfold inner_serial. cbn. constructor; [exact H | constructor].
  - apply keeps_ret; [reflexivity | exact I].
Qed.

Lemma serial_checkpoint ext b csv qs :
  keeps (inner_serial ext)
    (when b (get_post_task_qs csv qs ext true ;;; wait_for_key_press)) (fun _ _ => True).
Proof.
  destruct b; cbn [when].
  - scall serial_questions. eapply keeps_weaken; [apply serial_wait_for_key_press | auto].
  - apply keeps_ret; [apply inner_serial_nil | exact I].
Qed.

Lemma serial_trial_loop csv dir fs duration ext dbg stim_order ts :
  (30 <= Z.of_nat (List.length stim_order))%Z ->
  Forall (fun t => (0 <= t <= 29)%Z) ts ->
  keeps (inner_serial ext) (trial_loop ts stim_order fs duration csv dir ext dbg)
    (fun _ _ => True).
Proof.
  intros Hlen. induction ts as [| t rest IH]; intros Hts; cbn [trial_loop].
  - apply keeps_ret; [apply inner_serial_nil | exact I].
  - apply Forall_cons_iff in Hts. destruct Hts as [Ht Hrest]. specialize (IH Hrest).
    eapply keeps_bind;
      [apply inner_serial_app
      | apply (serial_when_message ext ("TRIAL_" +++ str t +++ "-COND_" +++ condition t +++ ";"));
        inner |].
    intros [] ? _.
    eapply keeps_silent_then; [apply (item_in_range stim_order t); lia |]. intros loc _.
    eapply keeps_bind; [apply inner_serial_app | apply serial_trial |].
    intros [[b c] q] ? _. cbn beta iota.
    semit.
    scall serial_checkpoint.
    scall serial_checkpoint.
    destruct (t =? 29)%Z.
    + scall serial_questions. semit.
      eapply keeps_weaken; [apply serial_emit; discriminate | auto].
    + eapply keeps_weaken; [exact IH | auto].
Qed.

Lemma closing_after ext {A} (m : M A) (f : A -> M unit) R :
  keeps (inner_serial ext) m R ->
  (forall a e1, R a e1 ->
     yields (f a) (fun _ e => closing_serial ext e)
       (fun why e => inner_serial ext e /\ no_crash why)) ->
  yields (bind m f) (fun _ e => closing_serial ext e)
    (fun why e => inner_serial ext e /\ no_crash why).
Proof.
  intros Hm Hf. eapply yields_bind; [exact Hm | auto |].
  intros a e1 [I1 Ra]. eapply yields_weaken; [apply (Hf a e1 Ra) | |]; cbn beta.
  - intros [] e2 (mid & S2 & F2). unfold inner_serial in I1. destruct ext.
    + exists (serials e1 ++ mid). split.
      * rewrite serials_app, S2. cbn [if_external]. now rewrite app_assoc.
      * now apply Forall_app.
    + exists []. split; [| constructor]. rewrite serials_app, S2, I1. reflexivity.
  - intros why e2 [I2 N]. split; [now apply inner_serial_app | exact N].
Qed.

Ltac ccall lem := eapply closing_after; [apply lem |]; intros ? ? _.

Ltac cemit := eapply closing_after; [apply serial_emit; discriminate |]; intros ? ? _.

(** The serial line of the whole session: the opening message, inner
    messages, and the closing message only when the session runs to its
    end; nothing at all without the device. *)
Lemma session_serial files participant_id sound_dir save_dir ext dbg :
  yields (run_gastric_stethoscope_self files participant_id sound_dir save_dir ext dbg)
    (fun _ evs =>
       exists mid,
         serials evs
         = if_external ext (message "START TASK;" :: mid ++ [message "END TASK;"])
         /\ Forall inner_message mid)
    (fun why evs =>
       exists mid,
         serials evs = if_external ext (message "START TASK;" :: mid)
         /\ Forall inner_message mid).
Proof.
  unfold run_gastric_stethoscope_self.
  set (csv := log_file_name files save_dir participant_id).
  set (dir := os_path_join sound_dir "gastric_sounds").
  assert (Open : forall k : M unit,
    yields k (fun _ e => closing_serial ext e)
      (fun why e => inner_serial ext e /\ no_crash why) ->
    yields (when ext (emit (Serial [FStr "START TASK;"])) ;;; k)
      (fun _ evs =>
         exists mid,
           serials evs
           = if_external ext (message "START TASK;" :: mid ++ [message "END TASK;"])
           /\ Forall inner_message mid)
      (fun why evs =>
         exists mid,
           serials evs = if_external ext (message "START TASK;" :: mid)
           /\ Forall inner_message mid)).
  { intros k Hk. unfold closing_serial, inner_serial in Hk.
    destruct ext; cbn [when if_external] in *; ystep.
    - eapply yields_weaken; [exact Hk | |]; cbn beta.
      + intros [] e (mid & S & F). exists mid. split; [| exact F].
        ssimpl. now rewrite S.
      + intros why e [F _]. now exists (serials e).
    - eapply yields_weaken; [exact Hk | |]; cbn beta.
      + intros [] e (mid & S & F). now exists [].
      + intros why e [S _]. now exists []. }
  apply Open. clear Open.
  cemit.
  cemit.
  cemit.
  ccall serial_play_sound_on_click.
  ccall serial_calibration.
  ccall serial_wait_for_key_press.
  ccall serial_play_sound_on_click.
  ccall serial_wait_for_key_press.
  eapply closing_after; [apply serial_run_training |].
  intros [[b c] q] ? _. cbn beta iota.
  cemit.
  ccall serial_wait_for_key_press.
  cemit.
  ccall serial_questions.
  ccall serial_start_countdown.
  eapply yields_silent_then; [apply stim_order_codes |]. intros plan [Hlen Hcodes].
  eapply closing_after;
    [apply serial_trial_loop; [exact Hlen | apply trial_indices] |].
  intros [] ? _.
  destruct ext; cbn [when]; ystep.
  - exists []. split; [reflexivity | constructor].
  - exists []. split; [reflexivity | constructor].
Qed.

(** X1.  Without the external device the session sends nothing over the
    serial line, however it ends. *)
Theorem nothing_sent_without_the_device :
  forall files participant_id sound_dir save_dir dbg s,
    serials
      (snd (fst (run_gastric_stethoscope_self
                   files participant_id sound_dir save_dir false dbg s)))
    = [].
Proof.
  intros files participant_id sound_dir save_dir dbg s.
  pose proof (session_serial files participant_id sound_dir save_dir false dbg s) as H.
  destruct (run_gastric_stethoscope_self _ _ _ _ _ _ s) as [[[[] | why] evs] s'];
    cbn [fst snd]; now destruct H as (mid & H & _).
Qed.

(** X2.  With the external device the session opens the serial line with
    [START TASK;].  [END TASK;] is its last message when the session runs
    to its end, and is not sent at all when the session stops early; no
    other message repeats either of the two. *)
Theorem serial_line_is_framed :
  forall files participant_id sound_dir save_dir dbg s,
    match run_gastric_stethoscope_self files participant_id sound_dir save_dir true dbg s
    with
    | (Done _, evs, _) =>
        exists mid,
          serials evs = message "START TASK;" :: mid ++ [message "END TASK;"]
          /\ Forall inner_message mid
    | (Stop _, evs, _) =>
        exists mid,
          serials evs = message "START TASK;" :: mid /\ Forall inner_message mid
    end.
Proof.
  intros files participant_id sound_dir save_dir dbg s.
  exact (session_serial files participant_id sound_dir save_dir true dbg s).
Qed.

(** X3.  With the external device a discrimination trial sends, in this
    order: the start and end messages of its two sounds in the order the
    sounds are presented, [RECORDING_<t+1>;] and [QUESTION;] when the
    capture for the next trial starts, and the [RESPONSES] message with
    what it returns.  A trial that stops early has sent all but the last. *)
Theorem trial_serial_protocol :
  forall fs duration t loc dir f dbg s,
    match run_discrimination_trial fs duration t loc dir f true dbg s with
    | (Done r, evs, _) =>
        serials evs = pair_messages loc ++ recording_messages t ++ [report r]
    | (Stop _, evs, _) => serials evs = pair_messages loc ++ recording_messages t
    end.
Proof.
  intros fs duration t loc dir f dbg s.
  pose proof (run_discrimination_trial_serial fs duration t loc dir f true dbg s) as H.
  destruct (run_discrimination_trial _ _ _ _ _ _ _ _ s) as [[[r | why] evs] s'];
    [exact H | now destruct H].
Qed.

(** X4.  With the external device the training trial sends [LIVE START;],
    [LIVE END;], [REC END;] and then the [RESPONSES] message: the playback
    of the recorded sound is closed by [REC END;] but, unlike in a
    discrimination trial, never opened by [REC START;]. *)
Theorem training_serial_protocol :
  forall duration f dbg s,
    match run_training duration f true dbg s with
    | (Done r, evs, _) =>
        serials evs
        = [message "LIVE START;"; message "LIVE END;"; message "REC END;"; report r]
    | (Stop _, evs, _) =>
        serials evs = [message "LIVE START;"; message "LIVE END;"; message "REC END;"]
    end.
Proof.
  intros duration f dbg s.
  pose proof (run_training_serial duration f true dbg s) as H.
  destruct (run_training _ _ _ _ s) as [[[r | why] evs] s'];
    [exact H | now destruct H].
Qed.

(** ** Captures *)

Lemma waits_are_no_capture evs : Forall is_wait evs -> capture_steps evs = [].
Proof. induction 1 as [| e r [q ->] _ IH]; [reflexivity | exact IH]. Qed.

Ltac csimpl :=
  unfold capture_steps in *;
  repeat first [rewrite filter_app | progress cbn [filter is_capture_step app]].

Lemma record_and_respond_captures fs duration t dir ext :
  yields (record_and_respond fs duration t dir ext)
    (fun _ evs =>
       capture_steps evs
       = [Record_start (duration * fs); Record_wait; Save (gastric_rec dir (t + 1))])
    (fun why evs => capture_steps evs = [Record_start (duration * fs)]).
Proof.
  unfold record_and_respond, show_question, gastric_rec.
  destruct ext; cbn [when]; repeat ystep.
  all: eapply yields_bind;
    [apply trial_choice_loop_spec | intros ? ? [-> ?]; reflexivity |].
  all: intros p ? [-> Hp]; cbn [app].
  all: eapply yields_silent_then; [now apply response_code_of_button |]; intros c Hc.
  all: eapply yields_bind;
    [apply get_confidence_mouse_waits | intros ? ? [-> ?]; reflexivity |].
  all: intros q e1 He1; apply waits_are_no_capture in He1; repeat ystep.
  all: eapply yields_silent_then; [now apply label_of_button |]; intros b Hb.
  all: repeat ystep; csimpl; now rewrite He1.
Qed.

Lemma stimuli_are_no_capture duration loc f ext dbg :
  yields (present_pair duration loc f ext dbg)
    (fun _ evs => capture_steps evs = []) (fun _ _ => False).
Proof.
  unfold present_pair, present_live, present_recorded.
  destruct (loc =? 1)%Z, ext, dbg; cbn [when andb]; repeat ystep; reflexivity.
Qed.

(** X5.  A discrimination trial starts the capture for the next trial
    before it collects the responses, and awaits and stores it, as
    [gastric_rec_<t+1>.wav], only after the confidence rating.  A trial
    that stops early has started the capture and stores nothing. *)
Theorem trial_capture_protocol :
  forall fs duration t loc dir f ext dbg s,
    match run_discrimination_trial fs duration t loc dir f ext dbg s with
    | (Done _, evs, _) =>
        capture_steps evs
        = [Record_start (duration * fs); Record_wait; Save (gastric_rec dir (t + 1))]
    | (Stop _, evs, _) => capture_steps evs = [Record_start (duration * fs)]
    end.
Proof.
  intros fs duration t loc dir f ext dbg.
  change (yields (run_discrimination_trial fs duration t loc dir f ext dbg)
            (fun _ evs =>
               capture_steps evs
               = [Record_start (duration * fs); Record_wait;
                  Save (gastric_rec dir (t + 1))])
            (fun _ evs => capture_steps evs = [Record_start (duration * fs)])).
  unfold run_discrimination_trial. repeat ystep.
  eapply yields_bind; [apply stimuli_are_no_capture | contradiction |].
  intros [] e1 H1.
  eapply yields_weaken; [apply record_and_respond_captures | |].
  - intros r e3 H3. csimpl. now rewrite H1, H3.
  - intros why e3 H3. csimpl. now rewrite H1, H3.
Qed.

(** X6.  Calibration makes two captures of [duration * fs] frames, each
    awaited before it is stored: the first as the training file, the
    second as [gastric_rec_0.wav].  It can stop early at three places
    only: while the instructions are shown (nothing captured), during
    the first countdown (capture started, nothing stored) and during the
    second (training file stored, second capture started). *)
Theorem calibration_capture_protocol :
  forall fs duration dir ext dbg s,
    match run_instructions_calibration fs duration dir ext dbg s with
    | (Done _, evs, _) =>
        capture_steps evs
        = [Record_start (duration * fs); Record_wait; Save (training_rec dir);
           Record_start (duration * fs); Record_wait; Save (gastric_rec dir 0)]
    | (Stop why, evs, _) =>
        no_crash why
        /\ (capture_steps evs = []
            \/ capture_steps evs = [Record_start (duration * fs)]
            \/ capture_steps evs
               = [Record_start (duration * fs); Record_wait; Save (training_rec dir);
                  Record_start (duration * fs)])
    end.
Proof.
  intros fs duration dir ext dbg.
  change (yields (run_instructions_calibration fs duration dir ext dbg)
            (fun _ evs =>
               capture_steps evs
               = [Record_start (duration * fs); Record_wait; Save (training_rec dir);
                  Record_start (duration * fs); Record_wait; Save (gastric_rec dir 0)])
            (fun why evs =>
               no_crash why
               /\ (capture_steps evs = []
                   \/ capture_steps evs = [Record_start (duration * fs)]
                   \/ capture_steps evs
                      = [Record_start (duration * fs); Record_wait;
                         Save (training_rec dir); Record_start (duration * fs)]))).
  unfold run_instructions_calibration, gastric_rec, training_rec.
  change ("gastric_rec_" +++ str 0 +++ ".wav") with "gastric_rec_0.wav".
  ystep. destruct ext; cbn [when]; repeat ystep.
  all: eapply yields_bind;
    [apply show_instructions_list_spec
    | intros why e1 [-> N]; split; [exact N | now left] |].
  all: intros [] ? ->; cbn [app]; ystep.
  all: eapply yields_bind;
    [apply countdown_waits
    | intros why e1 [H N]; apply waits_are_no_capture in H; split;
      [exact N | right; left; csimpl; now rewrite H] |].
  all: intros [] e1 H1; apply waits_are_no_capture in H1; repeat ystep.
  all: eapply yields_bind;
    [apply countdown_waits
    | intros why e2 [H N]; apply waits_are_no_capture in H; split;
      [exact N | right; right; csimpl; now rewrite H1, H] |].
  all: intros [] e2 H2; apply waits_are_no_capture in H2; repeat ystep.
  all: csimpl; now rewrite H1, H2.
Qed.

(** ** The polling loops, poll by poll *)

Lemma wait_for_key_press_loop_ends before t after n s :
  ticks s = before ++ t :: after ->
  Forall (fun u => decisive u = false) before ->
  decisive t = true ->
  List.length before < n ->
  wait_for_key_press_loop n s = (decision t, [], polled s after).
Proof.
  revert n s. induction before as [| u before IH]; intros n s T B D N.
  - destruct n as [| n]; [inversion N |]. simpl. unfold bind, next_tick.
    rewrite T. cbn [app]. unfold decisive in D. unfold decision.
    destruct (key_in "return" (keys t)); [reflexivity |].
    cbn [orb] in D. now rewrite D.
  - destruct n as [| n]; [inversion N |]. simpl. unfold bind at 1. unfold next_tick.
    rewrite T. cbn [app].
    apply Forall_cons_iff in B. destruct B as [Du B].
    apply orb_false_elim in Du. destruct Du as [Ru Eu]. rewrite Ru, Eu.
    rewrite (IH n (State (before ++ t :: after) (draws s) (cursor s))); auto.
    simpl in N. lia.
Qed.

(** X10.  [wait_for_key_press] ends at the first poll that sees Enter or
    the cancel key, consumes the polls up to it and does nothing else;
    when that poll sees both keys, Enter wins and the process goes on. *)
Theorem wait_ends_at_the_first_key :
  forall before t after s,
    ticks s = before ++ t :: after ->
    Forall (fun u => decisive u = false) before ->
    decisive t = true ->
    wait_for_key_press s = (decision t, [], polled s after).
Proof.
  intros before t after s T B D. unfold wait_for_key_press, bind. cbn [ticks_left].
  rewrite (wait_for_key_press_loop_ends before t after _ s T B D).
  - reflexivity.
  - rewrite T, length_app. simpl. lia.
Qed.

Lemma wait_ends_on_both_keys :
  wait_for_key_press (State [idle; Tick ["escape"; "return"] [] 0 (float_of_int 0) false false false false None; enter]
                        sample_draws 0)
  = (Done tt, [], State [enter] sample_draws 0).
Proof.
  apply (wait_ends_at_the_first_key [idle]
           (Tick ["escape"; "return"] [] 0 (float_of_int 0) false false false false None) [enter]
           (State [idle; Tick ["escape"; "return"] [] 0 (float_of_int 0) false false false false None; enter]
              sample_draws 0)).
  - reflexivity.
  - constructor; [reflexivity | constructor].
  - reflexivity.
Defined.

Lemma play_sound_on_click_loop_ends f before t after n s :
  ticks s = before ++ t :: after ->
  Forall (fun u => decisive u = false) before ->
  decisive t = true ->
  List.length before < n ->
  play_sound_on_click_loop n f s
  = (decision t, map (fun _ => Play f) (filter pressed_in (before ++ [t])), polled s after).
Proof.
  revert n s. induction before as [| u before IH]; intros n s T B D N.
  - destruct n as [| n]; [inversion N |]. simpl. unfold bind, next_tick.
    rewrite T. cbn [app]. unfold decisive in D. unfold decision.
    destruct (pressed_in t); cbn [when emit ret];
      (destruct (key_in "return" (keys t)); [reflexivity |]);
      cbn [orb] in D; now rewrite D.
  - destruct n as [| n]; [inversion N |]. simpl. unfold bind at 1. unfold next_tick.
    rewrite T. cbn [app].
    apply Forall_cons_iff in B. destruct B as [Du B].
    apply orb_false_elim in Du. destruct Du as [Ru Eu].
    assert (Hn : List.length before < n) by (simpl in N; lia).
    pose proof (IH n (State (before ++ t :: after) (draws s) (cursor s))
                  eq_refl B D Hn) as R.
    unfold bind at 1.
    destruct (pressed_in u); cbn [when emit ret]; rewrite Ru, Eu, R; reflexivity.
Qed.

(** X11.  [play_sound_on_click] plays the sound once for every poll that
    finds the button pressed, up to and including the poll that sees
    Enter or the cancel key: the button is looked at before the keys.
    It ends at that poll, Enter winning over the cancel key. *)
Theorem sound_test_plays_once_per_press :
  forall f before t after s,
    ticks s = before ++ t :: after ->
    Forall (fun u => decisive u = false) before ->
    decisive t = true ->
    play_sound_on_click f s
    = (decision t, map (fun _ => Play f) (filter pressed_in (before ++ [t])),
       polled s after).
Proof.
  intros f before t after s T B D. unfold play_sound_on_click, bind. cbn [ticks_left].
  rewrite (play_sound_on_click_loop_ends f before t after _ s T B D).
  - reflexivity.
  - rewrite T, length_app. simpl. lia.
Qed.

Lemma sound_test_with_two_presses :
  play_sound_on_click chimes
    (State [Tick [] [] 0 (float_of_int 0) false false false true None; idle;
            Tick ["return"] [] 0 (float_of_int 0) false false false true None; idle] sample_draws 0)
  = (Done tt, [Play chimes; Play chimes], State [idle] sample_draws 0).
Proof.
  apply (sound_test_plays_once_per_press chimes
           [Tick [] [] 0 (float_of_int 0) false false false true None; idle]
           (Tick ["return"] [] 0 (float_of_int 0) false false false true None) [idle]
           (State [Tick [] [] 0 (float_of_int 0) false false false true None; idle;
                   Tick ["return"] [] 0 (float_of_int 0) false false false true None; idle] sample_draws 0)).
  - reflexivity.
  - constructor; [reflexivity | constructor; [reflexivity | constructor]].
  - reflexivity.
Defined.

(** *** The pages of instructions *)

Lemma confirmed_cons t used :
  List.length (filter confirms used) <= List.length (filter confirms (t :: used)).
Proof. cbn [filter]. destruct (confirms t); simpl; lia. Qed.

Lemma show_instructions_loop_done n s r evs s' :
  show_instructions_loop n s = (Done r, evs, s') ->
  exists used,
    ticks s = used ++ ticks s'
    /\ (r = next -> 1 <= List.length (filter confirms used)).
Proof.
  revert s evs. induction n as [| n IH]; intros s evs H; simpl in H; [discriminate |].
  unfold bind at 1 in H. unfold next_tick in H.
  destruct (ticks s) as [| t rest] eqn:T; [discriminate |].
  destruct (key_in "escape" (keys t)); [discriminate |].
  destruct (key_in "left" (keys t)).
  { cbn in H. injection H as <- _ <-. exists [t]. split; [reflexivity | discriminate]. }
  destruct (key_in "return" (keys t)) eqn:R.
  { cbn in H. injection H as <- _ <-. exists [t]. split; [reflexivity |].
    intros _. cbn [filter]. unfold confirms. rewrite R. simpl. lia. }
  destruct (show_instructions_loop n (State rest (draws s) (cursor s)))
    as [[o e2] s2] eqn:E.
  injection H as -> _ ->.
  apply IH in E. destruct E as (used & U & C). cbn [ticks] in U.
  exists (t :: used). split; [now rewrite U |].
  intros Hr. specialize (C Hr). pose proof (confirmed_cons t used). lia.
Qed.

Lemma show_instructions_done s r evs s' :
  show_instructions s = (Done r, evs, s') ->
  exists used,
    ticks s = used ++ ticks s'
    /\ (r = next -> 1 <= List.length (filter confirms used)).
Proof.
  unfold show_instructions, bind. cbn [ticks_left].
  destruct (show_instructions_loop _ s) as [[o e2] s2] eqn:E.
  intros H. injection H as -> _ ->. now apply show_instructions_loop_done in E.
Qed.

Lemma show_instructions_list_loop_done n pages index s evs s' :
  show_instructions_list_loop n pages index s = (Done tt, evs, s') ->
  exists used,
    ticks s = used ++ ticks s'
    /\ pages - index <= List.length (filter confirms used).
Proof.
  revert index s evs.
  assert (Last : forall (index : nat) (s : state) (evs : list event),
            (index <? pages)%nat = false -> @ret unit tt s = (Done tt, evs, s') ->
            exists used,
              ticks s = used ++ ticks s'
              /\ pages - index <= List.length (filter confirms used)).
  { intros index s evs L H. injection H as E1 E2. subst s'.
    exists []. split; [reflexivity |].
    apply Nat.ltb_ge in L. simpl. lia. }
  induction n as [| n IH]; intros index s evs H; simpl in H;
    destruct (index <? pages)%nat eqn:L; try (now apply (Last index s evs));
    try discriminate.
  bind_inv H. apply show_instructions_done in Hm. destruct Hm as (u1 & U1 & C1).
  assert (Step : forall index',
            (a = previous /\ index' <= index \/ a = next /\ index' = index + 1) ->
            show_instructions_list_loop n pages index' s0 = (Done tt, e0, s') ->
            exists used,
              ticks s = used ++ ticks s'
              /\ pages - index <= List.length (filter confirms used)).
  { intros index' Ha Hloop. apply IH in Hloop. destruct Hloop as (u2 & U2 & C2).
    exists (u1 ++ u2). split; [now rewrite U1, U2, app_assoc |].
    rewrite filter_app, length_app.
    destruct Ha as [[-> Hi] | [-> ->]]; [lia |]. specialize (C1 eq_refl). lia. }
  apply Nat.ltb_lt in L.
  destruct a.
  - destruct (0 <? index)%nat eqn:Z.
    + apply (Step (index - 1)); [left; split; [reflexivity | lia] | exact Hk].
    + apply (Step index); [left; split; [reflexivity | lia] | exact Hk].
  - apply (Step (index + 1)); [right; now split | exact Hk].
Qed.

(** X12.  [show_instructions_list] returns only after every page has been
    confirmed: the polls it consumed saw the Enter key at least as many
    times as there are pages. *)
Theorem every_page_is_confirmed :
  forall pages s,
    match show_instructions_list pages s with
    | (Done _, _, s') =>
        exists used,
          ticks s = used ++ ticks s'
          /\ pages <= List.length (filter confirms used)
    | (Stop _, _, _) => True
    end.
Proof.
  intros pages s.
  destruct (show_instructions_list pages s) as [[[[] | why] evs] s'] eqn:H;
    [| exact I].
  unfold show_instructions_list, bind in H. cbn [ticks_left] in H.
  destruct (show_instructions_list_loop _ pages 0 s) as [[o e2] s2] eqn:L.
  injection H as -> _ ->.
  apply show_instructions_list_loop_done in L. destruct L as (used & U & C).
  exists used. split; [exact U | lia].
Qed.

Lemma show_instructions_advances t rest s :
  ticks s = t :: rest -> advances t ->
  show_instructions s = (Done next, [], polled s rest).
Proof.
  intros T (E & L & R). unfold show_instructions, bind. cbn [ticks_left].
  rewrite T. simpl. unfold bind, next_tick. rewrite T, E, L, R. reflexivity.
Qed.

Lemma show_instructions_list_loop_advances used after n pages index s :
  ticks s = used ++ after ->
  Forall advances used ->
  index + List.length used = pages ->
  List.length used <= n ->
  show_instructions_list_loop n pages index s = (Done tt, [], polled s after).
Proof.
  revert n index s. induction used as [| u used IH]; intros n index s T A P N.
  - simpl in P. rewrite Nat.add_0_r in P. subst pages.
    assert (L : (index <? index)%nat = false) by apply Nat.ltb_irrefl.
    destruct s as [ts d c]. cbn in T. subst ts.
    destruct n; simpl; rewrite L; reflexivity.
  - simpl in P, N. destruct n as [| n]; [lia |].
    assert (L : (index <? pages)%nat = true) by (apply Nat.ltb_lt; lia).
    apply Forall_cons_iff in A. destruct A as [Au A].
    simpl. rewrite L. unfold bind.
    rewrite (show_instructions_advances u (used ++ after) s T Au).
    rewrite (IH n (index + 1) (polled s (used ++ after))); [reflexivity | | | |];
      auto; lia.
Qed.

(** X13.  As many polls that see Enter (and neither the cancel key nor
    the left arrow) as there are pages take [show_instructions_list] to
    its end, one poll per page; with no page it returns at once. *)
Theorem one_confirmation_per_page_suffices :
  forall pages used after s,
    ticks s = used ++ after ->
    Forall advances used ->
    List.length used = pages ->
    show_instructions_list pages s = (Done tt, [], polled s after).
Proof.
  intros pages used after s T A P. unfold show_instructions_list, bind.
  cbn [ticks_left].
  rewrite (show_instructions_list_loop_advances used after _ pages 0 s T A).
  - reflexivity.
  - exact P.
  - rewrite T, length_app. lia.
Qed.

Lemma four_pages_confirmed :
  show_instructions_list 4 (State [enter; enter; enter; enter; idle] sample_draws 0)
  = (Done tt, [], State [idle] sample_draws 0).
Proof.
  apply (one_confirmation_per_page_suffices 4 [enter; enter; enter; enter] [idle]
           (State [enter; enter; enter; enter; idle] sample_draws 0)).
  - reflexivity.
  - repeat (apply Forall_cons; [repeat split |]). apply Forall_nil.
  - reflexivity.
Defined.

(** *** The countdowns *)

Lemma countdown_loop_runs limit before t after n s :
  ticks s = before ++ t :: after ->
  Forall (counting limit) before ->
  Qlt_bool (clock t) limit = false ->
  List.length before < n ->
  countdown_loop n limit s
  = (Done tt, repeat (Wait 0.5) (List.length before), polled s after).
Proof.
  revert n s. induction before as [| u before IH]; intros n s T B D N.
  - destruct n as [| n]; [inversion N |]. simpl. unfold bind, next_tick.
    rewrite T. cbn [app]. now rewrite D.
  - destruct n as [| n]; [inversion N |]. simpl. unfold bind at 1. unfold next_tick.
    rewrite T. cbn [app].
    apply Forall_cons_iff in B. destruct B as [[Cu Eu] B]. unfold cancels in Eu.
    rewrite Cu. unfold bind at 1. cbn [emit]. rewrite Eu.
    rewrite (IH n (State (before ++ t :: after) (draws s) (cursor s))); auto.
    simpl in N. lia.
Qed.

(** X14.  A countdown of calibration pauses half a second at every poll
    that reads the clock below the limit, and returns at the first poll
    that reads the limit or more.  At that poll the keys are not looked
    at: a cancel key pressed as the countdown runs out is ignored. *)
Theorem countdown_runs_until_the_limit :
  forall limit before t after s,
    ticks s = before ++ t :: after ->
    Forall (counting limit) before ->
    Qlt_bool (clock t) limit = false ->
    countdown limit s
    = (Done tt, repeat (Wait 0.5) (List.length before), polled s after).
Proof.
  intros limit before t after s T B D. unfold countdown, bind. cbn [ticks_left].
  rewrite (countdown_loop_runs limit before t after _ s T B D).
  - reflexivity.
  - rewrite T, length_app. simpl. lia.
Qed.

Lemma countdown_ignores_the_last_key :
  countdown 15 (State [idle; idle; Tick ["escape"] [] 15 (float_of_int 0) false false false false None; idle]
                  sample_draws 0)
  = (Done tt, [Wait 0.5; Wait 0.5], State [idle] sample_draws 0).
Proof.
  apply (countdown_runs_until_the_limit 15 [idle; idle]
           (Tick ["escape"] [] 15 (float_of_int 0) false false false false None) [idle]
           (State [idle; idle; Tick ["escape"] [] 15 (float_of_int 0) false false false false None; idle]
              sample_draws 0)).
  - reflexivity.
  - constructor; [split; reflexivity | constructor; [split; reflexivity | constructor]].
  - reflexivity.
Defined.

Lemma start_countdown_loop_runs before t after n s :
  ticks s = before ++ t :: after ->
  Forall (fun u => Qlt_bool (clock u) 3 = true) before ->
  Qlt_bool (clock t) 3 = false ->
  List.length before < n ->
  start_countdown_loop n s
  = (Done tt, repeat (Wait 0.5) (List.length before), polled s after).
Proof.
  revert n s. induction before as [| u before IH]; intros n s T B D N.
  - destruct n as [| n]; [inversion N |]. simpl. unfold bind, next_tick.
    rewrite T. cbn [app]. now rewrite D.
  - destruct n as [| n]; [inversion N |]. simpl. unfold bind at 1. unfold next_tick.
    rewrite T. cbn [app].
    apply Forall_cons_iff in B. destruct B as [Cu B].
    rewrite Cu. unfold bind at 1. cbn [emit].
    rewrite (IH n (State (before ++ t :: after) (draws s) (cursor s))); auto.
    simpl in N. lia.
Qed.

(** X15.  The three-second countdown before the first trial cannot be
    cancelled: whatever keys are pressed, it pauses half a second at
    every poll that reads the clock below 3 and returns at the first
    poll that reads 3 or more. *)
Theorem start_countdown_ignores_the_keys :
  forall before t after s,
    ticks s = before ++ t :: after ->
    Forall (fun u => Qlt_bool (clock u) 3 = true) before ->
    Qlt_bool (clock t) 3 = false ->
    start_countdown s
    = (Done tt, repeat (Wait 0.5) (List.length before), polled s after).
Proof.
  intros before t after s T B D. unfold start_countdown, bind. cbn [ticks_left].
  rewrite (start_countdown_loop_runs before t after _ s T B D).
  - reflexivity.
  - rewrite T, length_app. simpl. lia.
Qed.

Lemma start_countdown_despite_escape :
  start_countdown
    (State [Tick ["escape"] [] 0 (float_of_int 0) false false false false None;
            Tick [] [] 3 (float_of_int 0) false false false false None] sample_draws 0)
  = (Done tt, [Wait 0.5], State [] sample_draws 0).
Proof.
  apply (start_countdown_ignores_the_keys
           [Tick ["escape"] [] 0 (float_of_int 0) false false false false None]
           (Tick [] [] 3 (float_of_int 0) false false false false None) []
           (State [Tick ["escape"] [] 0 (float_of_int 0) false false false false None;
                   Tick [] [] 3 (float_of_int 0) false false false false None] sample_draws 0)).
  - reflexivity.
  - constructor; [reflexivity | constructor].
  - reflexivity.
Defined.

(** *** The forced choice *)

(** X16.  The choice loop of [run_training] looks at the cancel key before
    the click and that of [run_discrimination_trial] after it, and yet
    the two behave alike on every input: in both, a cancel key in the
    poll of the click ends the process and the click is lost. *)
Theorem choice_loops_agree :
  forall n s, training_choice_loop n s = trial_choice_loop n s.
Proof.
  induction n as [| n IH]; intros s; [reflexivity |].
  simpl. unfold bind, next_tick. destruct (ticks s) as [| t rest]; [reflexivity |].
  destruct (key_in "escape" (keys t)); [reflexivity |].
  destruct (click t); [reflexivity |]. now rewrite IH.
Qed.

(** ** The rows of a questionnaire *)

Lemma question_loop_answer n use_mouse q marker :
  in_0_100 marker ->
  yields (question_loop n use_mouse (q_scale q) marker)
    (fun v evs => appended evs = [] /\ answer_cell use_mouse q v)
    (fun _ evs => appended evs = []).
Proof.
  destruct use_mouse; revert marker; induction n as [| n IH]; intros marker H; simpl.
  - ystep. reflexivity.
  - repeat ystep; try reflexivity.
    + split; [reflexivity |]. eexists. split; [reflexivity | now apply draw_in_0_100].
    + apply IH. now apply track_in_0_100.
  - ystep. reflexivity.
  - repeat ystep; try reflexivity.
    + split; [reflexivity | now left].
    + split; [reflexivity | now right].
    + apply IH. now apply draw_in_0_100.
Qed.

Lemma questions_logged csv qs ext use_mouse :
  yields (get_post_task_qs csv qs ext use_mouse)
    (fun _ evs => Forall2 (answers csv use_mouse) qs (appended evs))
    (fun _ evs =>
       exists k, k < List.length qs
                 /\ Forall2 (answers csv use_mouse) (firstn k qs) (appended evs)).
Proof.
  induction qs as [| q rest IH]; simpl.
  - ystep. constructor.
  - eapply yields_silent_then; [apply uniform_20_80 |]. intros m Hm. ystep.
    eapply yields_bind;
      [apply question_loop_answer; apply set_markerPos_in_0_100 | |].
    { intros why e1 H. exists 0. split; [lia |]. rewrite H. constructor. }
    intros v e1 [H1 Hv]. ystep.
    assert (Row : answers csv use_mouse q
                    (csv, [FStr "Question"; FStr (q_label q); v; FStr "NA"; FStr "NA"])).
    { split; [reflexivity |]. now exists v. }
    eapply yields_weaken; [exact IH | |].
    + intros [] e2 H2. rewrite appended_app, H1. cbn [app appended flat_map].
      constructor; [exact Row | exact H2].
    + intros why e2 (k & Hk & H2). exists (S k). split; [lia |].
      rewrite appended_app, H1. cbn [app appended flat_map firstn].
      constructor; [exact Row | exact H2].
Qed.

(** X17.  A questionnaire writes one row per question, in the order of
    the questions and each with the label of its question, all to the
    one file; the answer is a rating from 0 to 100 when the pointer is
    used, and 0 or [len(scale) - 1] when the keys are.  A questionnaire
    that stops early has written the rows of the questions before the
    one it stopped at, and no other. *)
Theorem questionnaire_rows :
  forall csv qs ext use_mouse s,
    match get_post_task_qs csv qs ext use_mouse s with
    | (Done _, evs, _) => Forall2 (answers csv use_mouse) qs (appended evs)
    | (Stop _, evs, _) =>
        exists k, k < List.length qs
                  /\ Forall2 (answers csv use_mouse) (firstn k qs) (appended evs)
    end.
Proof. intros csv qs ext use_mouse. apply questions_logged. Qed.

(** ** The entries of the log, in order *)

Lemma entries_of_questions csv qs rows :
  Forall2 (answers csv true) qs rows ->
  Forall2 (is_entry csv) (map Of_question qs) rows.
Proof. induction 1; constructor; assumption. Qed.

Lemma firstn_questions k qs :
  firstn k (map Of_question qs) = map Of_question (firstn k qs).
Proof.
  revert qs. induction k as [| k IH]; intros [| q qs]; cbn; try reflexivity.
  now rewrite IH.
Qed.

Section Logs.
Variable csv : string.

Lemma prefix_of_longer (e1 e2 : list entry) k rows :
  Forall2 (is_entry csv) (firstn k e1) rows ->
  exists k', Forall2 (is_entry csv) (firstn k' (e1 ++ e2)) rows.
Proof.
  intros H. exists (Nat.min k (List.length e1)).
  rewrite firstn_app.
  replace (Nat.min k (List.length e1) - List.length e1) with 0 by lia.
  cbn [firstn]. rewrite app_nil_r.
  destruct (Nat.le_ge_cases k (List.length e1)) as [L | L].
  - now rewrite Nat.min_l.
  - rewrite Nat.min_r by exact L. rewrite firstn_all.
    now rewrite firstn_all2 in H.
Qed.

Lemma logs_bind {A B} e1 e2 (m : M A) (f : A -> M B) Rm R :
  logs csv e1 m Rm ->
  (forall a, Rm a -> logs csv e2 (f a) R) ->
  logs csv (e1 ++ e2) (bind m f) R.
Proof.
  intros Hm Hf. eapply yields_bind; [exact Hm | |].
  - intros why evs [k H]. now apply (prefix_of_longer e1 e2 k).
  - intros a ev1 [F1 Ra]. eapply yields_weaken; [apply (Hf a Ra) | |].
    + intros b ev2 [F2 Rb]. split; [| exact Rb].
      rewrite appended_app. now apply Forall2_app.
    + intros why ev2 [k F2]. exists (List.length e1 + k).
      rewrite firstn_app_2, appended_app. now apply Forall2_app.
Qed.

Lemma logs_skip {A B} e (m : M A) (f : A -> M B) Rm R :
  logs csv [] m Rm ->
  (forall a, Rm a -> logs csv e (f a) R) ->
  logs csv e (bind m f) R.
Proof. intros Hm Hf. apply (logs_bind [] e m f Rm R Hm Hf). Qed.

Lemma logs_last {A B} e (m : M A) (f : A -> M B) Rm R :
  logs csv e m Rm ->
  (forall a, Rm a -> logs csv [] (f a) R) ->
  logs csv e (bind m f) R.
Proof.
  intros Hm Hf. rewrite <- (app_nil_r e). apply (logs_bind e [] m f Rm R Hm Hf).
Qed.

Lemma logs_nothing {A} (m : M A) (R : A -> Prop) :
  yields m (fun a evs => appended evs = [] /\ R a) (fun _ evs => appended evs = []) ->
  logs csv [] m R.
Proof.
  intros H. eapply yields_weaken; [exact H | |]; cbn beta.
  - intros a evs [-> Ra]. split; [constructor | exact Ra].
  - intros why evs ->. exists 0. constructor.
Qed.

Lemma logs_ret {A} (a : A) (R : A -> Prop) : R a -> logs csv [] (ret a) R.
Proof. intros Ra. apply yields_ret. split; [constructor | exact Ra]. Qed.

Lemma logs_emit e (R : unit -> Prop) : appended [e] = [] -> R tt -> logs csv [] (emit e) R.
Proof. intros He Ra. apply yields_emit. rewrite He. split; [constructor | exact Ra]. Qed.

Lemma logs_row x r (R : unit -> Prop) :
  is_entry csv x (csv, r) -> R tt -> logs csv [x] (emit (Append csv r)) R.
Proof.
  intros Hx Ra. apply yields_emit. cbn [appended flat_map app].
  split; [constructor; [exact Hx | constructor] | exact Ra].
Qed.

Lemma logs_silent_then {A B} e (m : M A) (k : A -> M B) (P : A -> Prop) R :
  silent m P -> (forall a, P a -> logs csv e (k a) R) -> logs csv e (bind m k) R.
Proof. apply yields_silent_then. Qed.

Lemma logs_assoc {A B C} e (m : M A) (f : A -> M B) (k : B -> M C) R :
  logs csv e (bind m (fun a => bind (f a) k)) R -> logs csv e (bind (bind m f) k) R.
Proof. apply yields_assoc. Qed.

Lemma logs_wait_for_key_press : logs csv [] wait_for_key_press (fun _ => True).
Proof.
  apply logs_nothing. eapply yields_weaken; [apply wait_for_key_press_spec | |].
  - intros [] evs ->. now split.
  - now intros why evs [-> _].
Qed.

Lemma logs_play_sound_on_click f : logs csv [] (play_sound_on_click f) (fun _ => True).
Proof.
  apply logs_nothing. eapply yields_weaken; [apply play_sound_on_click_spec | |].
  - intros [] evs H. apply only_chimes in H. now destruct H.
  - intros why evs [H _]. apply only_chimes in H. now destruct H.
Qed.

Lemma logs_start_countdown : logs csv [] start_countdown (fun _ => True).
Proof.
  apply logs_nothing. eapply yields_weaken; [apply start_countdown_spec | |].
  - intros [] evs H. now rewrite appended_of_digest, H.
  - intros why evs [H _]. now rewrite appended_of_digest, H.
Qed.

Lemma logs_calibration fs duration dir ext dbg :
  logs csv [] (run_instructions_calibration fs duration dir ext dbg) (fun _ => True).
Proof.
  apply logs_nothing.
  eapply yields_weaken; [apply run_instructions_calibration_spec | |].
  - intros [] evs H. now rewrite appended_of_digest, H.
  - intros why evs [[H | H] _]; now rewrite appended_of_digest, H.
Qed.

Lemma logs_run_training duration f ext dbg :
  logs csv [] (run_training duration f ext dbg) answer_ok.
Proof.
  apply logs_nothing. eapply yields_weaken; [apply run_training_spec | |].
  - intros r evs [H A]. now rewrite appended_of_digest, H.
  - intros why evs [H _]. now rewrite appended_of_digest, H.
Qed.

Lemma logs_trial fs duration t loc dir f ext dbg :
  logs csv [] (run_discrimination_trial fs duration t loc dir f ext dbg) answer_ok.
Proof.
  apply logs_nothing. eapply yields_weaken; [apply run_discrimination_trial_spec | |].
  - intros r evs [H A]. rewrite appended_of_digest, H. unfold pair_of_sounds.
    now destruct (loc =? 1)%Z.
  - intros why evs [H _]. rewrite appended_of_digest, H. unfold pair_of_sounds.
    now destruct (loc =? 1)%Z.
Qed.

Lemma logs_questions qs ext :
  logs csv (map Of_question qs) (get_post_task_qs csv qs ext true) (fun _ => True).
Proof.
  eapply yields_weaken; [apply questions_logged | |]; cbn beta.
  - intros [] evs H. split; [now apply entries_of_questions | exact I].
  - intros why evs (k & _ & H). exists k. rewrite firstn_questions.
    now apply entries_of_questions.
Qed.

Lemma logs_checkpoint e b qs ext {B} (k : M B) R :
  logs csv e k R ->
  logs csv (asked b qs ++ e)
    (when b (get_post_task_qs csv qs ext true ;;; wait_for_key_press) ;;; k) R.
Proof.
  intros Hk. destruct b; cbn [when asked app].
  - apply logs_assoc. eapply logs_bind; [apply logs_questions |]. intros [] _.
    eapply logs_skip; [apply logs_wait_for_key_press |]. now intros [] _.
  - now apply yields_ret_then.
Qed.

Lemma logs_trial_loop dir fs duration ext dbg stim_order ts :
  (30 <= Z.of_nat (List.length stim_order))%Z ->
  Forall (fun c => c = 1%Z \/ c = 2%Z) stim_order ->
  Forall (fun t => (0 <= t <= 29)%Z) ts ->
  logs csv (loop_entries ts) (trial_loop ts stim_order fs duration csv dir ext dbg)
    (fun _ => True).
Proof.
  intros Hlen Hcodes. induction ts as [| t rest IH]; intros Hts;
    cbn [trial_loop loop_entries].
  - now apply logs_ret.
  - apply Forall_cons_iff in Hts. destruct Hts as [Ht Hrest]. specialize (IH Hrest).
    assert (Hitem : silent (item stim_order t) (fun c => c = 1%Z \/ c = 2%Z)).
    { intros s. destruct (item_in_range stim_order t ltac:(lia) s) as (c & s' & E & Hin).
      exists c, s'. split; [exact E |]. rewrite Forall_forall in Hcodes. auto. }
    eapply logs_skip with (Rm := fun _ => True).
    { destruct ext; cbn [when]; [now apply logs_emit | now apply logs_ret]. }
    intros [] _.
    eapply logs_silent_then; [exact Hitem |]. intros loc Hloc.
    eapply logs_skip; [apply logs_trial |].
    intros [[b c] q] Hok. cbn beta iota.
    change (Of_trial t :: ?e) with ([Of_trial t] ++ e).
    eapply logs_bind with (Rm := fun _ => True).
    { apply logs_row; [| exact I]. split; [reflexivity |]. now exists loc, b, c, q. }
    intros [] _.
    apply logs_checkpoint. apply logs_checkpoint.
    destruct (t =? 29)%Z; [| exact IH].
    eapply logs_last; [apply logs_questions |]. intros [] _.
    eapply logs_skip with (Rm := fun _ => True);
      [now apply logs_emit | intros [] _; now apply logs_emit].
Qed.

End Logs.

Lemma session_logs files participant_id sound_dir save_dir ext dbg :
  yields (run_gastric_stethoscope_self files participant_id sound_dir save_dir ext dbg)
    (fun _ evs =>
       exists rest,
         appended evs
         = map (pair (log_file_name files save_dir participant_id))
             (header_rows participant_id) ++ rest
         /\ Forall2 (is_entry (log_file_name files save_dir participant_id))
              session_entries rest)
    (fun _ evs =>
       exists rest k,
         appended evs
         = map (pair (log_file_name files save_dir participant_id))
             (header_rows participant_id) ++ rest
         /\ Forall2 (is_entry (log_file_name files save_dir participant_id))
              (firstn k session_entries) rest).
Proof.
  unfold run_gastric_stethoscope_self.
  set (csv := log_file_name files save_dir participant_id).
  set (dir := os_path_join sound_dir "gastric_sounds").
  assert (Body : forall k : M unit,
    logs csv session_entries k (fun _ => True) ->
    yields
      (when ext (emit (Serial [FStr "START TASK;"])) ;;;
       emit (Append csv [FStr "Participant ID"; FStr participant_id]) ;;;
       emit (Append csv
               [FStr "Trial"; FStr "Participant_Sound_Loc"; FStr "Button";
                FStr "Response_code"; FStr "Confidence"]) ;;;
       emit (Makedirs dir) ;;; k)
      (fun _ evs =>
         exists rest,
           appended evs = map (pair csv) (header_rows participant_id) ++ rest
           /\ Forall2 (is_entry csv) session_entries rest)
      (fun _ evs =>
         exists rest k,
           appended evs = map (pair csv) (header_rows participant_id) ++ rest
           /\ Forall2 (is_entry csv) (firstn k session_entries) rest)).
  { intros k Hk. destruct ext; cbn [when]; repeat ystep.
    all: eapply yields_weaken; [exact Hk | |]; cbn beta.
    all: try (intros [] evs [F _]; now exists (appended evs)).
    all: intros why evs [n F]; now exists (appended evs), n. }
  apply Body. clear Body. unfold session_entries.
  eapply logs_skip; [apply logs_play_sound_on_click |]. intros [] _.
  eapply logs_skip; [apply logs_calibration |]. intros [] _.
  eapply logs_skip; [apply logs_wait_for_key_press |]. intros [] _.
  eapply logs_skip; [apply logs_play_sound_on_click |]. intros [] _.
  eapply logs_skip; [apply logs_wait_for_key_press |]. intros [] _.
  eapply logs_skip; [apply logs_run_training |].
  intros [[b c] q] Hok. cbn beta iota.
  change (Of_training :: ?e) with ([Of_training] ++ e).
  eapply logs_bind with (Rm := fun _ => True).
  { apply logs_row; [| exact I]. split; [reflexivity |]. now exists b, c, q. }
  intros [] _.
  eapply logs_skip; [apply logs_wait_for_key_press |]. intros [] _.
  eapply logs_skip with (Rm := fun _ => True); [now apply logs_emit |]. intros [] _.
  eapply logs_bind; [apply logs_questions |]. intros [] _.
  eapply logs_skip; [apply logs_start_countdown |]. intros [] _.
  eapply logs_silent_then; [apply stim_order_codes |]. intros plan [Hlen Hcodes].
  eapply logs_last;
    [apply logs_trial_loop; [exact Hlen | exact Hcodes | apply trial_indices] |].
  intros [] _.
  destruct ext; cbn [when]; [now apply logs_emit | now apply logs_ret].
Qed.

(** X18.  After the two header rows a complete session has logged, in
    this order and all in the one file: the training row, the four
    questions numbered 1, trials 0 to 9, the four questions numbered 2,
    trials 10 to 19, the four questions numbered 3, trials 20 to 29 and
    the nine closing questions; every trial row carries its index, an
    order-code 1 or 2, and the label and the code of the same button.
    A session that stops early has logged the first few of these. *)
Theorem session_log_entries :
  forall files participant_id sound_dir save_dir ext dbg s,
    match run_gastric_stethoscope_self files participant_id sound_dir save_dir ext dbg s
    with
    | (Done _, evs, _) =>
        exists rest,
          appended evs
          = map (pair (log_file_name files save_dir participant_id))
              (header_rows participant_id) ++ rest
          /\ Forall2 (is_entry (log_file_name files save_dir participant_id))
               session_entries rest
    | (Stop _, evs, _) =>
        exists rest k,
          appended evs
          = map (pair (log_file_name files save_dir participant_id))
              (header_rows participant_id) ++ rest
          /\ Forall2 (is_entry (log_file_name files save_dir participant_id))
               (firstn k session_entries) rest
    end.
Proof. intros files participant_id sound_dir save_dir ext dbg. apply session_logs. Qed.

(** ** The name of the log and the return of a trial, on sample inputs *)

Lemma next_suffix_after_c :
  exists c,
    log_file_name
      [("/data", "sub-999_rumble_recognition.tsv");
       ("/data", "sub-999_rumble_recognition_c.tsv");
       ("/data", "notes.txt")] "/data" "999"
    = os_path_join "/data" (suffixed (base_name_of "999") c)
    /\ lowercase c
    /\ Forall (fun i => (i < ord c - ord "a"%char)%Z)
         (letters_in_use
            [("/data", "sub-999_rumble_recognition.tsv");
             ("/data", "sub-999_rumble_recognition_c.tsv");
             ("/data", "notes.txt")] "/data" "999")
    /\ ~ In (suffixed (base_name_of "999") c)
         (os_listdir
            [("/data", "sub-999_rumble_recognition.tsv");
             ("/data", "sub-999_rumble_recognition_c.tsv");
             ("/data", "notes.txt")] "/data").
Proof.
  apply (next_suffix_is_an_unused_letter
           [("/data", "sub-999_rumble_recognition.tsv");
            ("/data", "sub-999_rumble_recognition_c.tsv");
            ("/data", "notes.txt")] "/data" "999").
  - reflexivity.
  - vm_compute. constructor; [reflexivity | constructor].
Defined.

Lemma trial_returns_on_sample_input :
  exists b c q evs s',
    run_discrimination_trial 48000 15 0 2 "sounds" "sounds/gastric_rec_0.wav"
      true false sample_trial_state
    = (Done (b, c, q), evs, s')
    /\ position_answer 1 b c /\ ticks s' = [].
Proof.
  apply (trial_returns 48000 15 0 2 "sounds" "sounds/gastric_rec_0.wav" true false
           [] (pick true) [point 12] confirm [] 1 sample_trial_state).
  - reflexivity.
  - constructor.
  - reflexivity.
  - reflexivity.
  - constructor; [split; reflexivity | constructor].
  - reflexivity.
  - reflexivity.
Defined.

(** ** How a session can end *)

(** X9.  A session ends in one of three ways: it runs to its end, it is
    cancelled with the cancel key, or it waits for input that does not
    come.  No exception is raised: the indices into the plan, into the
    two response codes and into the two button labels stay in range. *)
Theorem session_ends_in_one_of_three_ways :
  forall files participant_id sound_dir save_dir ext dbg s,
    match run_gastric_stethoscope_self files participant_id sound_dir save_dir ext dbg s
    with
    | (Done _, _, _) => True
    | (Stop why, _, _) => why = Quit \/ why = Blocked
    end.
Proof.
  intros files participant_id sound_dir save_dir ext dbg s.
  pose proof (session_spec files participant_id sound_dir save_dir ext dbg s) as H.
  destruct (run_gastric_stethoscope_self _ _ _ _ _ _ s) as [[[[] | why] evs] s'];
    [exact I | now destruct H].
Qed.

(** ** The search for the stethoscope *)

Lemma Qlt_bool_iff x y : Qlt_bool x y = true <-> (x < y)%Q.
Proof.
  unfold Qlt_bool. rewrite negb_true_iff. split.
  - intros H. apply Qnot_le_lt. intros L. apply Qle_bool_iff in L. congruence.
  - intros H. destruct (Qle_bool y x) eqn:L; [| reflexivity].
    apply Qle_bool_iff in L. now apply Qlt_not_le in H.
Qed.

Lemma accepted_iff d :
  contains target_device_name (name d)
  && Qlt_bool (default_low_input_latency d) 0.01 = true
  <-> accepted d.
Proof. unfold accepted. now rewrite andb_true_iff, Qlt_bool_iff. Qed.

Lemma find_input_device_spec devices :
  forall i,
    match find_input_device i devices with
    | Some k =>
        i <= k
        /\ exists d,
            nth_error devices (k - i) = Some d /\ accepted d
            /\ forall j d', j < k - i -> nth_error devices j = Some d' -> ~ accepted d'
    | None => forall d, In d devices -> ~ accepted d
    end.
Proof.
  induction devices as [| device rest IH]; intros i; cbn [find_input_device].
  - intros d [].
  - destruct (contains target_device_name (name device)
              && Qlt_bool (default_low_input_latency device) 0.01) eqn:T.
    + split; [lia |]. exists device. rewrite Nat.sub_diag.
      split; [reflexivity |]. split; [now apply accepted_iff |].
      intros j d' Hj. lia.
    + assert (N : ~ accepted device).
      { intros A. apply accepted_iff in A. congruence. }
      specialize (IH (S i)). destruct (find_input_device (S i) rest) as [k |].
      * destruct IH as (Hk & d & Hd & Ad & First). split; [lia |].
        exists d. replace (k - i) with (S (k - S i)) by lia.
        split; [exact Hd |]. split; [exact Ad |].
        intros [| j] d' Hj Hd'.
        -- injection Hd' as <-. exact N.
        -- apply (First j d'); [lia | exact Hd'].
      * intros d [<- | Hin]; [exact N | now apply IH].
Qed.

(** X19.  The search for the stethoscope selects the first device of the
    list whose name contains the target name and whose low input latency
    is below 0.01, whatever the latencies of the devices after it; it
    selects none exactly when no device of the list is accepted. *)
Theorem first_accepted_device_is_selected :
  forall devices,
    match input_device_id devices with
    | Some i =>
        exists d,
          nth_error devices i = Some d /\ accepted d
          /\ forall j d', j < i -> nth_error devices j = Some d' -> ~ accepted d'
    | None => forall d, In d devices -> ~ accepted d
    end.
Proof.
  intros devices. unfold input_device_id.
  pose proof (find_input_device_spec devices 0) as H.
  destruct (find_input_device 0 devices) as [k |]; [| exact H].
  destruct H as (_ & d & Hd & Ad & First). rewrite Nat.sub_0_r in Hd, First.
  now exists d.
Qed.

(** ** The serial transcript of a complete session *)

Lemma if_external_app ext a b :
  if_external ext a ++ if_external ext b = if_external ext (a ++ b).
Proof. now destruct ext. Qed.

Lemma when_external_sends ext m :
  yields (when ext (emit (Serial m)))
    (fun _ evs => serials evs = if_external ext [m]) (fun _ _ => True).
Proof. destruct ext; cbn [when]; ystep; reflexivity. Qed.

Lemma item_sends_nothing {A} (l : list A) i :
  yields (item l i) (fun _ evs => evs = []) (fun _ _ => True).
Proof.
  unfold item. destruct (_ && _)%bool; [| now ystep].
  destruct (nth_error l _); now ystep.
Qed.

Lemma checkpoint_sends_nothing b csv qs ext :
  yields (when b (get_post_task_qs csv qs ext true ;;; wait_for_key_press))
    (fun _ evs => serials evs = []) (fun _ _ => True).
Proof.
  destruct b; cbn [when]; [| now ystep].
  eapply yields_bind; [apply get_post_task_qs_serial | auto |].
  intros [] e1 H1.
  eapply yields_weaken; [apply wait_for_key_press_spec | | auto].
  intros [] e2 ->. now rewrite app_nil_r.
Qed.

Lemma trial_loop_transcript csv dir fs duration ext dbg stim_order ts :
  yields (trial_loop ts stim_order fs duration csv dir ext dbg)
    (fun _ evs =>
       exists segs,
         Forall2 trial_transcript (through_29 ts) segs
         /\ serials evs = if_external ext (List.concat segs))
    (fun _ _ => True).
Proof.
  induction ts as [| t rest IH]; cbn [trial_loop through_29].
  - ystep. exists []. split; [constructor | now destruct ext].
  - eapply yields_bind; [apply when_external_sends | auto |]. intros [] e0 H0.
    eapply yields_bind; [apply item_sends_nothing | auto |]. intros loc ? ->.
    eapply yields_bind; [apply run_discrimination_trial_serial | auto |].
    intros [[b c] q] e1 H1. cbn beta iota. ystep.
    eapply yields_bind; [apply checkpoint_sends_nothing | auto |]. intros [] e2 H2.
    eapply yields_bind; [apply checkpoint_sends_nothing | auto |]. intros [] e3 H3.
    assert (Seg : trial_transcript t
                    (announcement t
                     :: pair_messages loc ++ recording_messages t ++ [report (b, c, q)])).
    { now exists loc, (b, c, q). }
    destruct (t =? 29)%Z.
    + eapply yields_bind; [apply get_post_task_qs_serial | auto |]. intros [] e4 H4.
      repeat ystep.
      exists [announcement t
              :: pair_messages loc ++ recording_messages t ++ [report (b, c, q)]].
      split; [constructor; [exact Seg | constructor] |].
      ssimpl. rewrite H0, H1, H2, H3, H4. cbn [List.concat]. rewrite !app_nil_r.
      now destruct ext.
    + eapply yields_weaken; [exact IH | | auto].
      intros [] e4 (segs & F & H4).
      exists ((announcement t
               :: pair_messages loc ++ recording_messages t ++ [report (b, c, q)])
              :: segs).
      split; [constructor; [exact Seg | exact F] |].
      ssimpl. rewrite H0, H1, H2, H3, H4. cbn [List.concat].
      now destruct ext.
Qed.

Lemma session_transcript files participant_id sound_dir save_dir ext dbg :
  yields (run_gastric_stethoscope_self files participant_id sound_dir save_dir ext dbg)
    (fun _ evs =>
       exists r segs,
         Forall2 trial_transcript (range 0 30) segs
         /\ serials evs
            = if_external ext
                (opening_messages r ++ List.concat segs ++ [message "END TASK;"]))
    (fun _ _ => True).
Proof.
  unfold run_gastric_stethoscope_self.
  eapply yields_bind; [apply when_external_sends | auto |]. intros [] e0 H0.
  repeat ystep.
  eapply yields_bind; [apply play_sound_on_click_spec | auto |]. intros [] e1 H1.
  apply plays_send_nothing in H1.
  eapply yields_bind; [apply run_instructions_calibration_serial | auto |].
  intros [] e2 H2.
  eapply yields_bind; [apply wait_for_key_press_spec | auto |]. intros [] ? ->.
  eapply yields_bind; [apply play_sound_on_click_spec | auto |]. intros [] e3 H3.
  apply plays_send_nothing in H3.
  eapply yields_bind; [apply wait_for_key_press_spec | auto |]. intros [] ? ->.
  eapply yields_bind; [apply run_training_serial | auto |].
  intros [[b c] q] e4 H4. cbn beta iota. ystep.
  eapply yields_bind; [apply wait_for_key_press_spec | auto |]. intros [] ? ->.
  ystep.
  eapply yields_bind; [apply get_post_task_qs_serial | auto |]. intros [] e5 H5.
  eapply yields_bind; [apply start_countdown_waits | auto |]. intros [] e6 H6.
  apply waits_send_nothing in H6.
  eapply yields_silent_then; [apply stim_order_codes |]. intros plan _.
  eapply yields_bind; [apply trial_loop_transcript | auto |].
  intros [] e7 (segs & F & H7).
  change (through_29 (range 0 trials)) with (range 0 30) in F.
  eapply yields_weaken; [apply when_external_sends | | auto].
  intros [] e8 H8. exists (b, c, q), segs. split; [exact F |].
  ssimpl. rewrite H0, H1, H2, H3, H4, H5, H6, H7, H8.
  unfold opening_messages. now destruct ext.
Qed.

(** X20.  With the external device a session that runs to its end has
    sent exactly this: [START TASK;], [RECORDING_0;], [INSTRUCTIONS;], the
    messages of the training trial with its report, then for each trial
    from 0 to 29 its announcement [TRIAL_<t>-COND_<condition>;] followed
    by the messages of its two sounds, of its capture and its report,
    and at last [END TASK;].  The questionnaires, the sound tests and
    the countdowns send nothing. *)
Theorem complete_session_transcript :
  forall files participant_id sound_dir save_dir dbg s,
    match run_gastric_stethoscope_self files participant_id sound_dir save_dir true dbg s
    with
    | (Done _, evs, _) =>
        exists r segs,
          Forall2 trial_transcript (range 0 30) segs
          /\ serials evs
             = opening_messages r ++ List.concat segs ++ [message "END TASK;"]
    | (Stop _, _, _) => True
    end.
Proof.
  intros files participant_id sound_dir save_dir dbg.
  apply (session_transcript files participant_id sound_dir save_dir true dbg).
Qed.

(** ** A rating given without touching the slider *)

Lemma track_untouched before marker :
  Forall (fun u => moving u /\ untouched u) before ->
  fold_left track before marker = marker.
Proof.
  induction 1 as [| u before [_ [D O]] _ IH]; [reflexivity |].
  cbn [fold_left]. unfold track at 2, follow, Slider.draw.
  unfold off_slider in O. now rewrite D, O.
Qed.

(** X21.  When the participant confirms and nothing has moved the marker
    (the slider, each time it was drawn, left the marker alone, and the
    pointer never mapped onto the scale), the confidence returned is the
    position the marker was first put at: the value drawn by
    [uniform(20, 80)] as the slider keeps it, a number between 20 and 80
    that the participant never chose. *)
Theorem untouched_slider_reports_the_random_start :
  forall before t after s,
    ticks s = before ++ t :: after ->
    Forall (fun u => moving u /\ untouched u) before ->
    cancels t = false -> left_button t = true -> slider_moves_to t = None ->
    exists u,
      fst (fst (Random.uniform 20 80 s)) = Done u
      /\ (20 <= Slider.set_markerPos u /\ Slider.set_markerPos u <= 80)%Q
      /\ get_confidence_mouse s
         = (Done (Slider.set_markerPos u), [Wait 1],
            State after (draws s) (S (cursor s))).
Proof.
  intros before t after s T B C L D.
  destruct (uniform_20_80 s) as (i & s1 & U & R). exists i.
  split; [now rewrite U |]. split; [now apply initial_marker_20_80 |].
  assert (S1 : s1 = State (ticks s) (draws s) (S (cursor s))) by (now injection U).
  assert (M : Forall moving before).
  { eapply Forall_impl; [| exact B]. now intros u [Mu _]. }
  unfold get_confidence_mouse.
  unfold bind at 1. rewrite U. unfold bind at 1. cbn [ticks_left].
  rewrite (confidence_loop_returns before t after _ (Slider.set_markerPos i) s1);
    subst s1; cbn [ticks]; auto.
  - rewrite (track_untouched before _ B). unfold Slider.draw. now rewrite D.
  - rewrite T, length_app. simpl. lia.
Qed.

Lemma rating_without_touching_the_slider :
  exists u,
    fst (fst (Random.uniform 20 80 (State [point 1000; confirm] sample_draws 0))) = Done u
    /\ (20 <= Slider.set_markerPos u /\ Slider.set_markerPos u <= 80)%Q
    /\ get_confidence_mouse (State [point 1000; confirm] sample_draws 0)
       = (Done (Slider.set_markerPos u), [Wait 1], State [] sample_draws 1).
Proof.
  apply (untouched_slider_reports_the_random_start [point 1000] confirm []
           (State [point 1000; confirm] sample_draws 0)).
  - reflexivity.
  - constructor; [| constructor].
    split; [split; reflexivity | split; [reflexivity | vm_compute; reflexivity]].
  - reflexivity.
  - reflexivity.
  - reflexivity.
Defined.

(** ** The order-codes the trials read *)

(** X22.  Of the hundred order-codes of the plan the thirty trials read
    the first thirty, and these hold fifteen 1s and fifteen 2s whatever
    the random generator draws: the live sound comes first in exactly
    half of the trials of a complete session. *)
Theorem the_thirty_codes_read_are_balanced :
  forall s, exists plan s',
    make_stim_order s = (Done plan, [], s')
    /\ List.length (firstn 30 plan) = 30
    /\ count_occ Z.eq_dec (firstn 30 plan) 1%Z = 15
    /\ count_occ Z.eq_dec (firstn 30 plan) 2%Z = 15.
Proof.
  intros s.
  destruct (make_stim_order_blocks s) as (plan & s' & E & blocks & -> & Hlen & Hall).
  exists (List.concat blocks), s'. split; [exact E |].
  destruct blocks as [| b0 [| b1 [| b2 rest]]]; try discriminate Hlen.
  apply Forall_cons_iff in Hall. destruct Hall as [P0 Hall].
  apply Forall_cons_iff in Hall. destruct Hall as [P1 Hall].
  apply Forall_cons_iff in Hall. destruct Hall as [P2 _].
  apply shuffled_set_balanced in P0, P1, P2.
  destruct P0 as [L0 [A0 B0]], P1 as [L1 [A1 B1]], P2 as [L2 [A2 B2]].
  cbn [List.concat].
  assert (L : List.length (b0 ++ b1 ++ b2) = 30).
  { rewrite !length_app, L0, L1, L2. reflexivity. }
  assert (F : firstn 30 (b0 ++ b1 ++ b2 ++ List.concat rest) = b0 ++ b1 ++ b2).
  { replace (b0 ++ b1 ++ b2 ++ List.concat rest)
      with ((b0 ++ b1 ++ b2) ++ List.concat rest) by now rewrite <- !app_assoc.
    rewrite <- L at 1. rewrite <- (Nat.add_0_r (List.length (b0 ++ b1 ++ b2))).
    rewrite firstn_app_2. cbn [firstn]. apply app_nil_r. }
  rewrite F. split; [exact L |].
  rewrite !count_occ_app, A0, A1, A2, B0, B1, B2. split; reflexivity.
Qed.
